(** * Firefly path tracer: the compute kernel [raytracing.wgsl] and its host
    driver [Raytracer.ts], embedded in Rocq.

  Scalars.  A WGSL [u32] is a [Z] in [0, 2^32) with the wrap-around written
  out.  A WGSL [f32] is an IEEE-754 binary32 number: [spec_float] of the
  standard library at precision 24 and maximal exponent 128, with the
  round-to-nearest-even operations [SFadd], [SFmul], [SFdiv], [SFsqrt] and
  the comparisons [SFltb], [SFleb] (false on NaN).  The only builtin that
  has no such definition is [pow]; it is a parameter of the functions
  that call it.

  State.  The kernel's private variable [rngState] is threaded explicitly:
  a kernel function that draws random numbers is a state transformer on
  the generator state.  The two rejection samplers are unbounded [loop]s in
  the source; they recurse on a fuel argument and return [None] when the
  fuel is used up before a candidate is accepted. *)

From Stdlib Require Import ZArith QArith List Bool Lia Lqa String.
From Stdlib Require Import Floats.SpecFloat Qpower.
Import ListNotations.
Local Open Scope Z_scope.

(** ** 32-bit unsigned integers *)

Module U32.

Definition modulus : Z := 2 ^ 32.
Definition max_value : Z := 4294967295.

Definition wrap (z : Z) : Z := z mod modulus.
Definition add (a b : Z) : Z := wrap (a + b).
Definition mul (a b : Z) : Z := wrap (a * b).
Definition shr (a n : Z) : Z := Z.shiftr a n.
Definition xor (a b : Z) : Z := Z.lxor a b.

Definition in_range (z : Z) : Prop := 0 <= z < modulus.

(** [i32(e)] on a [u32]: the same bits read as two's complement. *)
Definition to_i32 (z : Z) : Z := if z <? 2 ^ 31 then z else z - modulus.

End U32.

(** ** binary32 floats *)

Definition f32 : Type := spec_float.

Module F32.

Definition prec : Z := 24.
Definition emax : Z := 128.

Definition add : f32 -> f32 -> f32 := SFadd prec emax.
Definition sub : f32 -> f32 -> f32 := SFsub prec emax.
Definition mul : f32 -> f32 -> f32 := SFmul prec emax.
Definition div : f32 -> f32 -> f32 := SFdiv prec emax.
Definition sqrt : f32 -> f32 := SFsqrt prec emax.
Definition neg : f32 -> f32 := SFopp.
Definition abs : f32 -> f32 := SFabs.

(** [a < b], [a > b], [a <= b], [a >= b] of WGSL. *)
Definition lt (a b : f32) : bool := SFltb a b.
Definition gt (a b : f32) : bool := SFltb b a.
Definition le (a b : f32) : bool := SFleb a b.
Definition ge (a b : f32) : bool := SFleb b a.

Definition is_nan (a : f32) : bool :=
  match a with S754_nan => true | _ => false end.

(** Conversion of an integer, rounded to nearest even: [f32(e)]. *)
Definition of_Z (z : Z) : f32 := binary_normalize prec emax z 0 false.

(** The nearest binary32 to the decimal fraction [n / d], both [n] and [d]
    being exactly representable: one correctly rounded division. *)
Definition of_ratio (n d : Z) : f32 := div (of_Z n) (of_Z d).

Definition zero : f32 := S754_zero false.
Definition one : f32 := of_Z 1.
Definition two : f32 := of_Z 2.
Definition half : f32 := of_ratio 1 2.
Definition minus_one : f32 := of_Z (-1).

(** [min(e1, e2)]: [e2] if [e2 < e1], else [e1]; a NaN operand gives the
    other operand. *)
Definition min (a b : f32) : f32 :=
  if is_nan a then b else if is_nan b then a else if lt b a then b else a.

Definition max (a b : f32) : f32 :=
  if is_nan a then b else if is_nan b then a else if lt a b then b else a.

(** [clamp(e, low, high)] is [min(max(e, low), high)]. *)
Definition clamp (e low high : f32) : f32 := min (max e low) high.

End F32.

Declare Scope f32_scope.
Delimit Scope f32_scope with f32.
Bind Scope f32_scope with f32.
Infix "+" := F32.add : f32_scope.
Infix "-" := F32.sub : f32_scope.
Infix "*" := F32.mul : f32_scope.
Infix "/" := F32.div : f32_scope.
Notation "- x" := (F32.neg x) : f32_scope.
Infix "<?" := F32.lt : f32_scope.
Infix ">?" := F32.gt (at level 70, no associativity) : f32_scope.
Infix "<=?" := F32.le : f32_scope.

(** ** Three- and four-component vectors *)

Record vec3f : Type := mkVec3 { vx : f32; vy : f32; vz : f32 }.
Record vec4f : Type := mkVec4 { r4 : f32; g4 : f32; b4 : f32; a4 : f32 }.

Module V3.

Local Open Scope f32_scope.

(** [vec3f(s)]: the scalar in every component. *)
Definition splat (s : f32) : vec3f := mkVec3 s s s.
Definition zero : vec3f := splat F32.zero.

Definition add (a b : vec3f) : vec3f :=
  mkVec3 (vx a + vx b) (vy a + vy b) (vz a + vz b).
Definition sub (a b : vec3f) : vec3f :=
  mkVec3 (vx a - vx b) (vy a - vy b) (vz a - vz b).
(** Component-wise product [a * b] of two vectors. *)
Definition mul (a b : vec3f) : vec3f :=
  mkVec3 (vx a * vx b) (vy a * vy b) (vz a * vz b).
(** [s * v] with the scalar on the left. *)
Definition scale (s : f32) (v : vec3f) : vec3f :=
  mkVec3 (s * vx v) (s * vy v) (s * vz v).
(** [v * s] with the scalar on the right. *)
Definition scale_r (v : vec3f) (s : f32) : vec3f :=
  mkVec3 (vx v * s) (vy v * s) (vz v * s).
(** [v / s]. *)
Definition div (v : vec3f) (s : f32) : vec3f :=
  mkVec3 (vx v / s) (vy v / s) (vz v / s).
Definition neg (v : vec3f) : vec3f := mkVec3 (- vx v) (- vy v) (- vz v).

Definition dot (a b : vec3f) : f32 :=
  vx a * vx b + vy a * vy b + vz a * vz b.
Definition length (v : vec3f) : f32 := F32.sqrt (dot v v).
(** [normalize(e)] is [e / length(e)]. *)
Definition normalize (v : vec3f) : vec3f := div v (length v).

(** [select(f, t, cond)]. *)
Definition select (f t : vec3f) (cond : bool) : vec3f := if cond then t else f.

Definition clamp (v low high : vec3f) : vec3f :=
  mkVec3 (F32.clamp (vx v) (vx low) (vx high))
         (F32.clamp (vy v) (vy low) (vy high))
         (F32.clamp (vz v) (vz low) (vz high)).

End V3.

(** ** Random number generator (raytracing.wgsl, lines 54-66) *)

(** [pcg_hash]: multiply, add, xor-shift by a state-dependent amount,
  multiply, final xor-shift; every product and sum wraps at 32 bits. *)
Definition pcg_hash (input : Z) : Z :=
  let state := U32.add (U32.mul input 747796405) 2891336453 in
  let word :=
  U32.mul (U32.xor (U32.shr state (U32.add (U32.shr state 28) 4)) state)
          277803737 in
  U32.xor (U32.shr word 22) word.

(** A computation on the private [rngState]: [None] is fuel exhaustion. *)
Definition Rng (A : Type) : Type := Z -> option (A * Z).

Definition ret {A} (a : A) : Rng A := fun s => Some (a, s).
Definition bind {A B} (m : Rng A) (k : A -> Rng B) : Rng B :=
  fun s => match m s with
         | Some (a, s') => k a s'
         | None => None
         end.

Notation "x <- m ;; k" := (bind m (fun x => k))
  (at level 61, m at next level, right associativity).

(** [rand]: advance the state by one hash and scale it by
  [f32(0xffffffffu)]. *)
Definition rand : Rng f32 :=
  fun rngState =>
  let rngState' := pcg_hash rngState in
  Some (F32.div (F32.of_Z rngState') (F32.of_Z U32.max_value), rngState').

(** ** Derived samplers (lines 68-90)

  The samplers are written over an arbitrary generator [gen], so that
  their behaviour on a generator other than [rand] can be stated; the
  kernel's own samplers are the instances at [rand]. *)

Section Samplers.

Variable gen : Rng f32.
Local Open Scope f32_scope.

(** [rand() * 2.0 - 1.0] *)
Definition signed_unit : Rng f32 :=
  r <- gen ;; ret (r * F32.two - F32.one).

(** One pass through the body of the [loop] of [rand_in_unit_sphere]. *)
Definition sphere_candidate : Rng vec3f :=
  a <- signed_unit ;; b <- signed_unit ;; c <- signed_unit ;;
  ret (mkVec3 a b c).

(** One pass through the body of the [loop] of [rand_in_unit_disk]. *)
Definition disk_candidate : Rng vec3f :=
  a <- signed_unit ;; b <- signed_unit ;;
  ret (mkVec3 a b F32.zero).

(** [loop { let p = ...; if (dot(p, p) < 1.0) { return p; } }]: the loop
    has no exit other than the [return]; the statement after it is never
    reached. *)
Fixpoint rejection_loop (candidate : Rng vec3f) (fuel : nat) : Rng vec3f :=
  match fuel with
  | O => fun _ => None
  | S fuel' =>
      p <- candidate ;;
      if V3.dot p p <? F32.one then ret p
      else rejection_loop candidate fuel'
  end.

Definition rand_in_unit_sphere_with (fuel : nat) : Rng vec3f :=
  rejection_loop sphere_candidate fuel.

Definition rand_in_unit_disk_with (fuel : nat) : Rng vec3f :=
  rejection_loop disk_candidate fuel.

End Samplers.

Definition rand_in_unit_sphere : nat -> Rng vec3f := rand_in_unit_sphere_with rand.
Definition rand_in_unit_disk : nat -> Rng vec3f := rand_in_unit_disk_with rand.

Definition rand_unit_vector (fuel : nat) : Rng vec3f :=
  p <- rand_in_unit_sphere fuel ;; ret (V3.normalize p).

(** ** Scattering helpers (lines 92-112) *)

Section Helpers.

Local Open Scope f32_scope.

Definition near_zero (v : vec3f) : bool :=
  let s := F32.of_ratio 1 100000000 in
  (F32.abs (vx v) <? s) && (F32.abs (vy v) <? s) && (F32.abs (vz v) <? s).

Definition reflect (v n : vec3f) : vec3f :=
  V3.sub v (V3.scale (F32.two * V3.dot v n) n).

Definition refract (uv n : vec3f) (etai_over_etat : f32) : vec3f :=
  let cos_theta := F32.min (V3.dot (V3.neg uv) n) F32.one in
  let r_out_perp := V3.scale etai_over_etat (V3.add uv (V3.scale cos_theta n)) in
  let r_out_parallel :=
    V3.scale (- F32.sqrt (F32.abs (F32.one - V3.dot r_out_perp r_out_perp))) n in
  V3.add r_out_perp r_out_parallel.

(** [pow] is the WGSL builtin; it is a parameter. *)
Variable pow : f32 -> f32 -> f32.

Definition reflectance (cosine ref_idx : f32) : f32 :=
  let r0 := (F32.one - ref_idx) / (F32.one + ref_idx) in
  let r0 := r0 * r0 in
  r0 + (F32.one - r0) * pow (F32.one - cosine) (F32.of_Z 5).

End Helpers.

(** ** Scene records as the kernel reads them (lines 1-45, 114-120) *)

Record Uniforms : Type := mkUniforms {
  u_width : Z;
  u_height : Z;
  u_frameIndex : Z;
  u_maxBounces : Z;
  u_numSpheres : Z;
  u_numMaterials : Z;
  u_sampleCount : Z
}.

Record CameraData : Type := mkCameraData {
  cam_origin : vec3f;
  cam_lowerLeftCorner : vec3f;
  cam_horizontal : vec3f;
  cam_vertical : vec3f;
  cam_u : vec3f;
  cam_v : vec3f;
  cam_w : vec3f;
  cam_lensRadius : f32
}.

Record SphereData : Type := mkSphere {
  center : vec3f;
  radius : f32;
  sphere_materialIndex : Z
}.

(** [materialType]: 0 Lambertian, 1 Metal, 2 Dielectric. *)
Record MaterialData : Type := mkMaterial {
  albedo : vec3f;
  materialType : Z;
  fuzz : f32;
  refractionIndex : f32
}.

Record HitRecord : Type := mkHit {
  hit_t : f32;
  hit_p : vec3f;
  hit_normal : vec3f;
  hit_frontFace : bool;
  hit_materialIndex : Z
}.

(** The zero value a WGSL [var] without initialiser starts from. *)
Definition zero_HitRecord : HitRecord := mkHit F32.zero V3.zero V3.zero false 0.
Definition zero_Material : MaterialData := mkMaterial V3.zero 0 F32.zero F32.zero.

(** ** Intersection (lines 122-172) *)

Section Intersection.

Local Open Scope f32_scope.

Definition discriminant (sphere : SphereData) (rayOrigin rayDir : vec3f) : f32 :=
  let oc := V3.sub rayOrigin (center sphere) in
  let a := V3.dot rayDir rayDir in
  let halfB := V3.dot oc rayDir in
  let c := V3.dot oc oc - radius sphere * radius sphere in
  halfB * halfB - a * c.

(** [(-halfB - sqrtd) / a], the root tested first. *)
Definition root_minus (sphere : SphereData) (rayOrigin rayDir : vec3f) : f32 :=
  let oc := V3.sub rayOrigin (center sphere) in
  let a := V3.dot rayDir rayDir in
  let halfB := V3.dot oc rayDir in
  (- halfB - F32.sqrt (discriminant sphere rayOrigin rayDir)) / a.

(** [(-halfB + sqrtd) / a], the root tested second. *)
Definition root_plus (sphere : SphereData) (rayOrigin rayDir : vec3f) : f32 :=
  let oc := V3.sub rayOrigin (center sphere) in
  let a := V3.dot rayDir rayDir in
  let halfB := V3.dot oc rayDir in
  (- halfB + F32.sqrt (discriminant sphere rayOrigin rayDir)) / a.

(** [root < tMin || root > tMax] *)
Definition out_of_range (root tMin tMax : f32) : bool :=
  (root <? tMin) || (root >? tMax).

(** The result [-1.0] stands for "no hit". *)
Definition hitSphere (sphere : SphereData) (rayOrigin rayDir : vec3f)
           (tMin tMax : f32) : f32 :=
  if discriminant sphere rayOrigin rayDir <? F32.zero then F32.minus_one
  else
    let root := root_minus sphere rayOrigin rayDir in
    if out_of_range root tMin tMax then
      let root := root_plus sphere rayOrigin rayDir in
      if out_of_range root tMin tMax then F32.minus_one
      else root
    else root.

(** The variables of [closestHit] that the loop over the spheres updates. *)
Record Scan : Type := mkScan {
  closestSoFar : f32;
  hitAnything : bool;
  scan_rec : HitRecord
  }.

(** The outward normal [(p - center) / radius] at the point at [t]. *)
Definition outward_normal (sphere : SphereData) (rayOrigin rayDir : vec3f)
           (t : f32) : vec3f :=
  V3.div (V3.sub (V3.add rayOrigin (V3.scale t rayDir)) (center sphere))
         (radius sphere).

(** The record written for a hit of [sphere] at [t]. *)
Definition record_hit (sphere : SphereData) (rayOrigin rayDir : vec3f)
           (t : f32) : HitRecord :=
  let p := V3.add rayOrigin (V3.scale t rayDir) in
  let normal := V3.div (V3.sub p (center sphere)) (radius sphere) in
  let frontFace := V3.dot rayDir normal <? F32.zero in
  mkHit t p (V3.select (V3.neg normal) normal frontFace) frontFace
        (sphere_materialIndex sphere).

(** One iteration of the loop over the spheres. *)
Definition closestHit_step (rayOrigin rayDir : vec3f) (tMin : f32)
           (st : Scan) (sphere : SphereData) : Scan :=
  let t := hitSphere sphere rayOrigin rayDir tMin (closestSoFar st) in
  if t >? F32.zero then
    mkScan t true (record_hit sphere rayOrigin rayDir t)
  else st.

Definition closestHit_scan (spheres : list SphereData)
           (rayOrigin rayDir : vec3f) (tMin tMax : f32) : Scan :=
  fold_left (closestHit_step rayOrigin rayDir tMin) spheres
            (mkScan tMax false zero_HitRecord).

(** [spheres] holds the first [uniforms.numSpheres] elements of the
    storage buffer, in index order. *)
Definition closestHit (spheres : list SphereData)
           (rayOrigin rayDir : vec3f) (tMin tMax : f32) : HitRecord :=
  let st := closestHit_scan spheres rayOrigin rayDir tMin tMax in
  if hitAnything st then scan_rec st
  else
    let rec := scan_rec st in
    mkHit F32.minus_one (hit_p rec) (hit_normal rec) (hit_frontFace rec)
          (hit_materialIndex rec).

End Intersection.

(** ** Path integrator (lines 174-234) *)

(** What one iteration of the bounce loop of [rayColor] does: it either
    executes a [return], or goes on with a new origin, direction and
    throughput. *)
Inductive Bounce : Type :=
| Return (color : vec3f)
| Continue (origin dir throughput : vec3f).

Section Integrator.

Local Open Scope f32_scope.

Variable pow : f32 -> f32 -> f32.
(** Fuel given to each call of a rejection sampler. *)
Variable fuel : nat.
Variable spheres : list SphereData.
Variable materials : list MaterialData.

Definition white : vec3f := V3.splat F32.one.
Definition sky_blue : vec3f :=
  mkVec3 (F32.of_ratio 1 2) (F32.of_ratio 7 10) F32.one.

(** The colour returned on a miss, lines 183-185. *)
Definition skyColor (dir : vec3f) : vec3f :=
  let unitDir := V3.normalize dir in
  let t := F32.half * (vy unitDir + F32.one) in
  V3.add (V3.scale (F32.one - t) white) (V3.scale t sky_blue).

Definition tMin_bounce : f32 := F32.of_ratio 1 1000.
Definition tMax_bounce : f32 := F32.of_Z (10 ^ 30).

(** [materials[i]]; an index past the end reads the zero record. *)
Definition material_at (i : Z) : MaterialData :=
  nth (Z.to_nat i) materials zero_Material.

(** Lines 211-217: the quantities the dielectric branch computes first. *)
Definition refractionRatio (material : MaterialData) (rec : HitRecord) : f32 :=
  if hit_frontFace rec then F32.one / refractionIndex material
  else refractionIndex material.

Definition cosTheta (rec : HitRecord) (currentDir : vec3f) : f32 :=
  F32.min (V3.dot (V3.neg (V3.normalize currentDir)) (hit_normal rec)) F32.one.

Definition sinTheta (rec : HitRecord) (currentDir : vec3f) : f32 :=
  F32.sqrt (F32.one - cosTheta rec currentDir * cosTheta rec currentDir).

Definition cannotRefract (material : MaterialData) (rec : HitRecord)
           (currentDir : vec3f) : bool :=
  refractionRatio material rec * sinTheta rec currentDir >? F32.one.

(** Lines 219-225: the new direction at a dielectric.  [||] does not
    evaluate its right operand when the left one is true, so no random
    number is drawn when [cannotRefract] holds. *)
Definition dielectric_direction (material : MaterialData) (rec : HitRecord)
           (currentDir : vec3f) : Rng vec3f :=
  let unitDir := V3.normalize currentDir in
  if cannotRefract material rec currentDir then ret (reflect unitDir (hit_normal rec))
  else
    r <- rand ;;
    if reflectance pow (cosTheta rec currentDir) (refractionRatio material rec) >? r
    then ret (reflect unitDir (hit_normal rec))
    else ret (refract unitDir (hit_normal rec) (refractionRatio material rec)).

(** The body of the [for] loop of [rayColor]. *)
Definition bounce (currentOrigin currentDir throughput : vec3f) : Rng Bounce :=
  let rec := closestHit spheres currentOrigin currentDir tMin_bounce tMax_bounce in
  if hit_t rec <? F32.zero then
    ret (Return (V3.mul throughput (skyColor currentDir)))
  else
    let material := material_at (hit_materialIndex rec) in
    if (materialType material =? 0)%Z then
      u <- rand_unit_vector fuel ;;
      let scatterDir := V3.add (hit_normal rec) u in
      let scatterDir := if near_zero scatterDir then hit_normal rec else scatterDir in
      ret (Continue (hit_p rec) scatterDir (V3.mul throughput (albedo material)))
    else if (materialType material =? 1)%Z then
      let reflected := reflect currentDir (hit_normal rec) in
      q <- rand_in_unit_sphere fuel ;;
      let scattered := V3.add reflected (V3.scale (fuzz material) q) in
      if V3.dot scattered (hit_normal rec) <=? F32.zero then ret (Return V3.zero)
      else ret (Continue (hit_p rec) scattered (V3.mul throughput (albedo material)))
    else if (materialType material =? 2)%Z then
      direction <- dielectric_direction material rec currentDir ;;
      ret (Continue (hit_p rec) direction (V3.mul throughput (albedo material)))
    else ret (Continue currentOrigin currentDir throughput).

(** [for (var i = 0u; i < depth; i++) { ... } return vec3f(0.0);] *)
Fixpoint rayColor_loop (n : nat) (currentOrigin currentDir throughput : vec3f)
  : Rng vec3f :=
  match n with
  | O => ret V3.zero
  | S n' =>
      b <- bounce currentOrigin currentDir throughput ;;
      match b with
      | Return color => ret color
      | Continue origin dir throughput' => rayColor_loop n' origin dir throughput'
      end
  end.

Definition rayColor (rayOrigin rayDir : vec3f) (depth : Z) : Rng vec3f :=
  rayColor_loop (Z.to_nat depth) rayOrigin rayDir white.

End Integrator.

(** ** Storage textures *)

Record Texture : Type := mkTexture {
  tex_width : Z;
  tex_height : Z;
  texel : Z -> Z -> vec4f
}.

Definition vec4_zero : vec4f := mkVec4 F32.zero F32.zero F32.zero F32.zero.
Definition rgb (c : vec4f) : vec3f := mkVec3 (r4 c) (g4 c) (b4 c).
Definition rgba (c : vec3f) (a : f32) : vec4f := mkVec4 (vx c) (vy c) (vz c) a.

Definition in_bounds (tex : Texture) (x y : Z) : bool :=
  (0 <=? x) && (x <? tex_width tex) && (0 <=? y) && (y <? tex_height tex).

(** A texture as [createTexture] returns it: every texel zero. *)
Definition createTexture (w h : Z) : Texture := mkTexture w h (fun _ _ => vec4_zero).

(** A load outside the texture gives the zero vector. *)
Definition textureLoad (tex : Texture) (x y : Z) : vec4f :=
  if in_bounds tex x y then texel tex x y else vec4_zero.

(** A store outside the texture is dropped. *)
Definition textureStore (tex : Texture) (x y : Z) (v : vec4f) : Texture :=
  if in_bounds tex x y then
    mkTexture (tex_width tex) (tex_height tex)
      (fun x' y' => if (x' =? x) && (y' =? y) then v else texel tex x' y')
  else tex.

(** ** The entry point [main] (lines 236-272) *)

Section Kernel.

Local Open Scope f32_scope.

Variable pow : f32 -> f32 -> f32.
Variable fuel : nat.
Variable uniforms : Uniforms.
Variable camera : CameraData.
Variable spheres : list SphereData.
Variable materials : list MaterialData.

(** The seed of the invocation for [pixel], line 244. *)
Definition pixel_seed (px py : Z) : Z :=
  pcg_hash
    (U32.add (U32.add (U32.wrap px) (U32.mul (U32.wrap py) (u_width uniforms)))
             (U32.mul (U32.mul (u_frameIndex uniforms) (u_width uniforms))
                      (u_height uniforms))).

(** The camera ray and its colour: the body of the sample loop up to the
    call of [rayColor], lines 254-260. *)
Definition sample_color (px py : Z) (offset : vec3f) : Rng vec3f :=
  ru <- rand ;;
  let u := (F32.of_Z px + ru) / F32.of_Z (u_width uniforms) in
  rv <- rand ;;
  let v := (F32.of_Z py + rv) / F32.of_Z (u_height uniforms) in
  let rayDir :=
    V3.sub (V3.sub (V3.add (V3.add (cam_lowerLeftCorner camera)
                                   (V3.scale u (cam_horizontal camera)))
                           (V3.scale v (cam_vertical camera)))
                   (cam_origin camera))
           offset in
  let rayOrigin := V3.add (cam_origin camera) offset in
  rayColor pow fuel spheres materials rayOrigin rayDir (u_maxBounces uniforms).

(** [for (var s = 0u; s < n; s++) { ... accumulatedColor += color;
    sampleCount += 1u; }] *)
Fixpoint sample_loop (n : nat) (px py : Z) (offset : vec3f)
         (accumulatedColor : vec3f) (sampleCount : Z) : Rng (vec3f * Z) :=
  match n with
  | O => ret (accumulatedColor, sampleCount)
  | S n' =>
      color <- sample_color px py offset ;;
      sample_loop n' px py offset (V3.add accumulatedColor color)
                  (U32.add sampleCount 1)
  end.

(** [1.0 / 2.2] *)
Definition inv_gamma : f32 := F32.of_ratio 5 11.

Definition gamma_correct (avgColor : vec3f) : vec3f :=
  let c := V3.clamp avgColor (V3.splat F32.zero) (V3.splat F32.one) in
  mkVec3 (pow (vx c) inv_gamma) (pow (vy c) inv_gamma) (pow (vz c) inv_gamma).

(** The two values an invocation stores for its pixel. *)
Record PixelResult : Type := mkPixelResult {
  accumulated : vec3f;
  divisor : Z;
  displayed : vec3f
}.

(** [camera.u * rd.x + camera.v * rd.y] for [rd = camera.lensRadius * p],
    lines 250-251. *)
Definition lens_offset (p : vec3f) : vec3f :=
  let rd := V3.scale (cam_lensRadius camera) p in
  V3.add (V3.scale_r (cam_u camera) (vx rd)) (V3.scale_r (cam_v camera) (vy rd)).

(** Lines 244-269 for a pixel that passed the bounds test: the loop bound
    of the sample loop is the literal [1u]. *)
Definition shade_pixel (px py : Z) (prevColor : vec4f) : option PixelResult :=
  let accumulatedColor := rgb prevColor in
  let sampleCount := u_sampleCount uniforms in
  let run :=
    p <- rand_in_unit_disk fuel ;;
    sample_loop 1%nat px py (lens_offset p) accumulatedColor sampleCount in
  match run (pixel_seed px py) with
  | None => None
  | Some ((accumulatedColor', sampleCount'), _) =>
      let avgColor := V3.div accumulatedColor' (F32.of_Z sampleCount') in
      Some (mkPixelResult accumulatedColor' sampleCount' (gamma_correct avgColor))
  end.

(** The pair of textures bound at bindings 4 and 5. *)
Record Targets : Type := mkTargets {
  outputTex : Texture;
  accumulationTex : Texture
}.

(** One invocation, for [globalId.xy = (gx, gy)]. *)
Definition main (gx gy : Z) (tg : Targets) : option Targets :=
  let px := U32.to_i32 gx in
  let py := U32.to_i32 gy in
  if (px >=? U32.to_i32 (u_width uniforms))%Z || (py >=? U32.to_i32 (u_height uniforms))%Z
  then Some tg
  else
    match shade_pixel px py (textureLoad (accumulationTex tg) px py) with
    | None => None
    | Some res =>
        Some (mkTargets
                (textureStore (outputTex tg) px py (rgba (displayed res) F32.one))
                (textureStore (accumulationTex tg) px py (rgba (accumulated res) F32.one)))
    end.

(** [0, 1, ..., n - 1] *)
Definition range (n : Z) : list Z := map Z.of_nat (seq 0 (Z.to_nat n)).

(** The [globalId.xy] of all invocations of a dispatch of [gw] by [gh]
    workgroups of 8 by 8.  Every invocation touches the texels of its own
    pixel only, so the invocations are run one after the other. *)
Definition invocation_ids (gw gh : Z) : list (Z * Z) :=
  list_prod (range (8 * gw)) (range (8 * gh)).

Fixpoint run_invocations (ids : list (Z * Z)) (tg : Targets) : option Targets :=
  match ids with
  | [] => Some tg
  | (gx, gy) :: ids' =>
      match main gx gy tg with
      | None => None
      | Some tg' => run_invocations ids' tg'
      end
  end.

Definition dispatchWorkgroups (gw gh : Z) (tg : Targets) : option Targets :=
  run_invocations (invocation_ids gw gh) tg.

End Kernel.

(** ** The host driver (Raytracer.ts)

    Numbers of the host are integers here.  The packing of a scene into the
    camera, sphere and material buffers ([buildCameraData],
    [buildSphereData], [buildMaterialData]) is not part of the model: a
    scene is given by the records the kernel finds in the three buffers
    after [render] has written them. *)

Record SceneData : Type := mkScene {
  scene_spheres : list SphereData;
  scene_materials : list MaterialData;
  scene_camera : CameraData
}.

Record RenderSettings : Type := mkSettings {
  samplesPerFrame : Z;
  maxBounces : Z;
  settings_width : Z;
  settings_height : Z
}.

(** [pipeline] stands for the compute pipeline, the bind group layout and
    the four buffers, which [initialize] creates together; [bindGroup] for
    the bind group, which always binds the two current textures since every
    method that replaces a texture calls [createBindGroup]. *)
Record Raytracer : Type := mkRaytracer {
  pipeline : bool;
  bindGroup : bool;
  outputTexture : option Texture;
  accumulationTexture : option Texture;
  frameIndex : Z;
  sampleCount : Z;
  width : Z;
  height : Z
}.

Inductive Outcome (A : Type) : Type :=
| Returned (rt : Raytracer) (a : A)
| Thrown (rt : Raytracer) (msg : string)
| Diverged.

Arguments Returned {A} rt a.
Arguments Thrown {A} rt msg.
Arguments Diverged {A}.

Definition constructor (w h : Z) : Raytracer :=
  mkRaytracer false false None None 0 0 w h.

Definition createTextures (rt : Raytracer) : Raytracer :=
  mkRaytracer (pipeline rt) (bindGroup rt)
    (Some (createTexture (width rt) (height rt)))
    (Some (createTexture (width rt) (height rt)))
    (frameIndex rt) (sampleCount rt) (width rt) (height rt).

Definition createBindGroup (rt : Raytracer) : Outcome unit :=
  match pipeline rt, outputTexture rt, accumulationTexture rt with
  | true, Some _, Some _ =>
      Returned (mkRaytracer (pipeline rt) true (outputTexture rt)
                  (accumulationTexture rt) (frameIndex rt) (sampleCount rt)
                  (width rt) (height rt)) tt
  | _, _, _ => Thrown rt "Resources not initialized"
  end.

Definition initialize (rt : Raytracer) : Outcome unit :=
  let rt1 := mkRaytracer true (bindGroup rt) (outputTexture rt)
               (accumulationTexture rt) (frameIndex rt) (sampleCount rt)
               (width rt) (height rt) in
  createBindGroup (createTextures rt1).

(** [new Uint32Array([...])] stores every number modulo [2^32]. *)
Definition to_u32 (z : Z) : Z := U32.wrap z.

(** [Math.ceil(n / 8)] *)
Definition ceil_div8 (n : Z) : Z := (n + 7) / 8.

Section Render.

Variable pow : f32 -> f32 -> f32.
Variable fuel : nat.

Definition render_uniforms (rt : Raytracer) (scene : SceneData)
           (settings : RenderSettings) : Uniforms :=
  mkUniforms (to_u32 (settings_width settings)) (to_u32 (settings_height settings))
             (to_u32 (frameIndex rt)) (to_u32 (maxBounces settings))
             (to_u32 (Z.of_nat (List.length (scene_spheres scene))))
             (to_u32 (Z.of_nat (List.length (scene_materials scene))))
             (to_u32 (sampleCount rt)).

Definition render (rt : Raytracer) (scene : SceneData) (settings : RenderSettings)
  : Outcome Z :=
  if negb (pipeline rt && bindGroup rt) then Thrown rt "Pipeline not initialized"
  else
    match outputTexture rt, accumulationTexture rt with
    | Some out, Some acc =>
        match dispatchWorkgroups pow fuel (render_uniforms rt scene settings)
                (scene_camera scene) (scene_spheres scene) (scene_materials scene)
                (ceil_div8 (settings_width settings))
                (ceil_div8 (settings_height settings))
                (mkTargets out acc) with
        | None => Diverged
        | Some tg =>
            let sampleCount' := sampleCount rt + samplesPerFrame settings in
            Returned (mkRaytracer (pipeline rt) (bindGroup rt)
                        (Some (outputTex tg)) (Some (accumulationTex tg))
                        (frameIndex rt + 1) sampleCount' (width rt) (height rt))
                     sampleCount'
        end
    | _, _ => Thrown rt "texture is null"
    end.

End Render.

Definition resetAccumulation (rt : Raytracer) : Outcome unit :=
  createBindGroup
    (mkRaytracer (pipeline rt) (bindGroup rt) (outputTexture rt)
       (Some (createTexture (width rt) (height rt)))
       0 0 (width rt) (height rt)).

(** Reading a pixel of the output texture. *)
Definition read_output (rt : Raytracer) (x y : Z) : option vec4f :=
  match outputTexture rt with
  | Some out => Some (textureLoad out x y)
  | None => None
  end.

(** ** Notions used in the statements *)

(** [t > 0.0], the test [closestHit] applies to the result of [hitSphere]. *)
Definition is_hit (t : f32) : bool := F32.gt t F32.zero.

(** A record reports a hit when [rayColor]'s test [rec.t < 0.0] fails. *)
Definition reports_hit (rec : HitRecord) : bool := negb (F32.lt (hit_t rec) F32.zero).

(** The ray hits none of the spheres in the range [rayColor] uses. *)
Definition misses_every_sphere (spheres : list SphereData)
           (rayOrigin rayDir : vec3f) : Prop :=
  Forall (fun s => is_hit (hitSphere s rayOrigin rayDir tMin_bounce tMax_bounce) = false)
         spheres.

(** [tMin <= r] and [r <= tMax]. *)
Definition in_interval (r tMin tMax : f32) : bool := F32.le tMin r && F32.le r tMax.

(** Equality of two floats up to the sign of a zero. *)
Definition same_number (x y : f32) : Prop :=
  x = y \/ exists s1 s2, x = S754_zero s1 /\ y = S754_zero s2.

(** The shape of [f32(n)] for a positive [n] below [2^32]: a positive number
    with a full mantissa, at most [2^32]. *)
Definition canonical_u32_float (x : f32) : Prop :=
  exists m e, x = S754_finite false m e /\ digits2_pos m = 24%positive /\
              (-23 <= e <= 8 \/ (m = 8388608%positive /\ e = 9)).

(** The closed unit interval. *)
Definition in_unit_interval (v : f32) : Prop :=
  F32.le F32.zero v = true /\ F32.le v F32.one = true.

(** The first [n] results of [rand] from a given state. *)
Fixpoint draws (n : nat) (rngState : Z) : list f32 :=
  match n with
  | O => []
  | S n' =>
      match rand rngState with
      | Some (v, rngState') => v :: draws n' rngState'
      | None => []
      end
  end.

(** A generator that is stuck: every draw is [0.0]. *)
Definition stuck_gen : Rng f32 := fun s => Some (F32.zero, s).

(** With this fuel the kernel's two samplers return from every state. *)
Definition samplers_return (fuel : nat) : Prop :=
  forall s, rand_in_unit_sphere fuel s <> None /\ rand_in_unit_disk fuel s <> None.

(** The invariant of the scan of [closestHit]: once something was hit, the
    closest distance is positive and the record is the one written for
    some sphere of the list at that distance. *)
Definition scan_inv (rayOrigin rayDir : vec3f) (spheres : list SphereData)
           (st : Scan) : Prop :=
  hitAnything st = true ->
  is_hit (closestSoFar st) = true /\
  exists s, In s spheres /\
            scan_rec st = record_hit s rayOrigin rayDir (closestSoFar st).

(** *** Exact arithmetic on the values of floats *)

(** The rational a finite float stands for; [0] for the others. *)
Definition exact (x : f32) : Q :=
  match x with
  | S754_finite s m e =>
      ((if s then -1 else 1) * inject_Z (Zpos m) * Qpower 2 e)%Q
  | _ => 0%Q
  end.

Definition exact_vec (v : vec3f) : Q * Q * Q := (exact (vx v), exact (vy v), exact (vz v)).

Definition qsub (u v : Q * Q * Q) : Q * Q * Q :=
  let '(a, b, c) := u in let '(x, y, z) := v in ((a - x)%Q, (b - y)%Q, (c - z)%Q).

Definition qdot (u v : Q * Q * Q) : Q :=
  let '(a, b, c) := u in let '(x, y, z) := v in (a * x + b * y + c * z)%Q.

(** The discriminant [halfB^2 - a * c] of [hitSphere] on the exact values of
    its inputs, every operation exact. *)
Definition exact_discriminant (sphere : SphereData) (rayOrigin rayDir : vec3f) : Q :=
  let oc := qsub (exact_vec rayOrigin) (exact_vec (center sphere)) in
  let a := qdot (exact_vec rayDir) (exact_vec rayDir) in
  let halfB := qdot oc (exact_vec rayDir) in
  let c := (qdot oc oc - exact (radius sphere) * exact (radius sphere))%Q in
  (halfB * halfB - a * c)%Q.

(** The square of the distance from the centre of the sphere to the nearest
    point of the line of the ray, in exact arithmetic:
    [|oc|^2 - (oc . d)^2 / |d|^2]. *)
Definition closest_approach_sq (sphere : SphereData) (rayOrigin rayDir : vec3f) : Q :=
  let oc := qsub (exact_vec rayOrigin) (exact_vec (center sphere)) in
  let a := qdot (exact_vec rayDir) (exact_vec rayDir) in
  let halfB := qdot oc (exact_vec rayDir) in
  (qdot oc oc - halfB * halfB / a)%Q.

(** The closest approach distance exceeds the radius. *)
Definition passes_outside (sphere : SphereData) (rayOrigin rayDir : vec3f) : Prop :=
  (exact (radius sphere) * exact (radius sphere)
   < closest_approach_sq sphere rayOrigin rayDir)%Q.

(** A float that is a number: a zero or a finite value. *)
Definition is_finite (x : f32) : bool :=
  match x with
  | S754_zero _ | S754_finite _ _ _ => true
  | _ => false
  end.

(** A number of the binary32 format: the mantissa has at most 24 digits and
    the exponent is the one the format gives it. *)
Definition is_f32_number (x : f32) : Prop :=
  valid_binary 24 128 x = true /\ is_finite x = true.

(** The result of [op] on [x] and [y] is a number and is the exact result:
    nothing was rounded away. *)
Definition exact_op (op : f32 -> f32 -> f32) (qop : Q -> Q -> Q) (x y : f32) : Prop :=
  is_finite (op x y) = true /\ (exact (op x y) == qop (exact x) (exact y))%Q.

Definition exact_sub3 (a b : vec3f) : Prop :=
  exact_op F32.sub Qminus (vx a) (vx b) /\
  exact_op F32.sub Qminus (vy a) (vy b) /\
  exact_op F32.sub Qminus (vz a) (vz b).

Definition exact_dot (a b : vec3f) : Prop :=
  exact_op F32.mul Qmult (vx a) (vx b) /\
  exact_op F32.mul Qmult (vy a) (vy b) /\
  exact_op F32.mul Qmult (vz a) (vz b) /\
  exact_op F32.add Qplus (F32.mul (vx a) (vx b)) (F32.mul (vy a) (vy b)) /\
  exact_op F32.add Qplus
    (F32.add (F32.mul (vx a) (vx b)) (F32.mul (vy a) (vy b)))
    (F32.mul (vz a) (vz b)).

(** Every operation of [discriminant] gives its exact result. *)
Definition discriminant_exact (sphere : SphereData) (rayOrigin rayDir : vec3f) : Prop :=
  let oc := V3.sub rayOrigin (center sphere) in
  let a := V3.dot rayDir rayDir in
  let halfB := V3.dot oc rayDir in
  let rr := F32.mul (radius sphere) (radius sphere) in
  let c := F32.sub (V3.dot oc oc) rr in
  exact_sub3 rayOrigin (center sphere) /\
  exact_dot rayDir rayDir /\ exact_dot oc rayDir /\ exact_dot oc oc /\
  exact_op F32.mul Qmult (radius sphere) (radius sphere) /\
  exact_op F32.sub Qminus (V3.dot oc oc) rr /\
  exact_op F32.mul Qmult halfB halfB /\
  exact_op F32.mul Qmult a c /\
  exact_op F32.sub Qminus (F32.mul halfB halfB) (F32.mul a c).

(** Every operation of the two roots gives its exact result, the square root
    included. *)
Definition roots_exact (sphere : SphereData) (rayOrigin rayDir : vec3f) : Prop :=
  let oc := V3.sub rayOrigin (center sphere) in
  let a := V3.dot rayDir rayDir in
  let halfB := V3.dot oc rayDir in
  let sqrtd := F32.sqrt (discriminant sphere rayOrigin rayDir) in
  discriminant_exact sphere rayOrigin rayDir /\
  is_finite sqrtd = true /\
  (exact sqrtd * exact sqrtd == exact (discriminant sphere rayOrigin rayDir))%Q /\
  (0 <= exact sqrtd)%Q /\
  exact_op F32.sub Qminus (F32.neg halfB) sqrtd /\
  exact_op F32.div Qdiv (F32.sub (F32.neg halfB) sqrtd) a /\
  exact_op F32.add Qplus (F32.neg halfB) sqrtd /\
  exact_op F32.div Qdiv (F32.add (F32.neg halfB) sqrtd) a.

(** [|o + t d - center|^2 - radius^2] on the exact values: zero when the
    point of the ray at [t] lies on the sphere. *)
Definition sphere_residual (sphere : SphereData) (rayOrigin rayDir : vec3f) (t : Q) : Q :=
  let '(ox, oy, oz) := exact_vec rayOrigin in
  let '(dx, dy, dz) := exact_vec rayDir in
  let '(cx, cy, cz) := exact_vec (center sphere) in
  let px := (ox + t * dx - cx)%Q in
  let py := (oy + t * dy - cy)%Q in
  let pz := (oz + t * dz - cz)%Q in
  (px * px + py * py + pz * pz - exact (radius sphere) * exact (radius sphere))%Q.

(** The integer nearest to [p / 2^k], a tie going to the even one. *)
Definition nearest_even (p k : Z) : Z :=
  let M := p / 2 ^ k in
  let rest := p mod 2 ^ k in
  if (2 ^ k <? 2 * rest) || ((2 * rest =? 2 ^ k) && Z.odd M) then M + 1 else M.

(** The state after [k] candidates in a row were drawn and rejected; [None]
    when one of them is accepted. *)
Fixpoint rejections (candidate : Rng vec3f) (k : nat) (st : Z) : option Z :=
  match k with
  | O => Some st
  | S k' =>
      match candidate st with
      | Some (p, st') =>
          if F32.lt (V3.dot p p) F32.one then None else rejections candidate k' st'
      | None => None
      end
  end.

(** The position of a rational [v] in the unit interval that starts at the
    integer [m], as the rounding code records it. *)
Definition located (v : Q) (m : Z) (l : location) : Prop :=
  match l with
  | loc_Exact => (v == inject_Z m)%Q
  | loc_Inexact Lt => (inject_Z m < v /\ v < inject_Z m + (1 # 2))%Q
  | loc_Inexact Eq => (v == inject_Z m + (1 # 2))%Q
  | loc_Inexact Gt => (inject_Z m + (1 # 2) < v /\ v < inject_Z m + 1)%Q
  end.

(** [n] is the integer nearest to [v], the even one of the two when [v] is
    half-way between them. *)
Definition rounds_to_even (v : Q) (n : Z) : Prop :=
  (inject_Z n - (1 # 2) <= v /\ v <= inject_Z n + (1 # 2))%Q /\
  ((v == inject_Z n + (1 # 2))%Q \/ (v == inject_Z n - (1 # 2))%Q -> Z.even n = true).

(** [2^(mu-1) <= v < 2^mu]. *)
Definition magnitude (v : Q) (mu : Z) : Prop :=
  (Qpower 2 (mu - 1) <= v /\ v < Qpower 2 mu)%Q.

(** The float for the rounded mantissa [n] at the exponent [E]: a mantissa
    of 25 digits is renormalised, and an exponent above 104 overflows. *)
Definition pack_float (s : bool) (n E : Z) : f32 :=
  if n =? 0 then S754_zero s
  else if n <? 2 ^ 24
       then (if E <=? 104 then S754_finite s (Z.to_pos n) E else S754_infinity s)
       else (if E + 1 <=? 104 then S754_finite s (Z.to_pos (2 ^ 23)) (E + 1)
             else S754_infinity s).

(** [x] is the float that rounding the positive rational [V], with the sign
    [s] put in front, gives. *)
Definition rounds_to (V : Q) (s : bool) (x : f32) : Prop :=
  exists mu n,
    magnitude V mu /\
    rounds_to_even (V / Qpower 2 (fexp 24 128 mu)) n /\
    0 <= n <= 2 ^ 24 /\
    (fexp 24 128 mu = mu - 24 -> 2 ^ 23 <= n) /\
    x = pack_float s n (fexp 24 128 mu).

(** [x <= y] as floats, and as rationals when both are numbers. *)
Definition ordered (x y : f32) : Prop :=
  F32.le x y = true /\
  (is_finite x = true -> is_finite y = true -> (exact x <= exact y)%Q).

(** The mantissa and exponent [pack_float] stores. *)
Definition stored (n E : Z) : Z * Z :=
  if n <? 2 ^ 24 then (n, E) else (2 ^ 23, E + 1).

(** A float that is NaN or has the sign bit [s]. *)
Definition signed (s : bool) (x : f32) : Prop :=
  match x with
  | S754_nan => True
  | S754_zero s' | S754_infinity s' | S754_finite s' _ _ => s' = s
  end.

(** NaN, a zero of either sign, or a float with a clear sign bit. *)
Definition not_negative (x : f32) : Prop :=
  match x with
  | S754_zero _ => True
  | _ => signed false x
  end.

(** ** Concrete inputs *)

(** A stand-in for [pow] in closed examples. *)
Definition pow_identity (x _ : f32) : f32 := x.

Definition vec3_of_Z (a b c : Z) : vec3f :=
  mkVec3 (F32.of_Z a) (F32.of_Z b) (F32.of_Z c).

Definition ex_origin : vec3f := vec3_of_Z 0 0 0.
Definition ex_up : vec3f := vec3_of_Z 0 1 0.
Definition ex_forward : vec3f := vec3_of_Z 0 0 1.

(** A unit sphere at the origin, and a ray that starts far away and passes
    the centre at distance 2. *)
Definition ex_unit_sphere : SphereData := mkSphere (vec3_of_Z 0 0 0) F32.one 0.
Definition ex_far_origin : vec3f := vec3_of_Z 2 0 (-100000).

(** A sphere of radius zero on the ray from the origin along [z]. *)
Definition ex_point_sphere : SphereData := mkSphere (vec3_of_Z 0 0 5) F32.zero 0.

(** Two coinciding spheres with different materials. *)
Definition ex_twin_first : SphereData := mkSphere (vec3_of_Z 0 0 5) F32.one 0.
Definition ex_twin_second : SphereData := mkSphere (vec3_of_Z 0 0 5) F32.one 1.

(** A glass ball of index 1.5 and a ray that starts inside it, off-centre,
    and strikes the surface at a grazing angle. *)
Definition ex_glass : MaterialData :=
  mkMaterial (V3.splat F32.one) 2 F32.zero (F32.of_ratio 3 2).
Definition ex_inside_origin : vec3f :=
  mkVec3 (F32.of_ratio 9 10) F32.zero F32.zero.

(** [pow(x, 5.0)] by repeated multiplication. *)
Definition pow_fifth (x _ : f32) : f32 :=
  F32.mul (F32.mul (F32.mul (F32.mul x x) x) x) x.

(** A grey diffuse material. *)
Definition ex_grey : MaterialData :=
  mkMaterial (V3.splat F32.half) 0 F32.zero F32.one.

(** A unit sphere further along [z] than the twins. *)
Definition ex_far_sphere : SphereData := mkSphere (vec3_of_Z 0 0 9) F32.one 2.

(** A ray inside the glass ball that starts at [x = f32(2/3)], just above
    2/3, and goes up: the sine of its angle with the normal at the hit is
    [x], so that [1.5 * sin] is just above 1. *)
Definition ex_critical_origin : vec3f :=
  mkVec3 (F32.of_ratio 2 3) F32.zero F32.zero.

(** What that ray hits. *)
Definition ex_critical_hit : HitRecord :=
  closestHit [ex_unit_sphere] ex_critical_origin ex_up tMin_bounce tMax_bounce.

(** A 2 by 2 renderer looking at an empty scene. *)
Definition ex_camera : CameraData :=
  mkCameraData (vec3_of_Z 0 0 0) (vec3_of_Z (-1) (-1) (-1)) (vec3_of_Z 2 0 0)
               (vec3_of_Z 0 2 0) (vec3_of_Z 1 0 0) (vec3_of_Z 0 1 0)
               (vec3_of_Z 0 0 1) F32.zero.
Definition ex_scene : SceneData := mkScene [] [] ex_camera.
Definition ex_settings : RenderSettings := mkSettings 4 8 2 2.

Definition ex_uniforms : Uniforms := mkUniforms 2 2 0 8 0 0 0.

Definition ex_renderer : Raytracer :=
  mkRaytracer true true (Some (createTexture 2 2)) (Some (createTexture 2 2)) 0 0 2 2.

(** The renderer after one frame. *)
Definition ex_rendered : Raytracer :=
  match render pow_identity 8 ex_renderer ex_scene ex_settings with
  | Returned rt _ => rt
  | _ => ex_renderer
  end.

(** A small scene with a lens: a diffuse ball on a rough metal ground. *)
Definition ex_ball_and_ground : list SphereData :=
  [mkSphere (vec3_of_Z 0 0 (-1)) (F32.of_ratio 1 2) 0;
   mkSphere (mkVec3 F32.zero (F32.of_ratio (-1005) 10) (F32.of_Z (-1))) (F32.of_Z 100) 1].
Definition ex_diffuse_and_metal : list MaterialData :=
  [mkMaterial (V3.splat (F32.of_ratio 1 2)) 0 F32.zero F32.zero;
   mkMaterial (mkVec3 (F32.of_ratio 8 10) (F32.of_ratio 6 10) (F32.of_ratio 2 10)) 1
              (F32.of_ratio 3 10) F32.zero].
Definition ex_lens_camera : CameraData :=
  mkCameraData (vec3_of_Z 0 0 0) (vec3_of_Z (-2) (-1) (-1)) (vec3_of_Z 4 0 0)
               (vec3_of_Z 0 2 0) (vec3_of_Z 1 0 0) (vec3_of_Z 0 1 0)
               (vec3_of_Z 0 0 1) (F32.of_ratio 1 10).
(** 4 by 2 pixels, frame 3, 5 bounces. *)
Definition ex_uniforms_frame3 : Uniforms := mkUniforms 4 2 3 5 2 2 0.

(** What the invocation for pixel (0, 0) computes on an empty accumulation
    cell. *)
Definition ex_pixel_result : PixelResult :=
  match shade_pixel pow_identity 8 ex_uniforms ex_camera [] [] 0 0 vec4_zero with
  | Some res => res
  | None => mkPixelResult V3.zero 0 V3.zero
  end.

(** * Properties *)

(** ** The definitions on a few inputs *)

Example pcg_hash_values :
  map pcg_hash [0; 1; 7; 12345; 4294967295] =
  [129708002; 2831084092; 2120684060; 4099845390; 3861530882].
Proof. reflexivity. Qed.

Example rand_from_0 :
  rand 0 = Some (S754_finite false 16213500 (-29), 129708002).
Proof. vm_compute. reflexivity. Qed.

Example constants_binary32 :
  tMin_bounce = S754_finite false 8589935 (-33) /\
  tMax_bounce = S754_finite false 13234890 76 /\
  F32.one = S754_finite false 8388608 (-23) /\
  F32.of_Z U32.max_value = S754_finite false 8388608 9.
Proof. vm_compute. repeat split; reflexivity. Qed.

Example hitSphere_in_front :
  hitSphere ex_twin_first ex_origin ex_forward tMin_bounce tMax_bounce = F32.of_Z 4 /\
  hitSphere ex_twin_first ex_origin ex_up tMin_bounce tMax_bounce = F32.minus_one.
Proof. vm_compute. split; reflexivity. Qed.

Example sky_straight_up : skyColor ex_up = sky_blue.
Proof. vm_compute. reflexivity. Qed.

(** The colour one invocation accumulates in the scene with the lens, bit
    for bit what a binary32 evaluation of the kernel gives: pixel (0, 0)
    sees the metal ground, pixel (3, 1) the sky. *)
Example shade_pixel_ball_and_ground :
  option_map accumulated
    (shade_pixel pow_identity 40 ex_uniforms_frame3 ex_lens_camera
                 ex_ball_and_ground ex_diffuse_and_metal 0 0 vec4_zero)
  = Some (mkVec3 (S754_finite false 8476616 (-24)) (S754_finite false 15682018 (-25))
                 (S754_finite false 13421773 (-26))) /\
  option_map accumulated
    (shade_pixel pow_identity 40 ex_uniforms_frame3 ex_lens_camera
                 ex_ball_and_ground ex_diffuse_and_metal 3 1 vec4_zero)
  = Some (mkVec3 (S754_finite false 12494260 (-24)) (S754_finite false 14207442 (-24))
                 (S754_finite false 8388608 (-23))).
Proof. split; vm_compute; reflexivity. Qed.

Example disk_sampler_returns :
  exists p s, rand_in_unit_disk 8 (pixel_seed ex_uniforms 0 0) = Some (p, s).
Proof. vm_compute. eexists. eexists. reflexivity. Qed.

(** ** Order of floats *)

Ltac cmp_cases :=
  repeat match goal with
  | |- context [Z.compare ?a ?b] => destruct (Z.compare_spec a b)
  | H : context [Z.compare ?a ?b] |- _ => destruct (Z.compare_spec a b)
  | |- context [Pos.compare_cont Eq ?a ?b] =>
      change (Pos.compare_cont Eq a b) with (Pos.compare a b) in *;
      destruct (Pos.compare_spec a b)
  | H : context [Pos.compare_cont Eq ?a ?b] |- _ =>
      change (Pos.compare_cont Eq a b) with (Pos.compare a b) in *;
      destruct (Pos.compare_spec a b)
  end.

Ltac float_order :=
  intros;
  unfold F32.lt, F32.gt, F32.le, F32.ge, F32.is_nan, SFltb, SFleb, SFeqb in *;
  repeat match goal with
  | x : f32 |- _ => destruct x as [[]|[]| |[] ? ?]
  | x : spec_float |- _ => destruct x as [[]|[]| |[] ? ?]
  end;
  cbn [SFcompare CompOpp] in *; try congruence;
  cmp_cases; cbn [CompOpp] in *; try congruence; try lia.

Lemma lt_irrefl (x : f32) : F32.lt x x = false.
Proof. float_order. Qed.

Lemma lt_le (x y : f32) : F32.lt x y = true -> F32.le x y = true.
Proof. float_order. Qed.

Lemma lt_asym (x y : f32) : F32.lt x y = true -> F32.lt y x = false.
Proof. float_order. Qed.

Lemma le_trans (x y z : f32) :
  F32.le x y = true -> F32.le y z = true -> F32.le x z = true.
Proof. float_order. Qed.

Lemma le_lt_trans (x y z : f32) :
  F32.le x y = true -> F32.lt y z = true -> F32.lt x z = true.
Proof. float_order. Qed.

Lemma lt_le_trans (x y z : f32) :
  F32.lt x y = true -> F32.le y z = true -> F32.lt x z = true.
Proof. float_order. Qed.

Lemma not_gt_le (x y : f32) :
  F32.is_nan x = false -> F32.is_nan y = false ->
  F32.gt x y = false -> F32.le x y = true.
Proof. float_order. Qed.

Lemma lt_not_nan_l (x y : f32) : F32.lt x y = true -> F32.is_nan x = false.
Proof. float_order. Qed.
Lemma lt_not_nan_r (x y : f32) : F32.lt x y = true -> F32.is_nan y = false.
Proof. float_order. Qed.
Lemma le_not_gt (x y : f32) : F32.le x y = true -> F32.gt x y = false.
Proof. float_order. Qed.

(** ** The scan of [closestHit] *)

Section Scan.
Variables (o d : vec3f) (tMin : f32).

Lemma step_miss st s :
  is_hit (hitSphere s o d tMin (closestSoFar st)) = false ->
  closestHit_step o d tMin st s = st.
Proof. unfold closestHit_step, is_hit. intros ->. reflexivity. Qed.

Lemma step_hit st s :
  is_hit (hitSphere s o d tMin (closestSoFar st)) = true ->
  closestHit_step o d tMin st s =
  mkScan (hitSphere s o d tMin (closestSoFar st)) true
         (record_hit s o d (hitSphere s o d tMin (closestSoFar st))).
Proof. unfold closestHit_step, is_hit. intros ->. reflexivity. Qed.

Lemma scan_all_miss spheres tMax st :
  closestSoFar st = tMax ->
  Forall (fun s => is_hit (hitSphere s o d tMin tMax) = false) spheres ->
  fold_left (closestHit_step o d tMin) spheres st = st.
Proof.
  intros Hcs Hall. revert st Hcs.
  induction Hall as [|s l Hs _ IH]; intros st Hcs; simpl.
  - reflexivity.
  - rewrite step_miss by (rewrite Hcs; exact Hs). apply IH, Hcs.
Qed.

Lemma scan_inv_fold l : forall pre st,
  scan_inv o d pre st ->
  scan_inv o d (pre ++ l) (fold_left (closestHit_step o d tMin) l st).
Proof.
  induction l as [|s l IH]; intros pre st Hst; simpl.
  - rewrite app_nil_r. exact Hst.
  - replace (pre ++ s :: l) with ((pre ++ [s]) ++ l) by (rewrite <- app_assoc; reflexivity).
    apply IH. unfold closestHit_step.
    destruct (F32.gt _ _) eqn:Ht.
    + intros _. simpl. split; [exact Ht|]. exists s. split; [|reflexivity].
      apply in_or_app. right. left. reflexivity.
    + intros Hh. destruct (Hst Hh) as [Hpos [s' [Hin Hrec]]].
      split; [exact Hpos|]. exists s'. split; [|exact Hrec].
      apply in_or_app. left. exact Hin.
Qed.

End Scan.

Lemma minus_one_neg : F32.lt F32.minus_one F32.zero = true.
Proof. reflexivity. Qed.

Lemma closestHit_miss spheres o d tMin tMax :
  Forall (fun s => is_hit (hitSphere s o d tMin tMax) = false) spheres ->
  closestHit spheres o d tMin tMax =
  mkHit F32.minus_one V3.zero V3.zero false 0.
Proof.
  intros H. unfold closestHit, closestHit_scan.
  rewrite (scan_all_miss o d tMin spheres tMax) by (auto). reflexivity.
Qed.

Lemma scan_inv_closestHit spheres o d tMin tMax :
  scan_inv o d spheres (closestHit_scan spheres o d tMin tMax).
Proof.
  apply (scan_inv_fold o d tMin spheres [] (mkScan tMax false zero_HitRecord)).
  intros H. discriminate H.
Qed.

Lemma closestHit_reports spheres o d tMin tMax :
  reports_hit (closestHit spheres o d tMin tMax) =
  hitAnything (closestHit_scan spheres o d tMin tMax).
Proof.
  unfold closestHit, reports_hit.
  pose proof (scan_inv_closestHit spheres o d tMin tMax) as Hinv.
  unfold scan_inv in Hinv.
  destruct (hitAnything (closestHit_scan spheres o d tMin tMax)).
  - destruct (Hinv eq_refl) as [Hpos [s [_ Hrec]]].
    rewrite Hrec. simpl. unfold is_hit, F32.gt in Hpos.
    fold (F32.lt F32.zero (closestSoFar (closestHit_scan spheres o d tMin tMax))) in Hpos.
    rewrite (lt_asym _ _ Hpos). reflexivity.
  - simpl. reflexivity.
Qed.

Lemma hitSphere_cases s o d tMin tMax :
  (F32.lt (discriminant s o d) F32.zero = true /\
   hitSphere s o d tMin tMax = F32.minus_one) \/
  (F32.lt (discriminant s o d) F32.zero = false /\
   out_of_range (root_minus s o d) tMin tMax = false /\
   hitSphere s o d tMin tMax = root_minus s o d) \/
  (F32.lt (discriminant s o d) F32.zero = false /\
   out_of_range (root_minus s o d) tMin tMax = true /\
   out_of_range (root_plus s o d) tMin tMax = false /\
   hitSphere s o d tMin tMax = root_plus s o d) \/
  (F32.lt (discriminant s o d) F32.zero = false /\
   out_of_range (root_minus s o d) tMin tMax = true /\
   out_of_range (root_plus s o d) tMin tMax = true /\
   hitSphere s o d tMin tMax = F32.minus_one).
Proof.
  unfold hitSphere.
  destruct (F32.lt (discriminant s o d) F32.zero); [tauto|].
  destruct (out_of_range (root_minus s o d) tMin tMax); [|tauto].
  destruct (out_of_range (root_plus s o d) tMin tMax); tauto.
Qed.

Lemma minus_one_not_hit : F32.gt F32.minus_one F32.zero = false.
Proof. reflexivity. Qed.

Lemma is_hit_not_nan t : is_hit t = true -> F32.is_nan t = false.
Proof. unfold is_hit, F32.gt. intros H. exact (lt_not_nan_r _ _ H). Qed.

Lemma out_of_range_split r tMin tMax :
  out_of_range r tMin tMax = false ->
  F32.lt r tMin = false /\ F32.gt r tMax = false.
Proof. unfold out_of_range. intros H. apply orb_false_elim in H. exact H. Qed.

(** A positive result of [hitSphere] is at most the bound it was tested
    against. *)
Lemma hitSphere_le_bound s o d tMin tMax :
  F32.is_nan tMax = false ->
  is_hit (hitSphere s o d tMin tMax) = true ->
  F32.le (hitSphere s o d tMin tMax) tMax = true.
Proof.
  intros Hn Hh. pose proof (is_hit_not_nan _ Hh) as Hnn.
  destruct (hitSphere_cases s o d tMin tMax) as [[_ E]|[[_ [R E]]|[[_ [_ [R E]]]|[_ [_ [_ E]]]]]].
  - rewrite E in Hh. discriminate Hh.
  - rewrite E in *. apply out_of_range_split in R. apply not_gt_le; tauto.
  - rewrite E in *. apply out_of_range_split in R. apply not_gt_le; tauto.
  - rewrite E in Hh. discriminate Hh.
Qed.

Lemma le_refl_of_hit t : is_hit t = true -> F32.le t t = true.
Proof.
  intros H. pose proof (is_hit_not_nan _ H).
  apply not_gt_le; auto. unfold F32.gt. apply lt_irrefl.
Qed.

Lemma out_of_range_above r tMin tMax :
  out_of_range r tMin tMax = true -> F32.lt r tMin = false -> F32.lt tMax r = true.
Proof.
  unfold out_of_range, F32.gt. intros H1 H2. rewrite H2 in H1. exact H1.
Qed.

(** Testing a sphere against a smaller bound [cs <= tMax]: the closest
    distance afterwards is at most what the sphere gives against [tMax]. *)
Lemma step_below_independent o d tMin tMax st s :
  F32.is_nan (closestSoFar st) = false ->
  F32.le (closestSoFar st) tMax = true ->
  is_hit (hitSphere s o d tMin tMax) = true ->
  F32.le (closestSoFar (closestHit_step o d tMin st s)) (hitSphere s o d tMin tMax) = true.
Proof.
  destruct st as [cs ha rec]. simpl. intros Hn Hle HH.
  assert (Habs : forall r, F32.lt tMax r = true -> F32.gt r cs = false ->
                           F32.lt r tMin = false -> False).
  { intros r H1 H2 H3.
    assert (F32.le r cs = true)
      by (apply not_gt_le; [exact (lt_not_nan_r _ _ H1)|exact Hn|exact H2]).
    assert (F32.lt r r = true)
      by (apply le_lt_trans with tMax; [apply le_trans with cs; assumption|assumption]).
    rewrite lt_irrefl in *. discriminate. }
  destruct (is_hit (hitSphere s o d tMin cs)) eqn:Hh.
  - rewrite step_hit by exact Hh. simpl.
    destruct (hitSphere_cases s o d tMin tMax) as [[_ E]|[[D [R E]]|[[D [R1 [R2 E]]]|[_ [_ [_ E]]]]]];
      try (rewrite E in HH; discriminate HH); rewrite E in *;
    destruct (hitSphere_cases s o d tMin cs) as [[_ E']|[[_ [Q E']]|[[_ [Q1 [Q2 E']]]|[_ [_ [_ E']]]]]];
      try (rewrite E' in Hh; discriminate Hh); rewrite E' in *.
    + apply le_refl_of_hit. exact HH.
    + apply out_of_range_split in R, Q2. destruct R as [Ra Rb], Q2 as [Qa Qb].
      apply le_trans with cs.
      * apply not_gt_le; [exact (is_hit_not_nan _ Hh)|exact Hn|exact Qb].
      * apply lt_le. apply (out_of_range_above _ _ _ Q1 Ra).
    + apply out_of_range_split in R2, Q. destruct R2 as [Ra Rb], Q as [Qa Qb].
      exfalso. apply (Habs (root_minus s o d)); auto.
      apply (out_of_range_above _ _ _ R1 Qa).
    + apply le_refl_of_hit. exact HH.
  - rewrite step_miss by exact Hh. simpl.
    destruct (hitSphere_cases s o d tMin tMax) as [[_ E]|[[D [R E]]|[[D [R1 [R2 E]]]|[_ [_ [_ E]]]]]];
      try (rewrite E in HH; discriminate HH); rewrite E in *;
    destruct (hitSphere_cases s o d tMin cs) as [[D' E']|[[_ [Q E']]|[[_ [Q1 [Q2 E']]]|[_ [Q1 [Q2 E']]]]]];
      try congruence.
    + apply out_of_range_split in R. destruct R as [Ra Rb].
      apply lt_le. apply (out_of_range_above _ _ _ Q1 Ra).
    + apply out_of_range_split in R. destruct R as [Ra Rb].
      apply lt_le. apply (out_of_range_above _ _ _ Q1 Ra).
    + apply out_of_range_split in R2, Q. destruct R2 as [Ra Rb], Q as [Qa Qb].
      exfalso. apply (Habs (root_minus s o d)); auto.
      apply (out_of_range_above _ _ _ R1 Qa).
    + apply out_of_range_split in R2. destruct R2 as [Ra Rb].
      apply lt_le. apply (out_of_range_above _ _ _ Q2 Ra).
Qed.

(** The closest distance never grows, and stays a number. *)
Lemma step_monotone o d tMin st s :
  F32.is_nan (closestSoFar st) = false ->
  F32.is_nan (closestSoFar (closestHit_step o d tMin st s)) = false /\
  F32.le (closestSoFar (closestHit_step o d tMin st s)) (closestSoFar st) = true.
Proof.
  intros Hn.
  destruct (is_hit (hitSphere s o d tMin (closestSoFar st))) eqn:Hh.
  - rewrite step_hit by exact Hh. simpl. split.
    + exact (is_hit_not_nan _ Hh).
    + apply hitSphere_le_bound; assumption.
  - rewrite step_miss by exact Hh. split; [exact Hn|].
    apply not_gt_le; auto. unfold F32.gt. apply lt_irrefl.
Qed.

Lemma fold_monotone o d tMin l : forall st,
  F32.is_nan (closestSoFar st) = false ->
  F32.is_nan (closestSoFar (fold_left (closestHit_step o d tMin) l st)) = false /\
  F32.le (closestSoFar (fold_left (closestHit_step o d tMin) l st)) (closestSoFar st) = true.
Proof.
  induction l as [|s l IH]; intros st Hn; simpl.
  - split; [exact Hn|]. apply not_gt_le; auto. unfold F32.gt. apply lt_irrefl.
  - destruct (step_monotone o d tMin st s Hn) as [Hn' Hle'].
    destruct (IH _ Hn') as [Hn'' Hle'']. split; [exact Hn''|].
    apply le_trans with (closestSoFar (closestHit_step o d tMin st s)); assumption.
Qed.

Lemma fold_nearest o d tMin tMax l : forall st s,
  F32.is_nan (closestSoFar st) = false ->
  F32.le (closestSoFar st) tMax = true ->
  In s l ->
  is_hit (hitSphere s o d tMin tMax) = true ->
  F32.le (closestSoFar (fold_left (closestHit_step o d tMin) l st))
         (hitSphere s o d tMin tMax) = true.
Proof.
  induction l as [|s' l IH]; intros st s Hn Hle Hin HH; simpl.
  - destruct Hin.
  - destruct (step_monotone o d tMin st s' Hn) as [Hn' Hle'].
    destruct Hin as [->|Hin].
    + destruct (fold_monotone o d tMin l _ Hn') as [_ Hm].
      apply le_trans with (closestSoFar (closestHit_step o d tMin st s)); [exact Hm|].
      apply step_below_independent; assumption.
    + apply IH; try assumption.
      apply le_trans with (closestSoFar st); assumption.
Qed.

(** Until something is hit the bound is the initial one. *)
Lemma fold_hitAnything o d tMin tMax l : forall st s,
  (hitAnything st = false -> closestSoFar st = tMax) ->
  In s l ->
  is_hit (hitSphere s o d tMin tMax) = true ->
  hitAnything (fold_left (closestHit_step o d tMin) l st) = true.
Proof.
  assert (Hkeep : forall l st, hitAnything st = true ->
            hitAnything (fold_left (closestHit_step o d tMin) l st) = true).
  { induction l0 as [|s' l0 IH]; intros st Hst; simpl; [exact Hst|].
    apply IH. unfold closestHit_step. destruct (F32.gt _ _); [reflexivity|exact Hst]. }
  induction l as [|s' l IH]; intros st s Hcs Hin HH; simpl.
  - destruct Hin.
  - destruct Hin as [->|Hin].
    + apply Hkeep. destruct (hitAnything st) eqn:Hst.
      * unfold closestHit_step. destruct (F32.gt _ _); [reflexivity|exact Hst].
      * rewrite step_hit; [reflexivity|]. rewrite (Hcs eq_refl). exact HH.
    + apply IH with s; try assumption.
      unfold closestHit_step. destruct (F32.gt _ _); simpl; [discriminate|exact Hcs].
Qed.

Lemma closestHit_t_is_closest spheres o d tMin tMax :
  reports_hit (closestHit spheres o d tMin tMax) = true ->
  hit_t (closestHit spheres o d tMin tMax) =
  closestSoFar (closestHit_scan spheres o d tMin tMax) /\
  closestHit spheres o d tMin tMax = scan_rec (closestHit_scan spheres o d tMin tMax).
Proof.
  rewrite closestHit_reports. intros Hh. unfold closestHit. rewrite Hh.
  destruct (scan_inv_closestHit spheres o d tMin tMax Hh) as [_ [s [_ Hrec]]].
  rewrite Hrec. simpl. split; reflexivity.
Qed.

Lemma nearest spheres o d tMin tMax s :
  F32.is_nan tMax = false ->
  In s spheres ->
  is_hit (hitSphere s o d tMin tMax) = true ->
  reports_hit (closestHit spheres o d tMin tMax) = true /\
  F32.le (hit_t (closestHit spheres o d tMin tMax)) (hitSphere s o d tMin tMax) = true.
Proof.
  intros Hn Hin HH.
  assert (Hr : reports_hit (closestHit spheres o d tMin tMax) = true).
  { rewrite closestHit_reports. unfold closestHit_scan.
    apply fold_hitAnything with (tMax := tMax) (s := s); auto. }
  split; [exact Hr|].
  destruct (closestHit_t_is_closest _ _ _ _ _ Hr) as [-> _].
  unfold closestHit_scan. apply fold_nearest; simpl; auto.
  apply not_gt_le; auto. unfold F32.gt. apply lt_irrefl.
Qed.

Lemma tie_last l s o d tMin tMax :
  F32.is_nan tMax = false ->
  reports_hit (closestHit l o d tMin tMax) = true ->
  hitSphere s o d tMin tMax = hit_t (closestHit l o d tMin tMax) ->
  closestHit (l ++ [s]) o d tMin tMax =
  record_hit s o d (hit_t (closestHit l o d tMin tMax)).
Proof.
  intros Hn Hr HH.
  destruct (closestHit_t_is_closest _ _ _ _ _ Hr) as [Ht _].
  pose proof Hr as Hh. rewrite closestHit_reports in Hh.
  destruct (scan_inv_closestHit l o d tMin tMax Hh) as [Hpos _].
  unfold closestHit_scan in *.
  destruct (fold_monotone o d tMin l (mkScan tMax false zero_HitRecord) Hn) as [Hcn Hcle].
  simpl in Hcle.
  set (t := hit_t (closestHit l o d tMin tMax)) in *.
  set (st := fold_left (closestHit_step o d tMin) l (mkScan tMax false zero_HitRecord)) in *.
  rewrite <- Ht in Hpos, Hcn, Hcle.
  assert (Hsame : hitSphere s o d tMin t = t).
  { destruct (hitSphere_cases s o d tMin tMax) as [[_ E]|[[D [R E]]|[[D [R1 [R2 E]]]|[_ [_ [_ E]]]]]];
      try (rewrite HH in E; rewrite E in Hpos; discriminate Hpos).
    - rewrite HH in E. unfold hitSphere. rewrite D.
      apply out_of_range_split in R. destruct R as [Ra Rb].
      unfold out_of_range. rewrite <- E. rewrite E at 1. rewrite Ra.
      unfold F32.gt. rewrite lt_irrefl. reflexivity.
    - rewrite HH in E. unfold hitSphere. rewrite D.
      apply out_of_range_split in R2. destruct R2 as [Ra Rb].
      assert (R1' : out_of_range (root_minus s o d) tMin t = true).
      { unfold out_of_range in *. apply orb_true_iff in R1. destruct R1 as [R1|R1].
        - rewrite R1. reflexivity.
        - apply orb_true_iff. right. unfold F32.gt in *.
          apply le_lt_trans with tMax; assumption. }
      rewrite R1'. unfold out_of_range. rewrite <- E. rewrite E at 1. rewrite Ra.
      unfold F32.gt. rewrite lt_irrefl. reflexivity. }
  unfold closestHit, closestHit_scan. rewrite fold_left_app. simpl. fold st.
  rewrite step_hit; rewrite <- Ht, Hsame; [reflexivity|exact Hpos].
Qed.

(** ** Negation and the orientation of the normal *)

Lemma same_number_refl x : same_number x x.
Proof. left. reflexivity. Qed.

Lemma binary_round_aux_neg s m e l :
  binary_round_aux F32.prec F32.emax (negb s) m e l =
  SFopp (binary_round_aux F32.prec F32.emax s m e l).
Proof.
  unfold binary_round_aux.
  destruct (shr_fexp F32.prec F32.emax m e l) as [mrs e'].
  destruct (shr_fexp F32.prec F32.emax _ e' loc_Exact) as [mrs' e''].
  destruct (shr_m mrs'); simpl; try reflexivity.
  destruct (Z.leb _ _); reflexivity.
Qed.

Lemma binary_round_neg s m e :
  binary_round F32.prec F32.emax (negb s) m e =
  SFopp (binary_round F32.prec F32.emax s m e).
Proof.
  unfold binary_round.
  destruct (shl_align m e _) as [mz ez]. apply binary_round_aux_neg.
Qed.

Lemma mul_neg_r a b : F32.mul a (F32.neg b) = F32.neg (F32.mul a b).
Proof.
  unfold F32.mul, F32.neg.
  destruct a as [sa|sa| |sa ma ea], b as [sb|sb| |sb mb eb]; simpl;
    try reflexivity; rewrite <- ?negb_xorb_r; try reflexivity.
  apply binary_round_aux_neg.
Qed.

Lemma binary_normalize_neg z e :
  same_number (binary_normalize F32.prec F32.emax (- z) e false)
              (SFopp (binary_normalize F32.prec F32.emax z e false)).
Proof.
  destruct z as [|p|p]; simpl.
  - right. exists false, true. split; reflexivity.
  - left. apply (binary_round_neg false).
  - left. rewrite (binary_round_neg false). 
    destruct (binary_round F32.prec F32.emax false p e) as [[]|[]| |[] ? ?]; reflexivity.
Qed.

Lemma cond_Zopp_negb s m : cond_Zopp (negb s) m = - cond_Zopp s m.
Proof. destruct s; simpl; lia. Qed.

Lemma add_neg_neg a b :
  same_number (F32.add (F32.neg a) (F32.neg b)) (F32.neg (F32.add a b)).
Proof.
  unfold F32.add, F32.neg.
  destruct a as [sa|sa| |sa ma ea], b as [sb|sb| |sb mb eb];
    try (destruct sa, sb; simpl; (left; reflexivity) ||
         (right; eexists; eexists; split; reflexivity));
    try (destruct sa; simpl; left; reflexivity);
    try (destruct sb; simpl; left; reflexivity);
    try (simpl; left; reflexivity).
  cbn [SFadd SFopp]. rewrite !cond_Zopp_negb, <- Z.opp_add_distr.
  apply binary_normalize_neg.
Qed.

Lemma add_same_number_l x x' y :
  same_number x x' -> same_number (F32.add x y) (F32.add x' y).
Proof.
  intros [->|[s1 [s2 [-> ->]]]]; [apply same_number_refl|].
  unfold F32.add.
  destruct y as [sy|sy| |sy my ey]; simpl; try (left; reflexivity).
  destruct s1, s2, sy; simpl; (left; reflexivity) ||
    (right; eexists; eexists; split; reflexivity).
Qed.

Lemma dot_neg_r d n :
  same_number (V3.dot d (V3.neg n)) (F32.neg (V3.dot d n)).
Proof.
  unfold V3.dot, V3.neg. simpl. rewrite !mul_neg_r.
  destruct (add_neg_neg (F32.mul (vx d) (vx n)) (F32.mul (vy d) (vy n)))
    as [E|[s1 [s2 [E1 E2]]]].
  - rewrite E. apply add_neg_neg.
  - pose proof (add_same_number_l _ (F32.neg (F32.add (F32.mul (vx d) (vx n)) (F32.mul (vy d) (vy n))))
                  (F32.neg (F32.mul (vz d) (vz n)))
                  (or_intror (ex_intro _ s1 (ex_intro _ s2 (conj E1 E2))))) as H1.
    pose proof (add_neg_neg (F32.add (F32.mul (vx d) (vx n)) (F32.mul (vy d) (vy n)))
                            (F32.mul (vz d) (vz n))) as H2.
    destruct H1 as [->|[a1 [a2 [-> A2]]]]; [exact H2|].
    destruct H2 as [H2|[b1 [b2 [B1 B2]]]].
    + right. exists a1. rewrite <- H2, A2. exists a2. split; reflexivity.
    + right. exists a1, b2. split; [reflexivity|exact B2].
Qed.

Lemma gt_zero_same_number x y :
  same_number x y -> F32.gt x F32.zero = F32.gt y F32.zero.
Proof. intros [->|[s1 [s2 [-> ->]]]]; reflexivity. Qed.

Lemma le_zero_same_number x y :
  same_number x y -> F32.le x F32.zero = F32.le y F32.zero.
Proof. intros [->|[s1 [s2 [-> ->]]]]; reflexivity. Qed.

Lemma gt_zero_neg x : F32.gt (F32.neg x) F32.zero = F32.lt x F32.zero.
Proof. destruct x as [[]|[]| |[] ? ?]; reflexivity. Qed.

Lemma le_zero_neg x :
  F32.is_nan x = false -> F32.lt x F32.zero = false ->
  F32.le (F32.neg x) F32.zero = true.
Proof. destruct x as [[]|[]| |[] ? ?]; simpl; intros; try reflexivity; discriminate. Qed.

Lemma record_hit_orientation s o d t :
  let n := outward_normal s o d t in
  let rec := record_hit s o d t in
  hit_frontFace rec = F32.lt (V3.dot d n) F32.zero /\
  hit_normal rec = (if hit_frontFace rec then n else V3.neg n) /\
  F32.gt (V3.dot d (hit_normal rec)) F32.zero = false /\
  (F32.is_nan (V3.dot d n) = false ->
   F32.le (V3.dot d (hit_normal rec)) F32.zero = true).
Proof.
  intros n rec. unfold rec, record_hit. simpl. fold (outward_normal s o d t). fold n.
  split; [reflexivity|]. split; [reflexivity|].
  destruct (F32.lt (V3.dot d n) F32.zero) eqn:F; simpl.
  - split; [exact (lt_asym _ _ F)|]. intros _. apply lt_le. exact F.
  - rewrite (gt_zero_same_number _ _ (dot_neg_r d n)), gt_zero_neg.
    split; [exact F|]. intros Hn.
    rewrite (le_zero_same_number _ _ (dot_neg_r d n)). apply le_zero_neg; assumption.
Qed.

(** ** Conversion of a [u32] and the range of [rand] *)

Lemma digits2_pos_size p : digits2_pos p = Pos.size p.
Proof. induction p; simpl; congruence. Qed.

Lemma digits2_pos_bounds p :
  2 ^ (Zpos (digits2_pos p) - 1) <= Zpos p < 2 ^ Zpos (digits2_pos p).
Proof.
  rewrite digits2_pos_size. split.
  - pose proof (Pos.size_le p) as H.
    assert (Zpos (2 ^ Pos.size p) <= Zpos p~0) by exact H.
    rewrite Pos2Z.inj_pow in H0.
    replace (Zpos (Pos.size p)) with ((Zpos (Pos.size p) - 1) + 1) in H0 by lia.
    rewrite Z.pow_add_r in H0 by lia. lia.
  - pose proof (Pos.size_gt p) as H.
    assert (Zpos p < Zpos (2 ^ Pos.size p)) by exact H.
    rewrite Pos2Z.inj_pow in H0. exact H0.
Qed.

Lemma digits2_pos_unique p d :
  2 ^ (Zpos d - 1) <= Zpos p < 2 ^ Zpos d -> digits2_pos p = d.
Proof.
  intros [H1 H2]. pose proof (digits2_pos_bounds p) as [H3 H4].
  destruct (Z.lt_trichotomy (Zpos (digits2_pos p)) (Zpos d)) as [L|[E|G]].
  - exfalso. assert (2 ^ Zpos (digits2_pos p) <= 2 ^ (Zpos d - 1))
      by (apply Z.pow_le_mono_r; lia). lia.
  - congruence.
  - exfalso. assert (2 ^ Zpos d <= 2 ^ (Zpos (digits2_pos p) - 1))
      by (apply Z.pow_le_mono_r; lia). lia.
Qed.

Lemma shr_1_m mrs :
  0 <= shr_m mrs -> shr_m (shr_1 mrs) = shr_m mrs / 2.
Proof.
  destruct mrs as [m r s]. simpl. intros H.
  destruct m as [|[p|p|]|p]; simpl; try lia; try reflexivity.
  - rewrite Pos2Z.inj_xI. apply Z.div_unique with 1; lia.
  - rewrite Pos2Z.inj_xO. apply Z.div_unique with 0; lia.
Qed.

Lemma shr_1_nonneg mrs : 0 <= shr_m mrs -> 0 <= shr_m (shr_1 mrs).
Proof. intros H. rewrite shr_1_m by exact H. apply Z.div_pos; lia. Qed.

Lemma iter_pos_eq {A} (f : A -> A) p : forall x, iter_pos f p x = Pos.iter f x p.
Proof.
  induction p as [p IH|p IH|]; intros x; simpl.
  - rewrite !IH, <- !Pos.iter_swap. reflexivity.
  - rewrite !IH. reflexivity.
  - reflexivity.
Qed.

Lemma shr_m_iter k : forall mrs,
  0 <= shr_m mrs ->
  shr_m (iter_pos shr_1 k mrs) = shr_m mrs / 2 ^ Zpos k.
Proof.
  intros mrs H. rewrite iter_pos_eq.
  induction k as [|k IH] using Pos.peano_ind.
  - simpl. rewrite shr_1_m by exact H. reflexivity.
  - rewrite Pos.iter_succ, shr_1_m.
    + rewrite IH, Pos2Z.inj_succ, Z.pow_succ_r by lia.
      rewrite Z.div_div by lia. f_equal. lia.
    + rewrite IH. apply Z.div_pos; lia.
Qed.

Lemma digits2_pos_iter_xO p k :
  digits2_pos (Pos.iter xO p k) = (digits2_pos p + k)%positive.
Proof.
  induction k as [|k IH] using Pos.peano_ind.
  - simpl. lia.
  - rewrite Pos.iter_succ. simpl. rewrite IH. lia.
Qed.

(** A mantissa of 24 digits with an exponent in range is not changed by
    rounding. *)
Lemma binary_round_aux_canonical s m e :
  digits2_pos m = 24%positive -> -149 <= e <= 104 ->
  binary_round_aux 24 128 s (Zpos m) e loc_Exact = S754_finite s m e.
Proof.
  intros Hd He. unfold binary_round_aux, shr_fexp.
  cbn [Zdigits2 shr_record_of_loc]. rewrite Hd.
  replace (fexp 24 128 (Zpos 24 + e) - e) with 0 by (unfold fexp, emin; lia).
  cbn [shr shr_m loc_of_shr_record round_nearest_even Zdigits2 shr_record_of_loc].
  rewrite Hd.
  replace (fexp 24 128 (Zpos 24 + e) - e) with 0 by (unfold fexp, emin; lia).
  cbn [shr shr_m].
  replace (e <=? 128 - 24) with true by (symmetry; apply Z.leb_le; lia).
  reflexivity.
Qed.

Lemma round_nearest_even_bounds m l :
  m <= round_nearest_even m l <= m + 1.
Proof.
  unfold round_nearest_even. destruct l as [|[]]; try lia.
  destruct (Z.even m); lia.
Qed.

Lemma of_Z_u32 p :
  Zpos p < 2 ^ 32 -> canonical_u32_float (F32.of_Z (Zpos p)).
Proof.
  intros Hp. pose proof (digits2_pos_bounds p) as [Hlo Hhi].
  set (d := digits2_pos p) in *.
  assert (Hd32 : Zpos d <= 32).
  { destruct (Z_le_gt_dec (Zpos d) 32) as [L|G]; [exact L|exfalso].
    assert (2 ^ 32 <= 2 ^ (Zpos d - 1)) by (apply Z.pow_le_mono_r; lia). lia. }
  unfold F32.of_Z, binary_normalize, binary_round. fold d.
  unfold F32.prec, F32.emax.
  replace (fexp 24 128 (Zpos d + 0)) with (Zpos d - 24) by (unfold fexp, emin; lia).
  unfold shl_align. rewrite Z.sub_0_r.
  destruct (Zpos d - 24) as [|k|k] eqn:Hk.
  - (* exactly 24 digits *)
    rewrite binary_round_aux_canonical; [|fold d; lia|lia].
    exists p, 0. split; [reflexivity|]. split; [fold d; lia|lia].
  - (* more than 24 digits: the low k bits are rounded away *)
    unfold binary_round_aux, shr_fexp. cbn [Zdigits2 shr_record_of_loc]. fold d.
    replace (fexp 24 128 (Zpos d + 0) - 0) with (Zpos k) by (unfold fexp, emin; lia).
    cbn [shr].
    set (mrs := iter_pos shr_1 k {| shr_m := Zpos p; shr_r := false; shr_s := false |}).
    assert (Hm : shr_m mrs = Zpos p / 2 ^ Zpos k)
      by (unfold mrs; rewrite shr_m_iter; simpl; [reflexivity|lia]).
    assert (Hpk : 2 ^ (Zpos d - 1) = 2 ^ 23 * 2 ^ Zpos k)
      by (rewrite <- Z.pow_add_r by lia; f_equal; lia).
    assert (Hpk' : 2 ^ Zpos d = 2 ^ 24 * 2 ^ Zpos k)
      by (rewrite <- Z.pow_add_r by lia; f_equal; lia).
    assert (H2k : 0 < 2 ^ Zpos k) by (apply Z.pow_pos_nonneg; lia).
    assert (Hmb : 2 ^ 23 <= shr_m mrs < 2 ^ 24).
    { rewrite Hm. split.
      - apply Z.div_le_lower_bound; lia.
      - apply Z.div_lt_upper_bound; lia. }
    pose proof (round_nearest_even_bounds (shr_m mrs) (loc_of_shr_record mrs)) as Hr.
    set (m2 := round_nearest_even (shr_m mrs) (loc_of_shr_record mrs)) in *.
    destruct (Z.eq_dec m2 (2 ^ 24)) as [E|NE].
    + rewrite E. change (2 ^ 24) with 16777216.
      cbn [Zdigits2 digits2_pos Pos.succ shr_record_of_loc].
      replace (fexp 24 128 (Zpos 25 + (0 + Zpos k)) - (0 + Zpos k)) with 1
        by (unfold fexp, emin; lia).
      cbn [shr iter_pos shr_1 shr_m].
      replace (0 + Zpos k + 1 <=? 128 - 24) with true by (symmetry; apply Z.leb_le; lia).
      exists 8388608%positive, (0 + Zpos k + 1). split; [reflexivity|].
      split; [reflexivity|]. lia.
    + destruct m2 as [|q|q] eqn:Hq; try lia.
      assert (Hdq : digits2_pos q = 24%positive)
        by (apply digits2_pos_unique; change (2 ^ (Zpos 24 - 1)) with (2 ^ 23); lia).
      cbn [Zdigits2 shr_record_of_loc]. rewrite Hdq.
      replace (fexp 24 128 (Zpos 24 + (0 + Zpos k)) - (0 + Zpos k)) with 0
        by (unfold fexp, emin; lia).
      cbn [shr shr_m].
      replace (0 + Zpos k <=? 128 - 24) with true by (symmetry; apply Z.leb_le; lia).
      exists q, (0 + Zpos k). split; [reflexivity|]. split; [exact Hdq|lia].
  - (* fewer than 24 digits: the mantissa is shifted left *)
    assert (Hdq : digits2_pos (Pos.iter xO p k) = 24%positive)
      by (rewrite digits2_pos_iter_xO; fold d; lia).
    rewrite binary_round_aux_canonical; [|exact Hdq|lia].
    exists (Pos.iter xO p k), (Zneg k). split; [reflexivity|]. split; [exact Hdq|lia].
Qed.

Lemma of_Z_max : F32.of_Z U32.max_value = S754_finite false 8388608 9.
Proof. reflexivity. Qed.

Lemma SFdiv_core_by_max m e :
  digits2_pos m = 24%positive -> -23 <= e <= 9 ->
  SFdiv_core_binary 24 128 (Zpos m) e 8388608 9 = (Zpos m~0, e - 33, loc_Exact).
Proof.
  intros Hd He. unfold SFdiv_core_binary, Zdigits2. rewrite Hd.
  change (Zpos (digits2_pos 8388608)) with 24. cbv zeta.
  replace (Z.min (fexp 24 128 (24 + e - (24 + 9))) (e - 9)) with (e - 33)
    by (unfold fexp, emin; lia).
  replace (e - 9 - (e - 33)) with 24 by lia.
  cbv iota.
  assert (Hs : Z.shiftl (Zpos m) 24 = 2 * Zpos m * 8388608)
    by (rewrite Z.shiftl_mul_pow2 by lia; change (2 ^ 24) with 16777216; lia).
  rewrite Hs.
  pose proof (Z.div_eucl_eq (2 * Zpos m * 8388608) 8388608 ltac:(lia)) as Heq.
  pose proof (Z.mod_pos_bound (2 * Zpos m * 8388608) 8388608 ltac:(lia)) as Hb.
  unfold Z.modulo in Hb.
  destruct (Z.div_eucl (2 * Zpos m * 8388608) 8388608) as [q r].
  assert (Hq : q = Zpos m~0) by lia.
  assert (Hr : r = 0) by lia.
  subst q r. reflexivity.
Qed.

Lemma div_by_max m e :
  digits2_pos m = 24%positive -> -23 <= e <= 9 ->
  F32.div (S754_finite false m e) (S754_finite false 8388608 9) =
  S754_finite false m (e - 32).
Proof.
  intros Hd He. unfold F32.div, SFdiv, F32.prec, F32.emax.
  rewrite SFdiv_core_by_max by assumption.
  unfold binary_round_aux, shr_fexp, Zdigits2.
  change (digits2_pos m~0) with (Pos.succ (digits2_pos m)). rewrite Hd.
  change (Zpos (Pos.succ 24)) with 25.
  replace (fexp 24 128 (25 + (e - 33)) - (e - 33)) with 1 by (unfold fexp, emin; lia).
  cbn [shr iter_pos shr_1 shr_m loc_of_shr_record shr_r shr_s orb round_nearest_even
       shr_record_of_loc xorb].
  rewrite Hd.
  replace (fexp 24 128 (Zpos 24 + (e - 33 + 1)) - (e - 33 + 1)) with 0
    by (unfold fexp, emin; lia).
  cbn [shr shr_m].
  replace (e - 33 + 1 <=? 128 - 24) with true by (symmetry; apply Z.leb_le; lia).
  f_equal. lia.
Qed.

Lemma lxor_u32 a b :
  0 <= a < 2 ^ 32 -> 0 <= b < 2 ^ 32 -> 0 <= Z.lxor a b < 2 ^ 32.
Proof.
  intros Ha Hb. split; [apply Z.lxor_nonneg; lia|].
  destruct (Z.eq_dec (Z.lxor a b) 0) as [->|NZ]; [lia|].
  assert (0 < Z.lxor a b) by (pose proof (proj2 (Z.lxor_nonneg a b)); lia).
  apply Z.log2_lt_pow2; [lia|].
  eapply Z.le_lt_trans; [apply Z.log2_lxor; lia|].
  apply Z.max_lub_lt.
  - destruct (Z.eq_dec a 0) as [->|]; [simpl; lia|]. apply Z.log2_lt_pow2; lia.
  - destruct (Z.eq_dec b 0) as [->|]; [simpl; lia|]. apply Z.log2_lt_pow2; lia.
Qed.

Lemma pcg_hash_range input : 0 <= pcg_hash input < 2 ^ 32.
Proof.
  unfold pcg_hash, U32.xor.
  set (word := U32.mul _ 277803737).
  assert (Hw : 0 <= word < 2 ^ 32) by (apply Z.mod_pos_bound; reflexivity).
  apply lxor_u32; [|exact Hw].
  unfold U32.shr. split.
  - apply Z.shiftr_nonneg. lia.
  - rewrite Z.shiftr_div_pow2 by lia.
    apply Z.div_lt_upper_bound; [reflexivity|]. change (2 ^ 22) with 4194304. lia.
Qed.

Lemma unit_interval_u32 n :
  0 <= n < 2 ^ 32 ->
  let v := F32.div (F32.of_Z n) (F32.of_Z U32.max_value) in
  F32.le F32.zero v = true /\ F32.le v F32.one = true.
Proof.
  intros Hn v. unfold v. rewrite of_Z_max.
  destruct n as [|p|p]; try lia.
  - split; reflexivity.
  - destruct (of_Z_u32 p ltac:(lia)) as [m [e [-> [Hd He]]]].
    rewrite div_by_max by (assumption || lia).
    split; [reflexivity|].
    unfold F32.le, SFleb, F32.one. change (F32.of_Z 1) with (S754_finite false 8388608 (-23)).
    cbn [SFcompare].
    destruct He as [He|[-> ->]].
    + replace (e - 32 ?= -23) with Lt by (symmetry; apply Z.compare_lt_iff; lia).
      reflexivity.
    + reflexivity.
Qed.

(** ** Textures *)

Lemma textureStore_width tex x y v : tex_width (textureStore tex x y v) = tex_width tex.
Proof. unfold textureStore. destruct (in_bounds tex x y); reflexivity. Qed.

Lemma textureStore_height tex x y v : tex_height (textureStore tex x y v) = tex_height tex.
Proof. unfold textureStore. destruct (in_bounds tex x y); reflexivity. Qed.

Lemma textureStore_in_bounds tex x y v x' y' :
  in_bounds (textureStore tex x y v) x' y' = in_bounds tex x' y'.
Proof. unfold in_bounds. rewrite textureStore_width, textureStore_height. reflexivity. Qed.




(** ** Invocation ids *)










(** ** One invocation and a whole dispatch *)

Section Dispatch.

Variable pow : f32 -> f32 -> f32.
Variable fuel : nat.
Variable uniforms : Uniforms.
Variable camera : CameraData.
Variable spheres : list SphereData.
Variable materials : list MaterialData.

Local Notation "'shade'" := (shade_pixel pow fuel uniforms camera spheres materials).
Local Notation "'kernel'" := (main pow fuel uniforms camera spheres materials).
Local Notation "'run'" := (run_invocations pow fuel uniforms camera spheres materials).

(** What an invocation computes for its pixel: one lens sample, one colour,
    added once; the divisor is the uniform sample count plus one. *)
Lemma shade_pixel_spec px py prev res :
  shade px py prev = Some res ->
  exists p s1 color s2,
    rand_in_unit_disk fuel (pixel_seed uniforms px py) = Some (p, s1) /\
    sample_color pow fuel uniforms camera spheres materials px py
                 (lens_offset camera p) s1 = Some (color, s2) /\
    accumulated res = V3.add (rgb prev) color /\
    divisor res = U32.add (u_sampleCount uniforms) 1 /\
    displayed res =
    gamma_correct pow (V3.div (accumulated res) (F32.of_Z (divisor res))).
Proof.
  unfold shade_pixel, bind. intros H.
  destruct (rand_in_unit_disk fuel (pixel_seed uniforms px py)) as [[p s1]|] eqn:Ed;
    [|discriminate H].
  cbn [sample_loop] in H. unfold bind in H.
  destruct (sample_color pow fuel uniforms camera spheres materials px py
              (lens_offset camera p) s1) as [[color s2]|] eqn:Es; [|discriminate H].
  cbn [ret] in H. inversion H; subst; clear H. cbn [accumulated divisor displayed].
  exists p, s1, color, s2. split; [reflexivity|]. split; [exact Es|].
  repeat split; reflexivity.
Qed.


Lemma main_bounds gx gy tg tg' x y :
  kernel gx gy tg = Some tg' ->
  in_bounds (accumulationTex tg') x y = in_bounds (accumulationTex tg) x y /\
  in_bounds (outputTex tg') x y = in_bounds (outputTex tg) x y.
Proof.
  unfold main. intros H.
  destruct (_ || _); [inversion H; subst; auto|].
  destruct (shade _ _ _) as [res|]; [|discriminate H].
  inversion H; subst; clear H. cbn [accumulationTex outputTex].
  rewrite !textureStore_in_bounds. auto.
Qed.



Lemma run_bounds ids : forall tg tg' x y,
  run ids tg = Some tg' ->
  in_bounds (accumulationTex tg') x y = in_bounds (accumulationTex tg) x y /\
  in_bounds (outputTex tg') x y = in_bounds (outputTex tg) x y.
Proof.
  induction ids as [|[gx gy] ids IH]; intros tg tg' x y H; simpl in H.
  - inversion H; subst. auto.
  - destruct (kernel gx gy tg) as [tg1|] eqn:E; [|discriminate H].
    destruct (main_bounds _ _ _ _ x y E) as [A B].
    destruct (IH tg1 tg' x y H) as [A' B']. rewrite A', B'. auto.
Qed.


End Dispatch.

(** ** Termination relative to the rejection samplers

    The only unbounded loops of the kernel are the two rejection samplers:
    with a fuel for which both return from every state, every invocation
    and so every dispatch and every call of [render] on an initialised
    renderer returns. *)

Section Total.

Variable pow : f32 -> f32 -> f32.
Variable fuel : nat.

Hypothesis Hsamplers : samplers_return fuel.

Lemma bounce_returns spheres materials o d thr s :
  bounce pow fuel spheres materials o d thr s <> None.
Proof.
  unfold bounce.
  destruct (F32.lt _ F32.zero); [discriminate|].
  destruct (materialType _ =? 0).
  - unfold bind, rand_unit_vector, bind.
    destruct (rand_in_unit_sphere fuel s) as [[p s1]|] eqn:E;
      [discriminate|destruct (proj1 (Hsamplers s) E)].
  - destruct (materialType _ =? 1).
    + unfold bind.
      destruct (rand_in_unit_sphere fuel s) as [[p s1]|] eqn:E;
        [|destruct (proj1 (Hsamplers s) E)].
      destruct (F32.le _ F32.zero); discriminate.
    + destruct (materialType _ =? 2); [|discriminate].
      unfold bind, dielectric_direction.
      destruct (cannotRefract _ _ _); [discriminate|].
      unfold bind, rand. destruct (F32.gt _ _); discriminate.
Qed.

Lemma rayColor_loop_returns spheres materials n : forall o d thr s,
  rayColor_loop pow fuel spheres materials n o d thr s <> None.
Proof.
  induction n as [|n IH]; intros o d thr s; simpl; [discriminate|].
  unfold bind.
  destruct (bounce pow fuel spheres materials o d thr s) as [[[c|o' d' thr'] s1]|] eqn:E.
  - discriminate.
  - apply IH.
  - destruct (bounce_returns _ _ _ _ _ _ E).
Qed.

Lemma shade_pixel_returns uniforms camera spheres materials px py prev :
  shade_pixel pow fuel uniforms camera spheres materials px py prev <> None.
Proof.
  unfold shade_pixel, bind.
  destruct (rand_in_unit_disk fuel _) as [[p s1]|] eqn:E;
    [|destruct (proj2 (Hsamplers _) E)].
  cbn [sample_loop]. unfold bind, sample_color, bind, rand, rayColor.
  destruct (rayColor_loop pow fuel spheres materials _ _ _ _ _) as [[c s2]|] eqn:Er.
  - discriminate.
  - destruct (rayColor_loop_returns _ _ _ _ _ _ _ Er).
Qed.

Lemma run_invocations_returns uniforms camera spheres materials ids : forall tg,
  run_invocations pow fuel uniforms camera spheres materials ids tg <> None.
Proof.
  induction ids as [|[gx gy] ids IH]; intros tg; simpl; [discriminate|].
  unfold main. destruct (_ || _); [apply IH|].
  destruct (shade_pixel pow fuel uniforms camera spheres materials _ _ _) as [res|] eqn:E.
  - apply IH.
  - destruct (shade_pixel_returns _ _ _ _ _ _ _ E).
Qed.

Lemma render_returns rt scene settings out acc :
  pipeline rt = true -> bindGroup rt = true ->
  outputTexture rt = Some out -> accumulationTexture rt = Some acc ->
  exists rt', render pow fuel rt scene settings =
              Returned rt' (sampleCount rt + samplesPerFrame settings).
Proof.
  intros Hp Hb Ho Ha. unfold render. rewrite Hp, Hb, Ho, Ha. cbn [andb negb].
  unfold dispatchWorkgroups.
  destruct (run_invocations _ _ _ _ _ _ _ _) as [tg|] eqn:E.
  - eexists. reflexivity.
  - exfalso. exact (run_invocations_returns _ _ _ _ _ _ E).
Qed.

End Total.

(** ** Exact values

  What the kernel computes when no operation rounds, and how the rounded
  comparison [x * y > 1.0] reads on the exact values. *)

(** In exact arithmetic the half-b discriminant is negative exactly when
    the closest approach distance exceeds the radius. *)
Lemma exact_discriminant_negative sphere rayOrigin rayDir :
  (0 < qdot (exact_vec rayDir) (exact_vec rayDir))%Q ->
  (exact_discriminant sphere rayOrigin rayDir < 0)%Q <->
  passes_outside sphere rayOrigin rayDir.
Proof.
  unfold passes_outside, closest_approach_sq, exact_discriminant.
  set (a := qdot (exact_vec rayDir) (exact_vec rayDir)).
  set (halfB := qdot _ (exact_vec rayDir)).
  set (oc_oc := qdot (qsub _ _) (qsub _ _)).
  set (r := exact (radius sphere)).
  intros Ha.
  assert (Hne : ~ (a == 0)%Q) by (intros E; rewrite E in Ha; apply (Qlt_irrefl 0), Ha).
  assert (E : (halfB * halfB == a * (halfB * halfB / a))%Q) by (field; exact Hne).
  set (q := (halfB * halfB / a)%Q) in *.
  split; intros H.
  - apply (Qmult_lt_l _ _ a Ha). rewrite E in H. nra.
  - assert (H' : (a * (r * r) < a * (oc_oc - q))%Q) by (apply Qmult_lt_l; assumption).
    rewrite E. nra.
Qed.

Lemma exact_neg x : (exact (F32.neg x) == - exact x)%Q.
Proof.
  destruct x as [s|s| |s m e]; simpl; try reflexivity.
  destruct s; simpl; ring.
Qed.

Lemma exact_dot_value a b :
  exact_dot a b ->
  is_finite (V3.dot a b) = true /\
  (exact (V3.dot a b) ==
   exact (vx a) * exact (vx b) + exact (vy a) * exact (vy b) + exact (vz a) * exact (vz b))%Q.
Proof.
  intros [[_ H1] [[_ H2] [[_ H3] [[_ H4] [F5 H5]]]]]. unfold V3.dot.
  split; [exact F5|]. rewrite H5, H4, H1, H2, H3. reflexivity.
Qed.

Lemma exact_discriminant_value sphere o d :
  discriminant_exact sphere o d ->
  is_finite (discriminant sphere o d) = true /\
  (exact (discriminant sphere o d) == exact_discriminant sphere o d)%Q.
Proof.
  unfold discriminant_exact. cbv zeta.
  intros [[[_ S1] [[_ S2] [_ S3]]] [Ddd [Docd [Dococ [[_ Hrr] [[_ Hc] [[_ Hhh] [[_ Hac] [Fd Hd]]]]]]]]].
  destruct (exact_dot_value _ _ Ddd) as [_ Edd].
  destruct (exact_dot_value _ _ Docd) as [_ Eocd].
  destruct (exact_dot_value _ _ Dococ) as [_ Eococ].
  unfold discriminant. split; [exact Fd|].
  rewrite Hd, Hhh, Hac, Hc, Hrr, Eocd, Edd, Eococ.
  cbn [V3.sub vx vy vz]. rewrite S1, S2, S3.
  unfold exact_discriminant, exact_vec, qsub, qdot. ring.
Qed.

Lemma Qpower2_pos e : (0 < Qpower 2 e)%Q.
Proof. apply Qpower_0_lt. reflexivity. Qed.

(** For a number, [x < 0.0] is the sign of its exact value. *)
Lemma lt_zero_exact x :
  is_finite x = true -> (F32.lt x F32.zero = true <-> (exact x < 0)%Q).
Proof.
  destruct x as [s|s| |s m e]; simpl; try discriminate; intros _.
  - destruct s; split; intros H; try discriminate H; exfalso; revert H; apply Qlt_irrefl.
  - pose proof (Qpower2_pos e) as Hp.
    assert (Hm : (0 < inject_Z (Zpos m))%Q) by reflexivity.
    assert (Hmp : (0 < inject_Z (Zpos m) * Qpower 2 e)%Q)
      by (apply Qmult_lt_0_compat; assumption).
    destruct s; cbn; split; intros H; try reflexivity; try discriminate H.
    + lra.
    + exfalso. lra.
Qed.

Lemma exact_roots_value sphere o d :
  roots_exact sphere o d ->
  let a := qdot (exact_vec d) (exact_vec d) in
  let halfB := qdot (qsub (exact_vec o) (exact_vec (center sphere))) (exact_vec d) in
  let s := exact (F32.sqrt (discriminant sphere o d)) in
  (s * s == exact_discriminant sphere o d)%Q /\ (0 <= s)%Q /\
  (exact (root_minus sphere o d) == (- halfB - s) / a)%Q /\
  (exact (root_plus sphere o d) == (- halfB + s) / a)%Q.
Proof.
  unfold roots_exact. cbv zeta.
  intros [Hdisc [_ [Hs2 [Hs0 [[_ Hm] [[_ Hdm] [[_ Hp] [_ Hdp]]]]]]]].
  destruct (exact_discriminant_value _ _ _ Hdisc) as [_ Ed].
  pose proof Hdisc as Hdisc'. unfold discriminant_exact in Hdisc'. cbv zeta in Hdisc'.
  destruct Hdisc' as [[[_ S1] [[_ S2] [_ S3]]] [Ddd [Docd _]]].
  destruct (exact_dot_value _ _ Ddd) as [_ Edd].
  destruct (exact_dot_value _ _ Docd) as [_ Eocd].
  cbn [V3.sub vx vy vz] in Eocd. rewrite S1, S2, S3 in Eocd.
  split; [rewrite Hs2; exact Ed|]. split; [exact Hs0|].
  unfold root_minus, root_plus.
  rewrite Hdm, Hm, Hdp, Hp, exact_neg, Edd, Eocd.
  unfold exact_vec, qsub, qdot. split; reflexivity.
Qed.

(** The quadratic [a t^2 + 2 halfB t + c] is the residual of the sphere
    equation at [t]. *)
Lemma sphere_residual_quadratic sphere o d t :
  let a := qdot (exact_vec d) (exact_vec d) in
  let oc := qsub (exact_vec o) (exact_vec (center sphere)) in
  let halfB := qdot oc (exact_vec d) in
  let c := (qdot oc oc - exact (radius sphere) * exact (radius sphere))%Q in
  (sphere_residual sphere o d t == a * t * t + 2 * halfB * t + c)%Q.
Proof. unfold sphere_residual, exact_vec, qsub, qdot. cbv zeta. ring. Qed.

Lemma exact_roots_solve sphere o d :
  roots_exact sphere o d ->
  (0 < qdot (exact_vec d) (exact_vec d))%Q ->
  (sphere_residual sphere o d (exact (root_minus sphere o d)) == 0)%Q /\
  (sphere_residual sphere o d (exact (root_plus sphere o d)) == 0)%Q /\
  (exact (root_minus sphere o d) <= exact (root_plus sphere o d))%Q.
Proof.
  intros Hr Ha. destruct (exact_roots_value _ _ _ Hr) as [Hs2 [Hs0 [Em Ep]]].
  cbv zeta in *.
  set (a := qdot (exact_vec d) (exact_vec d)) in *.
  set (oc := qsub (exact_vec o) (exact_vec (center sphere))) in *.
  set (halfB := qdot oc (exact_vec d)) in *.
  set (s := exact (F32.sqrt (discriminant sphere o d))) in *.
  assert (Hne : ~ (a == 0)%Q) by (intros E; rewrite E in Ha; apply (Qlt_irrefl 0), Ha).
  assert (Hd : (s * s == halfB * halfB -
                 a * (qdot oc oc - exact (radius sphere) * exact (radius sphere)))%Q).
  { rewrite Hs2. unfold exact_discriminant. fold oc. fold a. fold halfB. reflexivity. }
  set (c := (qdot oc oc - exact (radius sphere) * exact (radius sphere))%Q) in *.
  split; [|split].
  - rewrite sphere_residual_quadratic. fold oc. fold a. fold halfB. fold c. rewrite Em.
    assert (E : (a * ((- halfB - s) / a) * ((- halfB - s) / a) + 2 * halfB * ((- halfB - s) / a) + c
                 == (s * s - (halfB * halfB - a * c)) / a)%Q) by (field; exact Hne).
    rewrite E, Hd. field. exact Hne.
  - rewrite sphere_residual_quadratic. fold oc. fold a. fold halfB. fold c. rewrite Ep.
    assert (E : (a * ((- halfB + s) / a) * ((- halfB + s) / a) + 2 * halfB * ((- halfB + s) / a) + c
                 == (s * s - (halfB * halfB - a * c)) / a)%Q) by (field; exact Hne).
    rewrite E, Hd. field. exact Hne.
  - rewrite Em, Ep. unfold Qdiv. apply Qmult_le_compat_r.
    + lra.
    + apply Qlt_le_weak. apply Qinv_lt_0_compat. exact Ha.
Qed.

(** ** Rounding to nearest even *)

Lemma shr_1_record m r s :
  0 <= m ->
  shr_1 {| shr_m := m; shr_r := r; shr_s := s |} =
  {| shr_m := m / 2; shr_r := Z.odd m; shr_s := r || s |}.
Proof.
  intros Hm. destruct m as [|[p|p|]|p]; try lia; cbn [shr_1]; try reflexivity.
  - replace (Z.pos p~1 / 2) with (Zpos p); [reflexivity|].
    rewrite Pos2Z.inj_xI. apply Z.div_unique with 1; lia.
  - replace (Z.pos p~0 / 2) with (Zpos p); [reflexivity|].
    rewrite Pos2Z.inj_xO. apply Z.div_unique with 0; lia.
Qed.

Lemma mod_pow2_succ p j :
  0 <= p -> 0 <= j ->
  p mod 2 ^ (j + 1) = (if Z.odd (p / 2 ^ j) then 2 ^ j else 0) + p mod 2 ^ j.
Proof.
  intros Hp Hj.
  assert (H2j : 0 < 2 ^ j) by (apply Z.pow_pos_nonneg; lia).
  rewrite Z.pow_add_r, Z.pow_1_r by lia.
  rewrite Z.rem_mul_r by lia.
  replace ((p / 2 ^ j) mod 2) with (if Z.odd (p / 2 ^ j) then 1 else 0).
  - destruct (Z.odd (p / 2 ^ j)); lia.
  - rewrite Zmod_odd. reflexivity.
Qed.

(** [k] shifts to the right keep the quotient, the last bit shifted out and
    whether anything below it was set. *)
Lemma shr_iter_record p k :
  0 <= p ->
  iter_pos shr_1 k {| shr_m := p; shr_r := false; shr_s := false |} =
  {| shr_m := p / 2 ^ Zpos k;
     shr_r := Z.odd (p / 2 ^ (Zpos k - 1));
     shr_s := negb (p mod 2 ^ (Zpos k - 1) =? 0) |}.
Proof.
  intros Hp. rewrite iter_pos_eq.
  induction k as [|k IH] using Pos.peano_ind.
  - cbn [Pos.iter]. rewrite shr_1_record by exact Hp.
    change (Zpos 1 - 1) with 0. rewrite Z.pow_0_r, Z.pow_1_r, Z.div_1_r, Z.mod_1_r.
    reflexivity.
  - rewrite Pos.iter_succ, IH, shr_1_record by (apply Z.div_pos; [lia|apply Z.pow_pos_nonneg; lia]).
    rewrite Pos2Z.inj_succ. replace (Z.succ (Zpos k) - 1) with (Zpos k) by lia.
    f_equal.
    + rewrite Z.pow_succ_r, Z.div_div by (try apply Z.pow_pos_nonneg; lia).
      f_equal. lia.
    + pose proof (mod_pow2_succ p (Zpos k - 1) Hp ltac:(lia)) as Hm.
      replace (Zpos k - 1 + 1) with (Zpos k) in Hm by lia.
      assert (H2 : 0 < 2 ^ (Zpos k - 1)) by (apply Z.pow_pos_nonneg; lia).
      pose proof (Z.mod_pos_bound p (2 ^ (Zpos k - 1)) H2) as Hb.
      rewrite Hm.
      destruct (Z.odd (p / 2 ^ (Zpos k - 1))); cbn [orb].
      * symmetry. apply negb_true_iff. apply Z.eqb_neq. lia.
      * reflexivity.
Qed.

Lemma round_after_shr p e k :
  0 <= p -> 0 <= k ->
  let '(mrs, e') := shr {| shr_m := p; shr_r := false; shr_s := false |} e k in
  round_nearest_even (shr_m mrs) (loc_of_shr_record mrs) = nearest_even p k /\
  e' = e + k.
Proof.
  intros Hp Hk. unfold nearest_even. destruct k as [|k|k]; try lia; cbn [shr].
  - cbn [shr_m loc_of_shr_record round_nearest_even].
    rewrite Z.pow_0_r, Z.div_1_r, Z.mod_1_r. cbn. split; lia.
  - rewrite shr_iter_record by exact Hp. split; [|reflexivity].
    cbn [shr_m loc_of_shr_record].
    pose proof (mod_pow2_succ p (Zpos k - 1) Hp ltac:(lia)) as Hm.
    replace (Zpos k - 1 + 1) with (Zpos k) in Hm by lia.
    assert (H2 : 0 < 2 ^ (Zpos k - 1)) by (apply Z.pow_pos_nonneg; lia).
    pose proof (Z.mod_pos_bound p (2 ^ (Zpos k - 1)) H2) as Hb.
    assert (Hpk : 2 ^ Zpos k = 2 * 2 ^ (Zpos k - 1))
      by (rewrite <- Z.pow_succ_r by lia; f_equal; lia).
    rewrite Hm, Hpk.
    set (low := p mod 2 ^ (Zpos k - 1)) in *.
    set (half := 2 ^ (Zpos k - 1)) in *.
    destruct (Z.odd (p / half)) eqn:Er; destruct (Z.eqb_spec low 0) as [Es|Es];
      cbn [negb round_nearest_even].
    + (* exactly half *)
      replace (2 * half <? 2 * (half + low)) with false by (symmetry; apply Z.ltb_ge; lia).
      replace (2 * (half + low) =? 2 * half) with true by (symmetry; apply Z.eqb_eq; lia).
      cbn [orb andb]. rewrite <- Z.negb_odd. destruct (Z.odd (p / (2 * half))); reflexivity.
    + replace (2 * half <? 2 * (half + low)) with true by (symmetry; apply Z.ltb_lt; lia).
      reflexivity.
    + replace (2 * half <? 2 * (0 + low)) with false by (symmetry; apply Z.ltb_ge; lia).
      replace (2 * (0 + low) =? 2 * half) with false by (symmetry; apply Z.eqb_neq; lia).
      reflexivity.
    + replace (2 * half <? 2 * (0 + low)) with false by (symmetry; apply Z.ltb_ge; lia).
      replace (2 * (0 + low) =? 2 * half) with false by (symmetry; apply Z.eqb_neq; lia).
      reflexivity.
Qed.

Lemma nearest_even_bounds p k :
  0 <= p -> 0 <= k ->
  p / 2 ^ k <= nearest_even p k <= p / 2 ^ k + 1.
Proof.
  intros Hp Hk. unfold nearest_even.
  destruct (_ || _); lia.
Qed.

Lemma div_pow2_bounds p d k :
  0 <= k -> k <= d - 1 ->
  2 ^ (d - 1) <= p < 2 ^ d ->
  2 ^ (d - 1 - k) <= p / 2 ^ k < 2 ^ (d - k).
Proof.
  intros Hk Hd [Hlo Hhi].
  assert (H2 : 0 < 2 ^ k) by (apply Z.pow_pos_nonneg; lia).
  split.
  - apply Z.div_le_lower_bound; [exact H2|].
    rewrite <- Z.pow_add_r by lia. replace (k + (d - 1 - k)) with (d - 1) by lia. exact Hlo.
  - apply Z.div_lt_upper_bound; [exact H2|].
    rewrite <- Z.pow_add_r by lia. replace (k + (d - k)) with d by lia. exact Hhi.
Qed.

Lemma div_pow2_small p d k :
  0 <= p -> 0 <= d -> d <= k -> p < 2 ^ d -> p / 2 ^ k = 0.
Proof.
  intros Hp Hd Hk Hlt. apply Z.div_small. split; [exact Hp|].
  assert (2 ^ d <= 2 ^ k) by (apply Z.pow_le_mono_r; lia). lia.
Qed.

(** Rounding an exact product or sum: the mantissa is divided by [2^k], [k]
    the number of digits that do not fit, and rounded to the nearest integer,
    ties to even; the one carry that can occur renormalises. *)
Lemma binary_round_aux_exact s p e :
  let d := Zpos (digits2_pos p) in
  let E := fexp 24 128 (d + e) in
  let n := nearest_even (Zpos p) (E - e) in
  e <= E ->
  binary_round_aux 24 128 s (Zpos p) e loc_Exact =
    (if n =? 0 then S754_zero s
     else if n <? 2 ^ 24
          then (if E <=? 104 then S754_finite s (Z.to_pos n) E else S754_infinity s)
          else (if E + 1 <=? 104 then S754_finite s (Z.to_pos (2 ^ 23)) (E + 1)
                else S754_infinity s)) /\
  0 <= n <= 2 ^ 24 /\
  (E = d + e - 24 -> 2 ^ 23 <= n).
Proof.
  intros d E n Hk.
  pose proof (digits2_pos_bounds p) as Hp. fold d in Hp.
  assert (Hd : 1 <= d) by (unfold d; lia).
  assert (HE : E = d + e - 24 /\ -149 <= d + e - 24 \/ E = -149 /\ d + e - 24 < -149)
    by (unfold E, fexp, emin; lia).
  assert (Hn : nearest_even (Zpos p) (E - e) = n) by reflexivity.
  pose proof (nearest_even_bounds (Zpos p) (E - e) ltac:(lia) ltac:(lia)) as Hnb.
  rewrite Hn in Hnb.
  assert (HM : Zpos p / 2 ^ (E - e) < 2 ^ 24 /\
               (E = d + e - 24 -> 2 ^ 23 <= Zpos p / 2 ^ (E - e)) /\
               0 <= Zpos p / 2 ^ (E - e)).
  { destruct (Z_le_gt_dec (E - e) (d - 1)) as [Hle|Hgt].
    - pose proof (div_pow2_bounds (Zpos p) d (E - e) ltac:(lia) Hle Hp) as [Hl Hh].
      assert (2 ^ (d - (E - e)) <= 2 ^ 24) by (apply Z.pow_le_mono_r; lia).
      assert (0 < 2 ^ (d - 1 - (E - e))) by (apply Z.pow_pos_nonneg; lia).
      repeat split; try lia.
      intros HEq. replace (d - 1 - (E - e)) with 23 in Hl by lia. exact Hl.
    - rewrite (div_pow2_small (Zpos p) d (E - e)) by lia.
      repeat split; try lia. }
  destruct HM as (HM1 & HM2 & HM3).
  assert (Hrange : 0 <= n <= 2 ^ 24) by lia.
  split; [|split; [exact Hrange|intros HEq; specialize (HM2 HEq); lia]].
  unfold binary_round_aux, shr_fexp.
  replace (Zdigits2 (Zpos p)) with d by reflexivity.
  replace (shr_record_of_loc (Zpos p) loc_Exact)
    with {| shr_m := Zpos p; shr_r := false; shr_s := false |} by reflexivity.
  fold E.
  pose proof (round_after_shr (Zpos p) e (E - e) ltac:(lia) ltac:(lia)) as Hr.
  destruct (shr _ e (E - e)) as [mrs e'] eqn:Hshr.
  destruct Hr as [Hr He'].
  assert (He : e' = E) by lia. subst e'.
  rewrite Hr, Hn. clear Hr Hshr mrs.
  replace (e + (E - e)) with E by lia.
  clearbody n. clear Hn.
  replace (shr_record_of_loc n loc_Exact)
    with {| shr_m := n; shr_r := false; shr_s := false |} by reflexivity.
  destruct n as [|q|q]; [| |lia].
  - (* the rounded mantissa is zero *)
    cbn [Zdigits2]. 
    assert (Hs : fexp 24 128 (0 + E) - E <= 0) by (unfold fexp, emin; lia).
    destruct (fexp 24 128 (0 + E) - E) as [|k|k]; try lia; cbn [shr shr_m Z.eqb]; reflexivity.
  - cbn [Zdigits2 Z.eqb].
    pose proof (digits2_pos_bounds q) as Hq.
    destruct (Z.ltb_spec (Zpos q) (2 ^ 24)) as [Hlt|Hge].
    + assert (Hdq : Zpos (digits2_pos q) <= 24).
      { destruct (Z_le_gt_dec (Zpos (digits2_pos q)) 24) as [L|G]; [exact L|exfalso].
        assert (2 ^ 24 <= 2 ^ (Zpos (digits2_pos q) - 1)) by (apply Z.pow_le_mono_r; lia).
        lia. }
      assert (Hs : fexp 24 128 (Zpos (digits2_pos q) + E) - E <= 0)
        by (unfold fexp, emin; lia).
      destruct (fexp 24 128 (Zpos (digits2_pos q) + E) - E) as [|k|k]; try lia;
        cbn [shr shr_m]; rewrite Pos2Z.id; reflexivity.
    + assert (Hq24 : Zpos q = 2 ^ 24) by lia.
      assert (Hdq : digits2_pos q = 25%positive).
      { apply digits2_pos_unique. rewrite Hq24. split; [|reflexivity].
        change (Zpos 25 - 1) with 24. lia. }
      rewrite Hdq.
      replace (fexp 24 128 (Zpos 25 + E) - E) with 1 by (unfold fexp, emin; lia).
      cbn [shr iter_pos]. rewrite shr_1_record by lia. cbn [shr_m].
      rewrite Hq24. change (2 ^ 24 / 2) with (Zpos (Z.to_pos (2 ^ 23))).
      cbv beta iota. replace (E + 1 <=? 128 - 24) with (E + 1 <=? 104) by reflexivity.
      reflexivity.
Qed.

Lemma Qpower2_add a b : (Qpower 2 (a + b) == Qpower 2 a * Qpower 2 b)%Q.
Proof. apply Qpower_plus. discriminate. Qed.

Lemma Qpower2_Z z : 0 <= z -> (Qpower 2 z == inject_Z (2 ^ z))%Q.
Proof. intros Hz. symmetry. apply (Zpower_Qpower 2 z Hz). Qed.

Lemma Qpower2_le a b : a <= b -> (Qpower 2 a <= Qpower 2 b)%Q.
Proof.
  intros Hab. replace b with (a + (b - a)) by lia.
  rewrite Qpower2_add, (Qpower2_Z (b - a)) by lia.
  pose proof (Qpower2_pos a) as Ha.
  assert (H1 : (1 <= inject_Z (2 ^ (b - a)))%Q).
  { change 1%Q with (inject_Z 1). rewrite <- Zle_Qle.
    assert (0 < 2 ^ (b - a)) by (apply Z.pow_pos_nonneg; lia). lia. }
  nra.
Qed.

(** Two scaled integers compare as the integers do once both are brought to
    a common exponent. *)
Lemma Qlt_scaled a ea b eb m :
  m <= ea -> m <= eb ->
  (inject_Z a * Qpower 2 ea < inject_Z b * Qpower 2 eb)%Q <->
  a * 2 ^ (ea - m) < b * 2 ^ (eb - m).
Proof.
  intros Ha Hb.
  replace ea with (m + (ea - m)) at 1 by lia.
  replace eb with (m + (eb - m)) at 1 by lia.
  rewrite !Qpower2_add, (Qpower2_Z (ea - m)), (Qpower2_Z (eb - m)) by lia.
  rewrite Zlt_Qlt, !inject_Z_mult.
  pose proof (Qpower2_pos m) as Hm.
  set (A := inject_Z a). set (B := inject_Z b).
  set (X := inject_Z (2 ^ (ea - m))). set (Y := inject_Z (2 ^ (eb - m))).
  set (P := Qpower 2 m) in *.
  split; intros H.
  - apply (Qmult_lt_r _ _ P Hm). 
    setoid_replace (A * X * P)%Q with (A * (P * X))%Q by ring.
    setoid_replace (B * Y * P)%Q with (B * (P * Y))%Q by ring. exact H.
  - apply (Qmult_lt_r _ _ P Hm) in H.
    setoid_replace (A * (P * X))%Q with (A * X * P)%Q by ring.
    setoid_replace (B * (P * Y))%Q with (B * Y * P)%Q by ring. exact H.
Qed.

(** The exact value of a positive float lies between two powers of two. *)
Lemma exact_sandwich p e :
  let d := Zpos (digits2_pos p) in
  (Qpower 2 (d - 1 + e) <= inject_Z (Zpos p) * Qpower 2 e)%Q /\
  (inject_Z (Zpos p) * Qpower 2 e < Qpower 2 (d + e))%Q.
Proof.
  intros d. pose proof (digits2_pos_bounds p) as [Hlo Hhi]. fold d in Hlo, Hhi.
  assert (Hd : 1 <= d) by (unfold d; lia).
  rewrite !Qpower2_add, (Qpower2_Z (d - 1)), (Qpower2_Z d) by lia.
  pose proof (Qpower2_pos e) as He.
  rewrite Zle_Qle in Hlo. rewrite Zlt_Qlt in Hhi.
  split; nra.
Qed.

Lemma digits2_pos_mul x y :
  Zpos (digits2_pos x) + Zpos (digits2_pos y) - 1 <= Zpos (digits2_pos (x * y)).
Proof.
  pose proof (digits2_pos_bounds x) as [Hx _].
  pose proof (digits2_pos_bounds y) as [Hy _].
  pose proof (digits2_pos_bounds (x * y)) as [_ Hxy].
  set (dx := Zpos (digits2_pos x)) in *. set (dy := Zpos (digits2_pos y)) in *.
  set (d := Zpos (digits2_pos (x * y))) in *.
  assert (1 <= dx) by (unfold dx; lia). assert (1 <= dy) by (unfold dy; lia).
  assert (1 <= d) by (unfold d; lia).
  destruct (Z_le_gt_dec (dx + dy - 1) d) as [L|G]; [exact L|exfalso].
  assert (H2 : 2 ^ d <= 2 ^ (dx - 1 + (dy - 1))) by (apply Z.pow_le_mono_r; lia).
  rewrite Z.pow_add_r in H2 by lia.
  rewrite Pos2Z.inj_mul in Hxy.
  assert (0 < 2 ^ (dx - 1)) by (apply Z.pow_pos_nonneg; lia).
  assert (0 < 2 ^ (dy - 1)) by (apply Z.pow_pos_nonneg; lia).
  nia.
Qed.

Lemma bounded_canonical m e :
  bounded 24 128 m e = true ->
  -149 <= e <= 104 /\ (e = -149 \/ Zpos (digits2_pos m) = 24) /\ Zpos (digits2_pos m) <= 24.
Proof.
  unfold bounded, canonical_mantissa. intros H.
  apply andb_true_iff in H. destruct H as [H1 H2].
  apply Z.eqb_eq in H1. apply Z.leb_le in H2.
  unfold fexp, emin in H1. lia.
Qed.

Lemma half_ulp_above_one :
  (1 + Qpower 2 (-24) == inject_Z (2 ^ 24 + 1) * Qpower 2 (-24))%Q.
Proof. reflexivity. Qed.

Lemma gt_one_finite q E :
  F32.gt (S754_finite false q E) F32.one = true <->
  (-23 < E \/ (E = -23 /\ 2 ^ 23 < Zpos q)).
Proof.
  unfold F32.gt, SFltb. change F32.one with (S754_finite false 8388608 (-23)).
  cbn [SFcompare]. change (2 ^ 23) with 8388608.
  destruct (Z.compare_spec (-23) E) as [H|H|H].
  - subst E. rewrite Pos.compare_antisym.
    destruct (Pos.compare_spec q 8388608) as [G|G|G]; cbn [CompOpp].
    + split; [discriminate|]. intros [K|[_ K]]; exfalso.
      * exact (Z.lt_irrefl _ K).
      * rewrite G in K. exact (Z.lt_irrefl _ K).
    + split; [discriminate|]. intros [K|[_ K]]; exfalso.
      * exact (Z.lt_irrefl _ K).
      * apply Pos2Z.pos_lt_pos in G. exact (Z.lt_asymm _ _ K G).
    + split; [|reflexivity]. intros _. right. split; [reflexivity|].
      apply Pos2Z.pos_lt_pos in G. exact G.
  - split; intros; [lia|reflexivity].
  - split; [discriminate|lia].
Qed.

(** The rounded product of two positive mantissas exceeds [1.0] exactly when
    the exact product exceeds [1 + 2^-24], half a unit in the last place
    above [1.0]. *)
Lemma round_gt_one_threshold p e :
  e <= fexp 24 128 (Zpos (digits2_pos p) + e) ->
  F32.gt (binary_round_aux 24 128 false (Zpos p) e loc_Exact) F32.one = true <->
  (1 + Qpower 2 (-24) < inject_Z (Zpos p) * Qpower 2 e)%Q.
Proof.
  intros Hk.
  destruct (binary_round_aux_exact false p e Hk) as (Hres & Hn & Hnorm).
  destruct (exact_sandwich p e) as [Slo Shi]. cbv zeta in Slo, Shi.
  pose proof (digits2_pos_bounds p) as Hp.
  set (d := Zpos (digits2_pos p)) in *.
  set (E := fexp 24 128 (d + e)) in *.
  set (n := nearest_even (Zpos p) (E - e)) in *.
  assert (HE : E = d + e - 24 /\ -149 <= d + e - 24 \/ E = -149 /\ d + e - 24 < -149)
    by (unfold E, fexp, emin; lia).
  rewrite Hres. clear Hres.
  destruct (Z_lt_le_dec 1 (d + e)) as [Hbig|Hsmall].
  - (* at least 2 *)
    assert (HEq : E = d + e - 24) by lia. specialize (Hnorm HEq).
    split; [intros _|intros _].
    + pose proof (Qpower2_le 1 (d - 1 + e) ltac:(lia)) as H2.
      assert (H1 : (1 + Qpower 2 (-24) < Qpower 2 1)%Q) by reflexivity.
      lra.
    + replace (n =? 0) with false by (symmetry; apply Z.eqb_neq; lia).
      destruct (n <? 2 ^ 24).
      * destruct (E <=? 104); [|reflexivity]. apply gt_one_finite. lia.
      * destruct (E + 1 <=? 104); [|reflexivity]. apply gt_one_finite. lia.
  - destruct (Z_lt_le_dec (d + e) 1) as [Hlow|Hone].
    + (* below 1 *)
      split; intros H; exfalso.
      * destruct (Z.eqb_spec n 0) as [Hn0|Hn0]; [discriminate H|].
        destruct (Z.ltb_spec n (2 ^ 24)) as [Hlt|Hge].
        -- replace (E <=? 104) with true in H by (symmetry; apply Z.leb_le; lia).
           apply gt_one_finite in H. rewrite Z2Pos.id in H by lia. lia.
        -- replace (E + 1 <=? 104) with true in H by (symmetry; apply Z.leb_le; lia).
           apply gt_one_finite in H. rewrite Z2Pos.id in H by lia. lia.
      * pose proof (Qpower2_le (d + e) 0 ltac:(lia)) as H2.
        assert (H1 : (Qpower 2 0 < 1 + Qpower 2 (-24))%Q) by reflexivity.
        lra.
    + (* between 1 and 2 *)
      assert (Hde : d + e = 1) by lia.
      assert (HEq : E = -23) by lia. specialize (Hnorm ltac:(lia)).
      assert (Hd24 : 24 <= d) by lia.
      rewrite half_ulp_above_one.
      rewrite (Qlt_scaled (2 ^ 24 + 1) (-24) (Zpos p) e (e - 1)) by lia.
      replace (e - (e - 1)) with 1 by lia.
      replace (-24 - (e - 1)) with (E - e) by lia.
      rewrite Z.pow_1_r.
      assert (Hk0 : 0 <= E - e) by lia.
      assert (H2k : 0 < 2 ^ (E - e)) by (apply Z.pow_pos_nonneg; lia).
      pose proof (Z.div_mod (Zpos p) (2 ^ (E - e)) ltac:(lia)) as Hdm.
      pose proof (Z.mod_pos_bound (Zpos p) (2 ^ (E - e)) H2k) as Hmb.
      pose proof (div_pow2_bounds (Zpos p) d (E - e) Hk0 ltac:(lia) Hp) as HM.
      replace (d - 1 - (E - e)) with 23 in HM by lia.
      replace (d - (E - e)) with 24 in HM by lia.
      assert (Hn' : n = nearest_even (Zpos p) (E - e)) by reflexivity.
      unfold nearest_even in Hn'. cbv zeta in Hn'.
      set (M := Zpos p / 2 ^ (E - e)) in *.
      set (rest := Zpos p mod 2 ^ (E - e)) in *.
      set (T := 2 ^ (E - e)) in *.
      assert (Hgt : 2 ^ 23 < n <-> (2 ^ 24 + 1) * T < Zpos p * 2).
      { clearbody n M rest T. change (2 ^ 23) with 8388608 in *.
        change (2 ^ 24) with 16777216 in *.
        destruct (Z.ltb_spec T (2 * rest)) as [A|A]; cbn [orb] in Hn'.
        - subst n. split; intros; nia.
        - destruct (Z.eqb_spec (2 * rest) T) as [B|B]; cbn [andb] in Hn'.
          + destruct (Z.odd M) eqn:Ho.
            * subst n. assert (M <> 8388608) by (intros ->; discriminate Ho).
              split; intros; nia.
            * subst n. assert (Hev : Z.even M = true) by (rewrite <- Z.negb_odd, Ho; reflexivity).
              split; intros; nia.
          + subst n. split; intros; nia. }
      rewrite <- Hgt. clear Hgt Hn'.
      replace (n =? 0) with false by (symmetry; apply Z.eqb_neq; lia).
      destruct (Z.ltb_spec n (2 ^ 24)) as [Hlt|Hge].
      * replace (E <=? 104) with true by (symmetry; apply Z.leb_le; lia).
        rewrite gt_one_finite, Z2Pos.id by lia. lia.
      * replace (E + 1 <=? 104) with true by (symmetry; apply Z.leb_le; lia).
        rewrite gt_one_finite. lia.
Qed.

Lemma gt_one_negative m e l :
  F32.gt (binary_round_aux 24 128 true m e l) F32.one = false.
Proof.
  change true with (negb false). rewrite binary_round_aux_neg.
  unfold binary_round_aux.
  destruct (shr_fexp F32.prec F32.emax m e l) as [mrs e'].
  destruct (shr_fexp F32.prec F32.emax _ e' loc_Exact) as [mrs' e''].
  destruct (shr_m mrs'); try reflexivity.
  destruct (Z.leb _ _); reflexivity.
Qed.

(** [x * y > 1.0] in binary32 holds exactly when the exact product exceeds
    [1 + 2^-24]: a product in between is rounded down to [1.0]. *)
Lemma mul_gt_one_threshold x y :
  is_f32_number x -> is_f32_number y ->
  F32.gt (F32.mul x y) F32.one = true <->
  (1 + Qpower 2 (-24) < exact x * exact y)%Q.
Proof.
  intros [Vx Fx] [Vy Fy].
  assert (Hc : (0 < 1 + Qpower 2 (-24))%Q) by reflexivity.
  destruct x as [sx|sx| |sx mx ex]; try discriminate Fx;
    destruct y as [sy|sy| |sy my ey]; try discriminate Fy.
  1-3: cbn [exact]; split; intros H; [discriminate H|exfalso; lra].
  cbn [valid_binary] in Vx, Vy.
  apply bounded_canonical in Vx, Vy.
  pose proof (Qpower2_pos ex) as Pex. pose proof (Qpower2_pos ey) as Pey.
  assert (Px : (0 < inject_Z (Zpos mx) * Qpower 2 ex)%Q)
    by (apply Qmult_lt_0_compat; [reflexivity|exact Pex]).
  assert (Py : (0 < inject_Z (Zpos my) * Qpower 2 ey)%Q)
    by (apply Qmult_lt_0_compat; [reflexivity|exact Pey]).
  unfold F32.mul, SFmul.
  destruct (xorb sx sy) eqn:Hs.
  - (* a negative product *)
    rewrite gt_one_negative. cbn [exact].
    split; intros H; [discriminate H|exfalso].
    destruct sx, sy; try discriminate Hs; nra.
  - assert (Hv : (exact (S754_finite sx mx ex) * exact (S754_finite sy my ey) ==
                  inject_Z (Zpos (mx * my)) * Qpower 2 (ex + ey))%Q).
    { cbn [exact]. rewrite Pos2Z.inj_mul, inject_Z_mult, Qpower2_add.
      destruct sx, sy; try discriminate Hs; ring. }
    rewrite Hv. apply round_gt_one_threshold.
    pose proof (digits2_pos_mul mx my) as Hd.
    unfold fexp, emin. lia.
Qed.

(** ** Monotone rounding

  Every operation rounds its exact result to the nearest float, ties to
  even; rounding keeps the order, so that the root tested first is never
  above the root tested second. *)

Lemma inject_Z_half m :
  (inject_Z m == 2 * inject_Z (m / 2) + (if Z.odd m then 1 else 0))%Q.
Proof.
  pose proof (Z.div_mod m 2 ltac:(lia)) as H. rewrite Zmod_odd in H.
  rewrite H at 1. rewrite inject_Z_plus, inject_Z_mult.
  destruct (Z.odd m); reflexivity.
Qed.

Lemma shr_1_located v mrs :
  0 <= shr_m mrs ->
  located v (shr_m mrs) (loc_of_shr_record mrs) ->
  located (v / 2) (shr_m (shr_1 mrs)) (loc_of_shr_record (shr_1 mrs)).
Proof.
  destruct mrs as [m r s]. cbn [shr_m]. intros Hm Hl.
  rewrite shr_1_record by exact Hm. cbn [shr_m].
  pose proof (inject_Z_half m) as Hh.
  assert (Hv : (v / 2 == v * (1 # 2))%Q) by (field).
  revert Hh. destruct r, s, (Z.odd m); intros Hh;
    cbn [loc_of_shr_record orb located] in *; rewrite ?Hv; lra.
Qed.

Lemma shr_iter_located k : forall v mrs,
  0 <= shr_m mrs ->
  located v (shr_m mrs) (loc_of_shr_record mrs) ->
  located (v / Qpower 2 (Zpos k)) (shr_m (iter_pos shr_1 k mrs))
          (loc_of_shr_record (iter_pos shr_1 k mrs)) /\
  0 <= shr_m (iter_pos shr_1 k mrs).
Proof.
  intros v mrs Hm Hl. rewrite iter_pos_eq.
  induction k as [|k IH] using Pos.peano_ind.
  - cbn [Pos.iter]. split; [|apply shr_1_nonneg; exact Hm].
    assert (E : (v / Qpower 2 1 == v / 2)%Q) by reflexivity.
    assert (L := shr_1_located v mrs Hm Hl).
    destruct (loc_of_shr_record (shr_1 mrs)) as [|[]]; cbn [located] in *; rewrite ?E; exact L.
  - rewrite Pos.iter_succ. destruct IH as [IH1 IH2].
    split; [|apply shr_1_nonneg; exact IH2].
    assert (E : (v / Qpower 2 (Zpos (Pos.succ k)) == v / Qpower 2 (Zpos k) / 2)%Q).
    { rewrite Pos2Z.inj_succ. unfold Z.succ. rewrite Qpower2_add.
      pose proof (Qpower2_pos (Zpos k)) as Hp.
      change (Qpower 2 1) with 2%Q. field. lra. }
    assert (L := shr_1_located _ _ IH2 IH1).
    destruct (loc_of_shr_record (shr_1 _)) as [|[]]; cbn [located] in *; rewrite ?E; exact L.
Qed.

Lemma round_nearest_even_located v m l :
  located v m l -> rounds_to_even v (round_nearest_even m l).
Proof.
  unfold rounds_to_even. intros Hl.
  destruct l as [|[]]; cbn [located round_nearest_even] in *.
  - split; [lra|]. intros [H|H]; exfalso; lra.
  - destruct (Z.even m) eqn:Ev.
    + split; [lra|]. intros _. exact Ev.
    + change (Zpos 1) with 1. rewrite inject_Z_plus. change (inject_Z 1) with 1%Q.
      split; [lra|]. intros _. rewrite Z.even_add, Ev. reflexivity.
  - split; [lra|]. intros [H|H]; exfalso; lra.
  - change (Zpos 1) with 1. rewrite inject_Z_plus. change (inject_Z 1) with 1%Q.
    split; [lra|]. intros [H|H]; exfalso; lra.
Qed.

Lemma rounds_to_even_mono v1 v2 n1 n2 :
  (v1 <= v2)%Q -> rounds_to_even v1 n1 -> rounds_to_even v2 n2 -> n1 <= n2.
Proof.
  intros Hv [[A1 B1] C1] [[A2 B2] C2].
  destruct (Z_le_gt_dec n1 n2) as [L|G]; [exact L|exfalso].
  assert (Hn : n2 + 1 <= n1) by lia.
  rewrite Zle_Qle, inject_Z_plus in Hn. change (inject_Z 1) with 1%Q in Hn.
  assert (E1 : (v1 == inject_Z n1 - (1 # 2))%Q) by lra.
  assert (E2 : (v2 == inject_Z n2 + (1 # 2))%Q) by lra.
  assert (En : (inject_Z n1 == inject_Z n2 + 1)%Q) by lra.
  specialize (C1 (or_intror E1)). specialize (C2 (or_introl E2)).
  assert (n1 = n2 + 1).
  { apply inject_Z_injective. rewrite En, inject_Z_plus. reflexivity. }
  subst n1. rewrite Z.even_add, C2 in C1. discriminate C1.
Qed.

(** Bounds pass through the rounding. *)
Lemma rounds_to_even_le v n k :
  rounds_to_even v n -> (v <= inject_Z k)%Q -> n <= k.
Proof.
  intros [[A B] _] H.
  destruct (Z_le_gt_dec n k) as [L|G]; [exact L|exfalso].
  assert (Hn : k + 1 <= n) by lia.
  rewrite Zle_Qle, inject_Z_plus in Hn. change (inject_Z 1) with 1%Q in Hn. lra.
Qed.

Lemma rounds_to_even_ge v n k :
  rounds_to_even v n -> (inject_Z k <= v)%Q -> k <= n.
Proof.
  intros [[A B] _] H.
  destruct (Z_le_gt_dec k n) as [L|G]; [exact L|exfalso].
  assert (Hn : n + 1 <= k) by lia.
  rewrite Zle_Qle, inject_Z_plus in Hn. change (inject_Z 1) with 1%Q in Hn. lra.
Qed.

Lemma Qpower2_lt_inv a b : (Qpower 2 a < Qpower 2 b)%Q -> a < b.
Proof.
  intros H. destruct (Z_lt_le_dec a b) as [L|G]; [exact L|exfalso].
  pose proof (Qpower2_le b a G). lra.
Qed.

Lemma magnitude_unique v mu nu : magnitude v mu -> magnitude v nu -> mu = nu.
Proof.
  intros [A1 B1] [A2 B2].
  assert (mu - 1 < nu) by (apply Qpower2_lt_inv; lra).
  assert (nu - 1 < mu) by (apply Qpower2_lt_inv; lra).
  lia.
Qed.

Lemma magnitude_pos v mu : magnitude v mu -> (0 < v)%Q.
Proof. intros [A _]. pose proof (Qpower2_pos (mu - 1)). lra. Qed.

Lemma magnitude_scale v mu e : magnitude v mu -> magnitude (v * Qpower 2 e) (mu + e).
Proof.
  intros [A B]. unfold magnitude.
  replace (mu + e - 1) with (mu - 1 + e) by lia.
  rewrite !Qpower2_add. pose proof (Qpower2_pos e) as He.
  split.
  - apply Qmult_le_compat_r; [exact A|lra].
  - apply Qmult_lt_compat_r; [exact He|exact B].
Qed.

Lemma located_bounds v m l :
  located v m l -> (inject_Z m <= v /\ v < inject_Z m + 1)%Q.
Proof. destruct l as [|[]]; cbn [located]; lra. Qed.

(** A value located at a positive integer has the number of digits of that
    integer. *)
Lemma located_magnitude v p l :
  located v (Zpos p) l -> magnitude v (Zpos (digits2_pos p)).
Proof.
  intros Hl. apply located_bounds in Hl. destruct Hl as [A B].
  pose proof (digits2_pos_bounds p) as [Hlo Hhi].
  set (d := Zpos (digits2_pos p)) in *.
  assert (Hd : 1 <= d) by (unfold d; lia).
  unfold magnitude. rewrite (Qpower2_Z (d - 1)), (Qpower2_Z d) by lia.
  rewrite Zle_Qle in Hlo.
  assert (Hhi' : Zpos p + 1 <= 2 ^ d) by lia.
  rewrite Zle_Qle, inject_Z_plus in Hhi'. change (inject_Z 1) with 1%Q in Hhi'.
  split; lra.
Qed.

Lemma loc_of_record_of_loc m l :
  shr_m (shr_record_of_loc m l) = m /\
  loc_of_shr_record (shr_record_of_loc m l) = l.
Proof. destruct l as [|[]]; split; reflexivity. Qed.

(** The second pass of [binary_round_aux]: it only renormalises a carry. *)
Lemma round_finish s n E :
  0 <= n <= 2 ^ 24 -> -149 <= E ->
  (let '(mrs, e') := shr_fexp 24 128 n E loc_Exact in
   match shr_m mrs with
   | Z0 => S754_zero s
   | Zpos q => if e' <=? 128 - 24 then S754_finite s q e' else S754_infinity s
   | Zneg _ => S754_nan
   end) = pack_float s n E.
Proof.
  intros Hn HE. unfold shr_fexp, pack_float.
  replace (shr_record_of_loc n loc_Exact)
    with {| shr_m := n; shr_r := false; shr_s := false |} by reflexivity.
  destruct n as [|q|q]; [| |lia].
  - cbn [Zdigits2].
    assert (Hs : fexp 24 128 (0 + E) - E <= 0) by (unfold fexp, emin; lia).
    destruct (fexp 24 128 (0 + E) - E) as [|k|k]; try lia; cbn [shr shr_m Z.eqb]; reflexivity.
  - cbn [Zdigits2 Z.eqb].
    pose proof (digits2_pos_bounds q) as Hq.
    destruct (Z.ltb_spec (Zpos q) (2 ^ 24)) as [Hlt|Hge].
    + assert (Hdq : Zpos (digits2_pos q) <= 24).
      { destruct (Z_le_gt_dec (Zpos (digits2_pos q)) 24) as [L|G]; [exact L|exfalso].
        assert (2 ^ 24 <= 2 ^ (Zpos (digits2_pos q) - 1)) by (apply Z.pow_le_mono_r; lia).
        lia. }
      assert (Hs : fexp 24 128 (Zpos (digits2_pos q) + E) - E <= 0)
        by (unfold fexp, emin; lia).
      destruct (fexp 24 128 (Zpos (digits2_pos q) + E) - E) as [|k|k]; try lia;
        cbn [shr shr_m]; rewrite Pos2Z.id; reflexivity.
    + assert (Hq24 : Zpos q = 2 ^ 24) by lia.
      assert (Hdq : digits2_pos q = 25%positive).
      { apply digits2_pos_unique. rewrite Hq24. split; [|reflexivity].
        change (Zpos 25 - 1) with 24. lia. }
      rewrite Hdq.
      replace (fexp 24 128 (Zpos 25 + E) - E) with 1 by (unfold fexp, emin; lia).
      cbn [shr iter_pos]. rewrite shr_1_record by lia. cbn [shr_m].
      rewrite Hq24. change (2 ^ 24 / 2) with (Zpos (Z.to_pos (2 ^ 23))).
      cbv beta iota. replace (E + 1 <=? 128 - 24) with (E + 1 <=? 104) by reflexivity.
      reflexivity.
Qed.

(** [binary_round_aux] on a located value: it rounds the value to the
    nearest multiple of [2^E], ties to even, [E] being the exponent the
    format gives to the magnitude of the value. *)
Lemma binary_round_aux_located s m e l v mu :
  0 <= m -> located v m l ->
  magnitude (v * Qpower 2 e) mu ->
  e <= fexp 24 128 mu ->
  exists n,
    rounds_to_even (v * Qpower 2 e / Qpower 2 (fexp 24 128 mu)) n /\
    0 <= n <= 2 ^ 24 /\
    (fexp 24 128 mu = mu - 24 -> 2 ^ 23 <= n) /\
    binary_round_aux 24 128 s m e l = pack_float s n (fexp 24 128 mu).
Proof.
  intros Hm Hl Hmag He.
  set (E := fexp 24 128 mu) in *.
  assert (HEmin : -149 <= E) by (unfold E, fexp, emin; lia).
  assert (Hshift : fexp 24 128 (Zdigits2 m + e) = E).
  { destruct m as [|p|p]; [| |lia].
    - cbn [Zdigits2]. pose proof (located_bounds _ _ _ Hl) as [A B].
      change (inject_Z 0) with 0%Q in *.
      destruct Hmag as [M1 M2]. pose proof (Qpower2_pos e) as Pe.
      assert (Hlt : (Qpower 2 (mu - 1) < Qpower 2 e)%Q).
      { apply Qle_lt_trans with (v * Qpower 2 e)%Q; [exact M1|].
        setoid_replace (Qpower 2 e) with (1 * Qpower 2 e)%Q at 2 by ring.
        apply Qmult_lt_compat_r; [exact Pe|lra]. }
      apply Qpower2_lt_inv in Hlt. unfold E, fexp, emin in *. lia.
    - cbn [Zdigits2]. pose proof (located_magnitude _ _ _ Hl) as Hd.
      apply (magnitude_scale _ _ e) in Hd.
      unfold E. rewrite (magnitude_unique _ _ _ Hmag Hd). reflexivity. }
  unfold binary_round_aux. unfold shr_fexp at 1. rewrite Hshift.
  destruct (loc_of_record_of_loc m l) as [Rm Rl].
  set (mrs0 := shr_record_of_loc m l) in *.
  assert (Hl0 : located v (shr_m mrs0) (loc_of_shr_record mrs0)) by (rewrite Rm, Rl; exact Hl).
  assert (Hm0 : 0 <= shr_m mrs0) by (rewrite Rm; exact Hm).
  assert (Hk : 0 <= E - e) by lia.
  assert (Hshr : exists mrs,
             shr mrs0 e (E - e) = (mrs, E) /\
             located (v / Qpower 2 (E - e)) (shr_m mrs) (loc_of_shr_record mrs)).
  { destruct (E - e) as [|k|k] eqn:Ek; [| |lia].
    - exists mrs0. cbn [shr]. split; [f_equal; lia|].
      assert (Ev : (v / Qpower 2 0 == v)%Q) by (change (Qpower 2 0) with 1%Q; field).
      destruct (loc_of_shr_record mrs0) as [|[]]; cbn [located] in *; rewrite ?Ev; exact Hl0.
    - exists (iter_pos shr_1 k mrs0). cbn [shr]. split; [f_equal; lia|].
      apply shr_iter_located; assumption. }
  destruct Hshr as [mrs [Eshr Hloc]]. rewrite Eshr.
  set (n := round_nearest_even (shr_m mrs) (loc_of_shr_record mrs)).
  pose proof (round_nearest_even_located _ _ _ Hloc) as Hr. fold n in Hr.
  assert (Hval : (v / Qpower 2 (E - e) == v * Qpower 2 e / Qpower 2 E)%Q).
  { replace E with (e + (E - e)) at 2 by lia. rewrite Qpower2_add.
    pose proof (Qpower2_pos e). pose proof (Qpower2_pos (E - e)). field. split; lra. }
  assert (Hr' : rounds_to_even (v * Qpower 2 e / Qpower 2 E) n).
  { destruct Hr as [[A B] C]. unfold rounds_to_even. rewrite <- Hval. tauto. }
  assert (HmuE : mu - E <= 24) by (unfold E, fexp, emin; lia).
  destruct Hmag as [M1 M2].
  pose proof (Qpower2_pos E) as PE.
  assert (Hup : (v * Qpower 2 e / Qpower 2 E <= inject_Z (2 ^ 24))%Q).
  { rewrite <- (Qpower2_Z 24) by lia.
    apply Qle_shift_div_r; [exact PE|].
    rewrite <- Qpower2_add.
    apply Qlt_le_weak. apply Qlt_le_trans with (Qpower 2 mu); [exact M2|].
    apply Qpower2_le. lia. }
  assert (Hlow0 : (inject_Z 0 <= v * Qpower 2 e / Qpower 2 E)%Q).
  { apply Qle_shift_div_l; [exact PE|]. change (inject_Z 0) with 0%Q. rewrite Qmult_0_l.
    apply Qle_trans with (Qpower 2 (mu - 1)); [apply Qlt_le_weak, Qpower2_pos|exact M1]. }
  assert (Hn0 : 0 <= n) by (apply (rounds_to_even_ge _ _ _ Hr' Hlow0)).
  assert (Hn24 : n <= 2 ^ 24) by (apply (rounds_to_even_le _ _ _ Hr' Hup)).
  exists n. split; [exact Hr'|]. split; [lia|]. split.
  - intros HEq. apply (rounds_to_even_ge _ _ _ Hr').
    rewrite <- (Qpower2_Z 23) by lia.
    apply Qle_shift_div_l; [exact PE|].
    rewrite <- Qpower2_add. replace (23 + E) with (mu - 1) by lia. exact M1.
  - apply round_finish; [lia|exact HEmin].
Qed.

Lemma le_finite_lex q1 F1 q2 F2 :
  F1 < F2 \/ (F1 = F2 /\ Zpos q1 <= Zpos q2) ->
  F32.le (S754_finite false q1 F1) (S754_finite false q2 F2) = true.
Proof.
  intros H. unfold F32.le, SFleb. cbn [SFcompare].
  destruct (Z.compare_spec F1 F2) as [E|L|G].
  - destruct H as [H|[_ H]]; [lia|].
    change (Pos.compare_cont Eq q1 q2) with (Pos.compare q1 q2).
    destruct (Pos.compare_spec q1 q2) as [A|A|A]; try reflexivity.
    exfalso. apply Pos2Z.pos_lt_pos in A. lia.
  - reflexivity.
  - exfalso. lia.
Qed.

Lemma pack_float_stored s n E :
  pack_float s n E =
  if n =? 0 then S754_zero s
  else if snd (stored n E) <=? 104
       then S754_finite s (Z.to_pos (fst (stored n E))) (snd (stored n E))
       else S754_infinity s.
Proof.
  unfold pack_float, stored. destruct (n =? 0); [reflexivity|].
  destruct (n <? 2 ^ 24); reflexivity.
Qed.

Lemma stored_pos n E : 0 < n -> 0 < fst (stored n E).
Proof. unfold stored. intros H. destruct (n <? 2 ^ 24); cbn [fst]; lia. Qed.

Lemma pack_le n1 E1 n2 E2 :
  0 <= n1 -> 0 <= n2 ->
  (n1 = 0 \/
   (0 < n2 /\
    (snd (stored n1 E1) < snd (stored n2 E2) \/
     (snd (stored n1 E1) = snd (stored n2 E2) /\
      fst (stored n1 E1) <= fst (stored n2 E2))))) ->
  F32.le (pack_float false n1 E1) (pack_float false n2 E2) = true.
Proof.
  intros H1 H2 H. rewrite !pack_float_stored.
  destruct (Z.eqb_spec n1 0) as [Z1|N1].
  - destruct (n2 =? 0); [reflexivity|].
    destruct (_ <=? 104); reflexivity.
  - destruct H as [H|[Hp H]]; [contradiction|].
    destruct (Z.eqb_spec n2 0) as [Z2|N2]; [lia|].
    pose proof (stored_pos n1 E1 ltac:(lia)) as P1.
    pose proof (stored_pos n2 E2 ltac:(lia)) as P2.
    destruct (stored n1 E1) as [q1 F1]. destruct (stored n2 E2) as [q2 F2].
    cbn [fst snd] in *.
    destruct (Z.leb_spec F1 104) as [A|A]; destruct (Z.leb_spec F2 104) as [B|B];
      try reflexivity.
    + apply le_finite_lex. rewrite !Z2Pos.id by lia. exact H.
    + exfalso. lia.
Qed.

Lemma Qpower2_lt a b : a < b -> (Qpower 2 a < Qpower 2 b)%Q.
Proof.
  intros H. apply Qlt_le_trans with (Qpower 2 (a + 1)).
  - rewrite Qpower2_add. change (Qpower 2 1) with 2%Q.
    pose proof (Qpower2_pos a). lra.
  - apply Qpower2_le. lia.
Qed.

Lemma magnitude_mono V1 V2 m1 m2 :
  (V1 <= V2)%Q -> magnitude V1 m1 -> magnitude V2 m2 -> m1 <= m2.
Proof.
  intros H [A1 B1] [A2 B2].
  assert (m1 - 1 < m2) by (apply Qpower2_lt_inv; lra). lia.
Qed.

(** Rounding is monotone: the key that orders the results. *)
Lemma rounds_mono_key V1 V2 m1 m2 n1 n2 :
  (V1 <= V2)%Q ->
  magnitude V1 m1 -> magnitude V2 m2 ->
  rounds_to_even (V1 / Qpower 2 (fexp 24 128 m1)) n1 ->
  rounds_to_even (V2 / Qpower 2 (fexp 24 128 m2)) n2 ->
  0 <= n1 <= 2 ^ 24 -> 0 <= n2 <= 2 ^ 24 ->
  (fexp 24 128 m2 = m2 - 24 -> 2 ^ 23 <= n2) ->
  fexp 24 128 m1 <= fexp 24 128 m2 /\
  (fexp 24 128 m1 = fexp 24 128 m2 -> n1 <= n2) /\
  (fexp 24 128 m1 < fexp 24 128 m2 -> 2 ^ 23 <= n2).
Proof.
  intros HV M1 M2 R1 R2 B1 B2 N2.
  pose proof (magnitude_mono _ _ _ _ HV M1 M2) as Hm.
  split; [unfold fexp, emin; lia|]. split.
  - intros HE. rewrite HE in R1.
    refine (rounds_to_even_mono _ _ _ _ _ R1 R2).
    pose proof (Qpower2_pos (fexp 24 128 m2)) as P.
    unfold Qdiv. apply Qmult_le_compat_r; [exact HV|].
    apply Qlt_le_weak, Qinv_lt_0_compat, P.
  - intros HE. apply N2. unfold fexp, emin in *. lia.
Qed.

Lemma exact_pack s n E :
  0 <= n <= 2 ^ 24 ->
  is_finite (pack_float s n E) = true ->
  (exact (pack_float s n E) ==
   (if s then -1 else 1) * inject_Z n * Qpower 2 E)%Q.
Proof.
  intros Hn Hf. unfold pack_float in *.
  destruct (Z.eqb_spec n 0) as [Z0|N0].
  - subst n. cbn [exact]. change (inject_Z 0) with 0%Q. ring.
  - destruct (Z.ltb_spec n (2 ^ 24)) as [L|G].
    + destruct (E <=? 104); [|discriminate Hf].
      cbn [exact]. rewrite Z2Pos.id by lia. reflexivity.
    + destruct (E + 1 <=? 104); [|discriminate Hf].
      assert (n = 2 ^ 24) by lia. subst n.
      cbn [exact]. rewrite Qpower2_add.
      change (inject_Z (Zpos (Z.to_pos (2 ^ 23)))) with (inject_Z (2 ^ 23)).
      change (Qpower 2 1) with 2%Q.
      change (inject_Z (2 ^ 24)) with (2 * inject_Z (2 ^ 23))%Q. ring.
Qed.

Lemma pack_opp n E : pack_float true n E = SFopp (pack_float false n E).
Proof.
  unfold pack_float. destruct (n =? 0); [reflexivity|].
  destruct (n <? 2 ^ 24); [destruct (E <=? 104)|destruct (E + 1 <=? 104)]; reflexivity.
Qed.

Lemma rounds_to_opp V x : rounds_to V false x -> rounds_to V true (SFopp x).
Proof.
  intros (mu & n & M & R & B & N & ->). exists mu, n.
  refine (conj M (conj R (conj B (conj N _)))). symmetry. apply pack_opp.
Qed.

Lemma rounds_to_opp_inv V x : rounds_to V true x -> rounds_to V false (SFopp x).
Proof.
  intros (mu & n & M & R & B & N & ->). exists mu, n.
  refine (conj M (conj R (conj B (conj N _)))). rewrite pack_opp.
  destruct (pack_float false n (fexp 24 128 mu)) as [[]|[]| |[] ? ?]; reflexivity.
Qed.

(** Rounding is monotone on the positive rationals. *)
Lemma rounds_to_ordered V1 V2 x1 x2 :
  (V1 <= V2)%Q -> rounds_to V1 false x1 -> rounds_to V2 false x2 -> ordered x1 x2.
Proof.
  intros HV (m1 & n1 & M1 & R1 & B1 & N1 & ->) (m2 & n2 & M2 & R2 & B2 & N2 & ->).
  destruct (rounds_mono_key _ _ _ _ _ _ HV M1 M2 R1 R2 B1 B2 N2) as (HE & Heq & Hlt).
  set (E1 := fexp 24 128 m1) in *. set (E2 := fexp 24 128 m2) in *.
  split.
  - apply pack_le; try lia.
    destruct (Z.eq_dec n1 0) as [Z1|NZ1]; [left; exact Z1|right].
    destruct (Z.eq_dec E1 E2) as [EE|NE].
    + specialize (Heq EE). split; [lia|]. unfold stored. rewrite EE.
      destruct (Z.ltb_spec n1 (2 ^ 24)); destruct (Z.ltb_spec n2 (2 ^ 24));
        cbn [fst snd]; lia.
    + specialize (Hlt ltac:(lia)). split; [lia|]. unfold stored.
      destruct (Z.ltb_spec n1 (2 ^ 24)); destruct (Z.ltb_spec n2 (2 ^ 24));
        cbn [fst snd]; lia.
  - intros F1 F2. rewrite !exact_pack by assumption.
    rewrite !Qmult_1_l.
    destruct (Z.eq_dec E1 E2) as [EE|NE].
    + specialize (Heq EE). rewrite EE.
      apply Qmult_le_compat_r; [rewrite <- Zle_Qle; exact Heq|].
      apply Qlt_le_weak, Qpower2_pos.
    + specialize (Hlt ltac:(lia)).
      apply Qle_trans with (inject_Z (2 ^ 24) * Qpower 2 E1)%Q.
      * apply Qmult_le_compat_r; [rewrite <- Zle_Qle; lia|].
        apply Qlt_le_weak, Qpower2_pos.
      * apply Qle_trans with (inject_Z (2 ^ 23) * Qpower 2 E2)%Q.
        -- change (inject_Z (2 ^ 24)) with (inject_Z (2 ^ 23) * Qpower 2 1)%Q.
           rewrite <- Qmult_assoc, <- Qpower2_add.
           apply Qmult_le_l; [reflexivity|]. apply Qpower2_le. lia.
        -- apply Qmult_le_compat_r; [rewrite <- Zle_Qle; exact Hlt|].
           apply Qlt_le_weak, Qpower2_pos.
Qed.

Lemma inject_Z_pos p : (0 < inject_Z (Zpos p))%Q.
Proof. reflexivity. Qed.

(** The remainder of a division, as the rounding code records it. *)
Lemma new_location_located q r d :
  0 < d -> 0 <= r < d ->
  located (inject_Z (d * q + r) / inject_Z d) q (new_location d r).
Proof.
  intros Hd Hr.
  assert (Pd : (0 < inject_Z d)%Q) by (rewrite <- (Zlt_Qlt 0); exact Hd).
  assert (Ev : (inject_Z (d * q + r) / inject_Z d == inject_Z q + inject_Z r / inject_Z d)%Q).
  { rewrite inject_Z_plus, inject_Z_mult. field. lra. }
  assert (Hhalf : forall c, (c ?= d) = Lt \/ (c ?= d) = Eq \/ (c ?= d) = Gt)
    by (intros c; destruct (c ?= d); auto).
  assert (Hlt : 2 * r < d -> (inject_Z r / inject_Z d < 1 # 2)%Q).
  { intros H. apply Qlt_shift_div_r; [exact Pd|].
    rewrite Zlt_Qlt, inject_Z_mult in H. change (inject_Z 2) with 2%Q in H. lra. }
  assert (Hgt : d < 2 * r -> ((1 # 2) < inject_Z r / inject_Z d)%Q).
  { intros H. apply Qlt_shift_div_l; [exact Pd|].
    rewrite Zlt_Qlt, inject_Z_mult in H. change (inject_Z 2) with 2%Q in H. lra. }
  assert (Heq : 2 * r = d -> (inject_Z r / inject_Z d == 1 # 2)%Q).
  { intros H. rewrite <- H, inject_Z_mult. change (inject_Z 2) with 2%Q.
    rewrite <- H, inject_Z_mult in Pd. change (inject_Z 2) with 2%Q in Pd.
    field. lra. }
  assert (Hpos : 0 < r -> (0 < inject_Z r / inject_Z d)%Q).
  { intros H. apply Qlt_shift_div_l; [exact Pd|]. rewrite Qmult_0_l.
    rewrite <- (Zlt_Qlt 0). exact H. }
  assert (Hone : (inject_Z r / inject_Z d < 1)%Q).
  { apply Qlt_shift_div_r; [exact Pd|]. rewrite Qmult_1_l. rewrite <- Zlt_Qlt. lia. }
  unfold new_location, new_location_even, new_location_odd.
  destruct (Z.even d) eqn:Ed; cbv beta;
    (destruct (Z.eqb r 0) eqn:R0;
     [apply Z.eqb_eq in R0; subst r;
      assert (E0 : (inject_Z 0 / inject_Z d == 0)%Q) by (unfold Qdiv; ring);
      cbn [located]; rewrite Ev, E0; ring|]);
    apply Z.eqb_neq in R0; assert (Hr0 : 0 < r) by lia; specialize (Hpos Hr0).
  - destruct (Z.compare (Zpos 2 * r) d) eqn:A; cbn [located]; rewrite Ev.
    + apply Z.compare_eq_iff in A. rewrite (Heq A). reflexivity.
    + change (2 * r < d) in A. specialize (Hlt A). clear - Hlt Hpos. lra.
    + change (2 * r > d) in A. specialize (Hgt ltac:(lia)). clear - Hgt Hone. lra.
  - assert (Hodd : Z.odd d = true) by (rewrite <- Z.negb_even, Ed; reflexivity).
    apply Z.odd_spec in Hodd. destruct Hodd as [j Hj].
    destruct (Z.compare (Zpos 2 * r + Zpos 1) d) eqn:A; cbv iota; cbn [located]; rewrite Ev.
    + apply Z.compare_eq_iff in A. specialize (Hlt ltac:(lia)). clear - Hlt Hpos. lra.
    + change (2 * r + 1 < d) in A. specialize (Hlt ltac:(lia)). clear - Hlt Hpos. lra.
    + change (2 * r + 1 > d) in A. specialize (Hgt ltac:(lia)). clear - Hgt Hone. lra.
Qed.

Lemma Qpower2_sub a b : (Qpower 2 (a - b) == Qpower 2 a / Qpower 2 b)%Q.
Proof.
  pose proof (Qpower2_pos b) as Pb.
  apply Qmult_inj_r with (Qpower 2 b); [lra|].
  rewrite <- Qpower2_add. replace (a - b + b) with a by lia. field. lra.
Qed.

(** A quotient of two positive integers lies strictly between the powers of
    two that the difference of their numbers of digits gives. *)
Lemma ratio_bounds p q :
  let dp := Zpos (digits2_pos p) in
  let dq := Zpos (digits2_pos q) in
  (Qpower 2 (dp - dq - 1) < inject_Z (Zpos p) / inject_Z (Zpos q))%Q /\
  (inject_Z (Zpos p) / inject_Z (Zpos q) < Qpower 2 (dp - dq + 1))%Q.
Proof.
  intros dp dq.
  pose proof (digits2_pos_bounds p) as [Lp Hp]. fold dp in Lp, Hp.
  pose proof (digits2_pos_bounds q) as [Lq Hq]. fold dq in Lq, Hq.
  assert (Hdp : 1 <= dp) by (unfold dp; lia).
  assert (Hdq : 1 <= dq) by (unfold dq; lia).
  pose proof (inject_Z_pos q) as Pq.
  rewrite Zle_Qle in Lp, Lq. rewrite Zlt_Qlt in Hp, Hq.
  rewrite <- Qpower2_Z in Lp, Lq, Hp, Hq by lia.
  split.
  - apply Qlt_shift_div_l; [exact Pq|].
    apply Qlt_le_trans with (Qpower 2 (dp - dq - 1) * Qpower 2 dq)%Q.
    + apply Qmult_lt_l; [apply Qpower2_pos|exact Hq].
    + rewrite <- Qpower2_add. replace (dp - dq - 1 + dq) with (dp - 1) by lia. exact Lp.
  - apply Qlt_shift_div_r; [exact Pq|].
    apply Qlt_le_trans with (Qpower 2 dp); [exact Hp|].
    replace dp with (dp - dq + 1 + (dq - 1)) at 1 by lia. rewrite Qpower2_add.
    apply Qmult_le_l; [apply Qpower2_pos|exact Lq].
Qed.

Lemma magnitude_ratio p q :
  exists mu, magnitude (inject_Z (Zpos p) / inject_Z (Zpos q)) mu /\
             Zpos (digits2_pos p) - Zpos (digits2_pos q) <= mu.
Proof.
  destruct (ratio_bounds p q) as [A B]. cbv zeta in A, B.
  set (dp := Zpos (digits2_pos p)) in *. set (dq := Zpos (digits2_pos q)) in *.
  destruct (Qlt_le_dec (inject_Z (Zpos p) / inject_Z (Zpos q)) (Qpower 2 (dp - dq))) as [L|G].
  - exists (dp - dq). split; [|lia]. split; [apply Qlt_le_weak; exact A|exact L].
  - exists (dp - dq + 1). split; [|lia]. split; [|exact B].
    replace (dp - dq + 1 - 1) with (dp - dq) by lia. exact G.
Qed.

Lemma shiftl_pow m s : 0 <= s -> Z.shiftl m s = m * 2 ^ s.
Proof. intros H. apply Z.shiftl_mul_pow2. exact H. Qed.

(** The quotient that [SFdiv_core_binary] hands to the rounding. *)
Lemma SFdiv_core_located m1 e1 m2 e2 :
  let V := (inject_Z (Zpos m1) / inject_Z (Zpos m2) * Qpower 2 (e1 - e2))%Q in
  exists q e' l v,
    SFdiv_core_binary 24 128 (Zpos m1) e1 (Zpos m2) e2 = (q, e', l) /\
    0 <= q /\ located v q l /\ (v * Qpower 2 e' == V)%Q /\
    forall mu, magnitude V mu -> e' <= fexp 24 128 mu.
Proof.
  intros V. unfold SFdiv_core_binary. cbn [Zdigits2].
  set (d1 := Zpos (digits2_pos m1)). set (d2 := Zpos (digits2_pos m2)).
  set (e' := Z.min (fexp 24 128 (d1 + e1 - (d2 + e2))) (e1 - e2)).
  set (s := e1 - e2 - e').
  assert (Hs : 0 <= s) by (unfold s, e'; lia).
  set (m' := match s with Zpos _ => Z.shiftl (Zpos m1) s | 0 => Zpos m1 | Zneg _ => 0 end).
  assert (Hm' : m' = Zpos m1 * 2 ^ s).
  { unfold m'. destruct s as [|k|k] eqn:Es; [rewrite Z.pow_0_r; lia| |lia].
    apply shiftl_pow. lia. }
  assert (H2s : 0 < 2 ^ s) by (apply Z.pow_pos_nonneg; lia).
  assert (Hm'0 : 0 < m') by (rewrite Hm'; lia).
  pose proof (Z_div_mod m' (Zpos m2) ltac:(lia)) as Hdm.
  destruct (Z.div_eucl m' (Zpos m2)) as [q r]. destruct Hdm as [Hq Hr].
  assert (Hq0 : 0 <= q) by nia.
  exists q, e', (new_location (Zpos m2) r), (inject_Z m' / inject_Z (Zpos m2))%Q.
  split; [reflexivity|]. split; [exact Hq0|]. split; [|split].
  - pose proof (new_location_located q r (Zpos m2) ltac:(lia) Hr) as L.
    rewrite <- Hq in L. exact L.
  - unfold V. rewrite Hm', inject_Z_mult, <- (Qpower2_Z s) by exact Hs.
    replace (e1 - e2) with (s + e') by (unfold s; lia). rewrite Qpower2_add.
    pose proof (inject_Z_pos m2). field. lra.
  - intros mu Hmu.
    destruct (magnitude_ratio m1 m2) as [nu [Hnu Hge]].
    apply (magnitude_scale _ _ (e1 - e2)) in Hnu.
    fold V in Hnu. rewrite (magnitude_unique _ _ _ Hmu Hnu).
    fold d1 d2 in Hge. unfold e', fexp, emin. lia.
Qed.

(** The quotient of two finite floats is the rounded exact quotient. *)
Lemma div_finite_rounds sx mx ex sy my ey :
  rounds_to (inject_Z (Zpos mx) / inject_Z (Zpos my) * Qpower 2 (ex - ey))
            (xorb sx sy)
            (F32.div (S754_finite sx mx ex) (S754_finite sy my ey)).
Proof.
  unfold F32.div, SFdiv.
  destruct (SFdiv_core_located mx ex my ey) as (q & e' & l & v & Ec & Hq & Hl & Hv & He).
  cbv zeta in *. fold F32.prec F32.emax in Ec |- *.
  change F32.prec with 24 in *. change F32.emax with 128 in *.
  rewrite Ec.
  destruct (magnitude_ratio mx my) as [nu [Hnu _]].
  apply (magnitude_scale _ _ (ex - ey)) in Hnu.
  set (V := (inject_Z (Zpos mx) / inject_Z (Zpos my) * Qpower 2 (ex - ey))%Q) in *.
  set (mu := nu + (ex - ey)) in *.
  assert (Hmag : magnitude (v * Qpower 2 e') mu).
  { destruct Hnu as [A B]. unfold magnitude. rewrite Hv. split; assumption. }
  destruct (binary_round_aux_located (xorb sx sy) q e' l v mu Hq Hl Hmag (He mu Hnu))
    as (n & Hr & Hb & Hn & Hres).
  exists mu, n. split; [exact Hnu|]. split.
  - destruct Hr as [[A B] C]. unfold rounds_to_even. rewrite <- Hv. tauto.
  - split; [exact Hb|]. split; [exact Hn|exact Hres].
Qed.

Lemma iter_xO_value p k : Zpos (Pos.iter xO p k) = Zpos p * 2 ^ Zpos k.
Proof.
  induction k as [|k IH] using Pos.peano_ind.
  - cbn [Pos.iter]. rewrite Pos2Z.inj_xO. lia.
  - rewrite Pos.iter_succ, Pos2Z.inj_xO, IH, Pos2Z.inj_succ, Z.pow_succ_r by lia. lia.
Qed.

Lemma located_exact m : located (inject_Z m) m loc_Exact.
Proof. cbn [located]. reflexivity. Qed.

(** [binary_round] rounds the exact value of its argument. *)
Lemma binary_round_rounds s p e :
  rounds_to (inject_Z (Zpos p) * Qpower 2 e) s (binary_round 24 128 s p e).
Proof.
  unfold binary_round, shl_align.
  set (d := Zpos (digits2_pos p)).
  pose proof (located_magnitude _ p loc_Exact (located_exact (Zpos p))) as Hmag.
  apply (magnitude_scale _ _ e) in Hmag. fold d in Hmag.
  set (E0 := fexp 24 128 (d + e)) in *.
  assert (Hspec : forall mz ez,
             (inject_Z (Zpos mz) * Qpower 2 ez == inject_Z (Zpos p) * Qpower 2 e)%Q ->
             ez <= E0 ->
             rounds_to (inject_Z (Zpos p) * Qpower 2 e) s
                       (binary_round_aux 24 128 s (Zpos mz) ez loc_Exact)).
  { intros mz ez Hv He.
    assert (Hm : magnitude (inject_Z (Zpos mz) * Qpower 2 ez) (d + e)).
    { destruct Hmag as [A B]. unfold magnitude. rewrite Hv. split; assumption. }
    destruct (binary_round_aux_located s (Zpos mz) ez loc_Exact _ (d + e)
                ltac:(lia) (located_exact _) Hm He) as (n & Hr & Hb & Hn & Hres).
    exists (d + e), n. split; [exact Hmag|]. split.
    - destruct Hr as [[A B] C]. unfold rounds_to_even. rewrite <- Hv. tauto.
    - split; [exact Hb|]. split; [exact Hn|exact Hres]. }
  destruct (E0 - e) as [|k|k] eqn:Ek.
  - apply Hspec; [reflexivity|lia].
  - apply Hspec; [reflexivity|lia].
  - apply Hspec; [|lia].
    rewrite iter_xO_value, inject_Z_mult, <- (Qpower2_Z (Zpos k)) by lia.
    rewrite <- Qmult_assoc, <- Qpower2_add.
    replace (Zpos k + E0) with e by lia. reflexivity.
Qed.

Lemma le_opp (x y : f32) : F32.le (SFopp y) (SFopp x) = F32.le x y.
Proof.
  destruct x as [[]|[]| |[] mx ex]; destruct y as [[]|[]| |[] my ey];
    cbn [SFopp negb]; try reflexivity; float_order.
Qed.

Lemma is_finite_opp x : is_finite (SFopp x) = is_finite x.
Proof. destruct x; reflexivity. Qed.

Lemma ordered_opp x y : ordered x y -> ordered (SFopp y) (SFopp x).
Proof.
  intros [Hle Hex]. split; [rewrite le_opp; exact Hle|].
  rewrite !is_finite_opp. intros Fy Fx.
  pose proof (exact_neg y) as Ey. pose proof (exact_neg x) as Ex.
  unfold F32.neg in Ey, Ex. rewrite Ey, Ex. specialize (Hex Fx Fy). lra.
Qed.

Lemma pack_signed s n E : signed s (pack_float s n E).
Proof.
  unfold pack_float. destruct (n =? 0); [reflexivity|].
  destruct (n <? 2 ^ 24); [destruct (E <=? 104)|destruct (E + 1 <=? 104)]; reflexivity.
Qed.

Lemma rounds_to_signed V s x : rounds_to V s x -> signed s x /\ x <> S754_nan.
Proof.
  intros (mu & n & _ & _ & _ & _ & ->). split; [apply pack_signed|].
  unfold pack_float. destruct (n =? 0); [discriminate|].
  destruct (n <? 2 ^ 24); [destruct (_ <=? 104)|destruct (_ + 1 <=? 104)]; discriminate.
Qed.

Lemma exact_signed x :
  (signed true x -> (exact x <= 0)%Q) /\ (signed false x -> (0 <= exact x)%Q).
Proof.
  destruct x as [s|s| |s m e]; cbn [signed exact]; split; intros H; try lra.
  - subst s. pose proof (Qpower2_pos e). pose proof (inject_Z_pos m). nra.
  - subst s. pose proof (Qpower2_pos e). pose proof (inject_Z_pos m). nra.
Qed.

(** A float with the sign bit set is below one with the sign bit clear. *)
Lemma signed_ordered x y :
  signed true x -> signed false y -> x <> S754_nan -> y <> S754_nan -> ordered x y.
Proof.
  intros Sx Sy Nx Ny. split.
  - destruct x as [sx|sx| |sx mx ex]; destruct y as [sy|sy| |sy my ey];
      cbn [signed] in *; try congruence; subst; reflexivity.
  - intros _ _. pose proof (proj1 (exact_signed x) Sx). pose proof (proj2 (exact_signed y) Sy).
    lra.
Qed.

Lemma zero_ordered_l s y :
  signed false y -> y <> S754_nan -> ordered (S754_zero s) y.
Proof.
  intros Sy Ny. split.
  - destruct y as [sy|sy| |sy my ey]; cbn [signed] in *; try congruence; subst; reflexivity.
  - intros _ _. pose proof (proj2 (exact_signed y) Sy). cbn [exact]. lra.
Qed.

Lemma zero_ordered_r s x :
  signed true x -> x <> S754_nan -> ordered x (S754_zero s).
Proof.
  intros Sx Nx. split.
  - destruct x as [sx|sx| |sx mx ex]; cbn [signed] in *; try congruence; subst; reflexivity.
  - intros _ _. pose proof (proj1 (exact_signed x) Sx). cbn [exact]. lra.
Qed.

(** [binary_normalize] is monotone in the integer it rounds. *)
Lemma binary_normalize_ordered M1 M2 e :
  M1 <= M2 ->
  ordered (binary_normalize 24 128 M1 e false) (binary_normalize 24 128 M2 e false).
Proof.
  intros HM.
  assert (Hscale : forall a b : positive, Zpos a <= Zpos b ->
             (inject_Z (Zpos a) * Qpower 2 e <= inject_Z (Zpos b) * Qpower 2 e)%Q).
  { intros a b H. apply Qmult_le_compat_r; [rewrite <- Zle_Qle; exact H|].
    apply Qlt_le_weak, Qpower2_pos. }
  destruct M1 as [|p1|p1]; destruct M2 as [|p2|p2]; try lia; cbn [binary_normalize].
  - split; [reflexivity|]. intros _ _. apply Qle_refl.
  - pose proof (binary_round_rounds false p2 e) as R.
    destruct (rounds_to_signed _ _ _ R). apply zero_ordered_l; assumption.
  - pose proof (binary_round_rounds false p1 e) as R1.
    pose proof (binary_round_rounds false p2 e) as R2.
    apply (rounds_to_ordered _ _ _ _ (Hscale p1 p2 ltac:(lia)) R1 R2).
  - pose proof (binary_round_rounds true p1 e) as R.
    destruct (rounds_to_signed _ _ _ R). apply zero_ordered_r; assumption.
  - pose proof (binary_round_rounds true p1 e) as R1.
    pose proof (binary_round_rounds false p2 e) as R2.
    destruct (rounds_to_signed _ _ _ R1). destruct (rounds_to_signed _ _ _ R2).
    apply signed_ordered; assumption.
  - pose proof (binary_round_rounds true p1 e) as R1.
    pose proof (binary_round_rounds true p2 e) as R2.
    apply rounds_to_opp_inv in R1, R2.
    pose proof (rounds_to_ordered _ _ _ _ (Hscale p2 p1 ltac:(lia)) R2 R1) as H.
    apply ordered_opp in H.
    assert (Hopp : forall x, x <> S754_nan -> SFopp (SFopp x) = x)
      by (intros [[]|[]| |[] ? ?]; reflexivity || congruence).
    destruct (rounds_to_signed _ _ _ (binary_round_rounds true p1 e)) as [_ N1].
    destruct (rounds_to_signed _ _ _ (binary_round_rounds true p2 e)) as [_ N2].
    rewrite !Hopp in H by assumption. exact H.
Qed.

Lemma ordered_refl x : x <> S754_nan -> ordered x x.
Proof.
  intros Hx. split; [|intros _ _; apply Qle_refl].
  destruct x as [[]|[]| |[] m e]; try congruence; try reflexivity;
    unfold F32.le, SFleb; cbn [SFcompare]; rewrite Z.compare_refl;
    change (Pos.compare_cont Eq m m) with (Pos.compare m m);
    rewrite Pos.compare_refl; reflexivity.
Qed.

(** [y - s] and [y + s] for a [s] that is not negative. *)
Lemma sub_add_ordered y s :
  not_negative s ->
  F32.sub y s = S754_nan \/ F32.add y s = S754_nan \/
  ordered (F32.sub y s) (F32.add y s).
Proof.
  intros Hs. unfold F32.sub, F32.add.
  destruct s as [ss|ss| |ss ms es]; cbn [not_negative signed] in Hs; try subst ss.
  - (* zero *)
    destruct y as [sy|sy| |sy my ey]; cbn [SFsub SFadd].
    + right. right. destruct sy, ss; split; try reflexivity; intros _ _; apply Qle_refl.
    + right. right. apply ordered_refl. discriminate.
    + left. reflexivity.
    + right. right. apply ordered_refl. discriminate.
  - (* +infinity *)
    destruct y as [sy|sy| |sy my ey]; cbn [SFsub SFadd negb].
    + right. right. split; [reflexivity|]. intros H; discriminate H.
    + destruct sy; [right; left; reflexivity|left; reflexivity].
    + left. reflexivity.
    + right. right. split; [reflexivity|]. intros H; discriminate H.
  - right. left. destruct y; reflexivity.
  - (* a positive number *)
    destruct y as [sy|sy| |sy my ey]; cbn [SFsub SFadd negb].
    + right. right. apply signed_ordered; try reflexivity; discriminate.
    + right. right. apply ordered_refl. discriminate.
    + left. reflexivity.
    + right. right. apply binary_normalize_ordered. cbn [cond_Zopp]. lia.
Qed.

Lemma binary_round_aux_signed s m e l : signed s (binary_round_aux 24 128 s m e l).
Proof.
  unfold binary_round_aux.
  destruct (shr_fexp 24 128 m e l) as [mrs e'].
  destruct (shr_fexp 24 128 _ e' loc_Exact) as [mrs' e''].
  destruct (shr_m mrs'); try reflexivity.
  destruct (Z.leb _ _); reflexivity.
Qed.

Lemma sqrt_not_negative x : not_negative (F32.sqrt x).
Proof.
  unfold F32.sqrt, SFsqrt, F32.prec, F32.emax.
  destruct x as [s|[]| |[] m e]; try exact I; try reflexivity.
  destruct (SFsqrt_core_binary 24 128 (Zpos m) e) as [[mz ez] lz].
  pose proof (binary_round_aux_signed false mz ez lz) as H.
  destruct (binary_round_aux 24 128 false mz ez lz); cbn [not_negative signed] in *; auto.
Qed.

Lemma ordered_not_lt x y : ordered x y -> F32.lt y x = false.
Proof. intros [H _]. exact (le_not_gt _ _ H). Qed.

Lemma opp_involutive x : SFopp (SFopp x) = x.
Proof. destruct x as [[]|[]| |[] ? ?]; reflexivity. Qed.

(** The quotient of a number by a positive number has the sign of the
    number. *)
Lemma div_finite_shape s m e ma ea :
  signed s (F32.div (S754_finite s m e) (S754_finite false ma ea)) /\
  F32.div (S754_finite s m e) (S754_finite false ma ea) <> S754_nan.
Proof.
  pose proof (div_finite_rounds s m e false ma ea) as R.
  rewrite xorb_false_r in R. exact (rounds_to_signed _ _ _ R).
Qed.

Lemma exact_finite_ratio s m e ma ea :
  (exact (S754_finite s m e) / exact (S754_finite false ma ea) ==
   (if s then -1 else 1) *
   (inject_Z (Zpos m) / inject_Z (Zpos ma) * Qpower 2 (e - ea)))%Q.
Proof.
  cbn [exact]. rewrite Qpower2_sub.
  pose proof (Qpower2_pos ea). pose proof (inject_Z_pos ma).
  destruct s; field; split; lra.
Qed.

(** Division by a positive number is monotone. *)
Lemma div_finite_mono x1 x2 ma ea :
  ordered x1 x2 ->
  F32.lt (F32.div x2 (S754_finite false ma ea)) (F32.div x1 (S754_finite false ma ea)) = false.
Proof.
  intros [Hle Hex].
  set (a := S754_finite false ma ea).
  assert (Pa : (0 < exact a)%Q).
  { cbn [a exact]. pose proof (Qpower2_pos ea). pose proof (inject_Z_pos ma). nra. }
  destruct x1 as [s1|s1| |s1 m1 e1]; destruct x2 as [s2|s2| |s2 m2 e2];
    try (exfalso; revert Hle; clear; float_order; fail).
  - (* zero, zero *) reflexivity.
  - (* zero, infinity *) destruct s1, s2; try reflexivity; discriminate Hle.
  - (* zero, finite *)
    destruct (div_finite_shape s2 m2 e2 ma ea) as [Sg Nn]. fold a in Sg, Nn.
    change (F32.div (S754_zero s1) a) with (S754_zero (xorb s1 false)).
    destruct s2; [exfalso; revert Hle; clear; float_order|].
    apply ordered_not_lt. apply zero_ordered_l; assumption.
  - (* infinity, zero *) destruct s1, s2; try reflexivity; discriminate Hle.
  - (* infinity, infinity *) destruct s1, s2; try reflexivity; discriminate Hle.
  - (* infinity, finite *)
    destruct (div_finite_shape s2 m2 e2 ma ea) as [Sg Nn]. fold a in Sg, Nn.
    change (F32.div (S754_infinity s1) a) with (S754_infinity (xorb s1 false)).
    destruct s1; [|exfalso; revert Hle; clear; float_order].
    destruct (F32.div (S754_finite s2 m2 e2) a) as [[]|[]| |[] ? ?]; reflexivity.
  - (* finite, zero *)
    destruct (div_finite_shape s1 m1 e1 ma ea) as [Sg Nn]. fold a in Sg, Nn.
    change (F32.div (S754_zero s2) a) with (S754_zero (xorb s2 false)).
    destruct s1; [|exfalso; revert Hle; clear; float_order].
    apply ordered_not_lt. apply zero_ordered_r; assumption.
  - (* finite, infinity *)
    destruct (div_finite_shape s1 m1 e1 ma ea) as [Sg Nn]. fold a in Sg, Nn.
    change (F32.div (S754_infinity s2) a) with (S754_infinity (xorb s2 false)).
    destruct s2; [exfalso; revert Hle; clear; float_order|].
    destruct (F32.div (S754_finite s1 m1 e1) a) as [[]|[]| |[] ? ?]; reflexivity.
  - (* finite, finite *)
    specialize (Hex eq_refl eq_refl).
    pose proof (div_finite_rounds s1 m1 e1 false ma ea) as R1.
    pose proof (div_finite_rounds s2 m2 e2 false ma ea) as R2.
    rewrite xorb_false_r in R1, R2. fold a in R1, R2.
    set (V1 := (inject_Z (Zpos m1) / inject_Z (Zpos ma) * Qpower 2 (e1 - ea))%Q) in *.
    set (V2 := (inject_Z (Zpos m2) / inject_Z (Zpos ma) * Qpower 2 (e2 - ea))%Q) in *.
    assert (Hq : (exact (S754_finite s1 m1 e1) / exact a <=
                  exact (S754_finite s2 m2 e2) / exact a)%Q).
    { unfold Qdiv. apply Qmult_le_compat_r; [exact Hex|].
      apply Qlt_le_weak, Qinv_lt_0_compat, Pa. }
    unfold a in Hq. rewrite !exact_finite_ratio in Hq. fold V1 V2 in Hq.
    assert (P1 : (0 < V1)%Q).
    { destruct R1 as (mu & n & M & _). exact (magnitude_pos _ _ M). }
    assert (P2 : (0 < V2)%Q).
    { destruct R2 as (mu & n & M & _). exact (magnitude_pos _ _ M). }
    destruct s1, s2.
    + apply rounds_to_opp_inv in R1, R2.
      assert (HV : (V2 <= V1)%Q) by lra.
      pose proof (rounds_to_ordered _ _ _ _ HV R2 R1) as H.
      apply ordered_opp in H. rewrite !opp_involutive in H.
      apply ordered_not_lt. exact H.
    + destruct (rounds_to_signed _ _ _ R1). destruct (rounds_to_signed _ _ _ R2).
      apply ordered_not_lt. apply signed_ordered; assumption.
    + exfalso. lra.
    + assert (HV : (V1 <= V2)%Q) by lra.
      apply ordered_not_lt. exact (rounds_to_ordered _ _ _ _ HV R1 R2).
Qed.

(** Division by a float that is not negative keeps the order, NaN apart. *)
Lemma div_mono x1 x2 a :
  signed false a -> ordered x1 x2 ->
  F32.lt (F32.div x2 a) (F32.div x1 a) = false.
Proof.
  intros Sa Ho.
  destruct a as [sa|sa| |sa ma ea]; cbn [signed] in Sa; try subst sa.
  - destruct Ho as [Hle _]. revert Hle. clear.
    destruct x1 as [[]|[]| |[] ? ?]; destruct x2 as [[]|[]| |[] ? ?];
      try reflexivity; intros H; try discriminate H; revert H; float_order.
  - destruct Ho as [Hle _]. revert Hle. clear.
    destruct x1 as [[]|[]| |[] ? ?]; destruct x2 as [[]|[]| |[] ? ?];
      try reflexivity; intros H; try discriminate H; revert H; float_order.
  - destruct x2; [| | |]; destruct x1; reflexivity.
  - apply div_finite_mono. exact Ho.
Qed.

Lemma mul_self_signed x : signed false (F32.mul x x).
Proof.
  unfold F32.mul, SFmul.
  destruct x as [[]|[]| |s m e]; try reflexivity.
  rewrite xorb_nilpotent. apply binary_round_aux_signed.
Qed.

Lemma add_signed x y :
  signed false x -> signed false y -> signed false (F32.add x y).
Proof.
  intros Sx Sy. unfold F32.add, SFadd.
  destruct x as [sx|sx| |sx mx ex]; destruct y as [sy|sy| |sy my ey];
    cbn [signed] in *; subst; try reflexivity.
  cbn [cond_Zopp Z.add binary_normalize]. unfold binary_round.
  destruct (shl_align _ _ _) as [mz ez]. apply binary_round_aux_signed.
Qed.

Lemma dot_self_signed v : signed false (V3.dot v v).
Proof.
  unfold V3.dot. apply add_signed; [apply add_signed|]; apply mul_self_signed.
Qed.

Lemma lt_nan_l y : F32.lt S754_nan y = false.
Proof. reflexivity. Qed.

Lemma lt_nan_r y : F32.lt y S754_nan = false.
Proof. destruct y; reflexivity. Qed.

Lemma div_nan a : F32.div S754_nan a = S754_nan.
Proof. reflexivity. Qed.

(** The root tested second is never below the root tested first. *)
Lemma roots_in_order sphere rayOrigin rayDir :
  F32.lt (root_plus sphere rayOrigin rayDir) (root_minus sphere rayOrigin rayDir) = false.
Proof.
  unfold root_plus, root_minus. cbv zeta.
  set (y := F32.neg (V3.dot (V3.sub rayOrigin (center sphere)) rayDir)).
  set (s := F32.sqrt (discriminant sphere rayOrigin rayDir)).
  set (a := V3.dot rayDir rayDir).
  destruct (sub_add_ordered y s (sqrt_not_negative _)) as [N|[N|Ho]].
  - rewrite N, div_nan. apply lt_nan_r.
  - rewrite N, div_nan. apply lt_nan_l.
  - apply div_mono; [apply dot_self_signed|exact Ho].
Qed.


(** ** The sphere that the scan reports *)

Section Decompose.
Variables (o d : vec3f) (tMin : f32).

(** The scan either keeps the state it started from, every sphere being
    rejected against its bound, or ends in the record of the last sphere
    that was accepted. *)
Lemma fold_last_accepted l : forall st,
  (fold_left (closestHit_step o d tMin) l st = st /\
   Forall (fun s => is_hit (hitSphere s o d tMin (closestSoFar st)) = false) l) \/
  (exists pre s post,
     l = pre ++ s :: post /\
     let bound := closestSoFar (fold_left (closestHit_step o d tMin) pre st) in
     let t := hitSphere s o d tMin bound in
     is_hit t = true /\
     fold_left (closestHit_step o d tMin) l st = mkScan t true (record_hit s o d t) /\
     Forall (fun s' => is_hit (hitSphere s' o d tMin t) = false) post).
Proof.
  induction l as [|x l IH] using rev_ind; intros st.
  - left. split; [reflexivity|constructor].
  - rewrite fold_left_app. cbn [fold_left].
    destruct (is_hit (hitSphere x o d tMin
                (closestSoFar (fold_left (closestHit_step o d tMin) l st)))) eqn:Hx.
    + right. exists l, x, []. split; [reflexivity|]. cbv zeta.
      split; [exact Hx|]. split; [apply step_hit; exact Hx|constructor].
    + rewrite step_miss by exact Hx.
      destruct (IH st) as [[E Hall]|[pre [s [post [El [Ht [Ef Hpost]]]]]]].
      * left. split; [exact E|]. apply Forall_app. split; [exact Hall|].
        constructor; [|constructor]. rewrite E in Hx. exact Hx.
      * right. exists pre, s, (post ++ [x]). split; [rewrite El, <- app_assoc; reflexivity|].
        cbv zeta in *. split; [exact Ht|]. split; [exact Ef|].
        apply Forall_app. split; [exact Hpost|]. constructor; [|constructor].
        rewrite Ef in Hx. exact Hx.
Qed.

End Decompose.

Lemma hitSphere_is_root s o d tMin tMax :
  is_hit (hitSphere s o d tMin tMax) = true ->
  hitSphere s o d tMin tMax = root_minus s o d \/
  hitSphere s o d tMin tMax = root_plus s o d.
Proof.
  intros Hh.
  destruct (hitSphere_cases s o d tMin tMax) as [[_ E]|[[_ [_ E]]|[[_ [_ [_ E]]]|[_ [_ [_ E]]]]]];
    try (rewrite E in Hh; discriminate Hh); auto.
Qed.

Lemma hitSphere_ge_tMin s o d tMin tMax :
  is_hit (hitSphere s o d tMin tMax) = true ->
  F32.lt (hitSphere s o d tMin tMax) tMin = false.
Proof.
  intros Hh.
  destruct (hitSphere_cases s o d tMin tMax) as [[_ E]|[[_ [R E]]|[[_ [_ [R E]]]|[_ [_ [_ E]]]]]];
    try (rewrite E in Hh; discriminate Hh); rewrite E;
    apply out_of_range_split in R; tauto.
Qed.

(** A hit found against a smaller bound is the hit against [tMax]. *)
Lemma hitSphere_smaller_bound s o d tMin bound tMax :
  F32.le bound tMax = true ->
  is_hit (hitSphere s o d tMin bound) = true ->
  hitSphere s o d tMin tMax = hitSphere s o d tMin bound.
Proof.
  intros Hle Hh. pose proof (roots_in_order s o d) as Hord.
  pose proof (is_hit_not_nan _ Hh) as Hnn.
  assert (Hb : F32.is_nan bound = false) by (revert Hle; clear; float_order).
  assert (Ht : F32.is_nan tMax = false) by (revert Hle; clear; float_order).
  assert (Hdown : forall r, F32.is_nan r = false -> F32.gt r bound = false ->
                            F32.gt r tMax = false).
  { intros r Hr Hg. apply le_not_gt. apply le_trans with bound; [|exact Hle].
    apply not_gt_le; assumption. }
  unfold hitSphere in *.
  destruct (F32.lt (discriminant s o d) F32.zero); [discriminate Hh|].
  destruct (out_of_range (root_minus s o d) tMin bound) eqn:Q1.
  - destruct (out_of_range (root_plus s o d) tMin bound) eqn:Q2; [discriminate Hh|].
    apply out_of_range_split in Q2. destruct Q2 as [Qa Qb].
    assert (R2 : out_of_range (root_plus s o d) tMin tMax = false).
    { unfold out_of_range. rewrite Qa, (Hdown _ Hnn Qb). reflexivity. }
    rewrite R2.
    destruct (out_of_range (root_minus s o d) tMin tMax) eqn:R1; [reflexivity|].
    exfalso. apply out_of_range_split in R1. destruct R1 as [Ra Rb].
    pose proof (out_of_range_above _ _ _ Q1 Ra) as Habove.
    assert (F32.lt (root_plus s o d) (root_minus s o d) = true).
    { apply le_lt_trans with bound; [|exact Habove].
      apply not_gt_le; assumption. }
    congruence.
  - apply out_of_range_split in Q1. destruct Q1 as [Qa Qb].
    assert (R1 : out_of_range (root_minus s o d) tMin tMax = false).
    { unfold out_of_range. rewrite Qa, (Hdown _ Hnn Qb). reflexivity. }
    rewrite R1. reflexivity.
Qed.

Lemma hitSphere_gt_tMax s o d tMin tMax :
  is_hit (hitSphere s o d tMin tMax) = true ->
  F32.gt (hitSphere s o d tMin tMax) tMax = false.
Proof.
  intros Hh.
  destruct (hitSphere_cases s o d tMin tMax) as [[_ E]|[[_ [R E]]|[[_ [_ [R E]]]|[_ [_ [_ E]]]]]];
    try (rewrite E in Hh; discriminate Hh); rewrite E;
    apply out_of_range_split in R; tauto.
Qed.

(** * The claims *)

(** ** The path integrator on a miss *)

Lemma bounce_miss pow fuel spheres materials o d throughput st :
  misses_every_sphere spheres o d ->
  bounce pow fuel spheres materials o d throughput st =
  Some (Return (V3.mul throughput (skyColor d)), st).
Proof.
  intros Hmiss. unfold bounce.
  rewrite (closestHit_miss spheres o d tMin_bounce tMax_bounce Hmiss).
  reflexivity.
Qed.

Lemma tMax_bounce_number : F32.is_nan tMax_bounce = false.
Proof. reflexivity. Qed.

(** The scan reports no hit exactly when [hitSphere] rejects every sphere
    over the whole range. *)
Lemma misses_iff_no_hit_reported spheres o d :
  misses_every_sphere spheres o d <->
  reports_hit (closestHit spheres o d tMin_bounce tMax_bounce) = false.
Proof.
  split.
  - intros Hm. rewrite (closestHit_miss _ _ _ _ _ Hm). reflexivity.
  - intros Hr. apply Forall_forall. intros s Hin.
    destruct (is_hit (hitSphere s o d tMin_bounce tMax_bounce)) eqn:Hh; [|reflexivity].
    destruct (nearest spheres o d tMin_bounce tMax_bounce s tMax_bounce_number Hin Hh)
      as [Hr' _].
    congruence.
Qed.

(** When no operation of the discriminant rounds, a ray that passes outside
    the sphere is rejected. *)
Lemma exact_outside_no_hit sphere o d tMin tMax :
  discriminant_exact sphere o d ->
  (0 < qdot (exact_vec d) (exact_vec d))%Q ->
  (F32.lt (discriminant sphere o d) F32.zero = true <-> passes_outside sphere o d) /\
  (passes_outside sphere o d -> hitSphere sphere o d tMin tMax = F32.minus_one).
Proof.
  intros He Ha. destruct (exact_discriminant_value _ _ _ He) as [Hf Hv].
  assert (Hiff : F32.lt (discriminant sphere o d) F32.zero = true <-> passes_outside sphere o d).
  { rewrite (lt_zero_exact _ Hf), Hv. apply exact_discriminant_negative. exact Ha. }
  split; [exact Hiff|].
  intros Hp. apply Hiff in Hp. unfold hitSphere. rewrite Hp. reflexivity.
Qed.

Lemma exact_outside_misses spheres o d :
  Forall (fun s => discriminant_exact s o d /\ passes_outside s o d) spheres ->
  (0 < qdot (exact_vec d) (exact_vec d))%Q ->
  misses_every_sphere spheres o d.
Proof.
  intros Hall Ha. unfold misses_every_sphere.
  apply Forall_forall. intros s Hin.
  rewrite Forall_forall in Hall. destruct (Hall s Hin) as [He Hp].
  destruct (exact_outside_no_hit s o d tMin_bounce tMax_bounce He Ha) as [_ Hno].
  rewrite (Hno Hp). reflexivity.
Qed.

(** C1 (amended): a ray misses every sphere, for the kernel, when the scan
    of [closestHit] over [[0.001, 1e30]] reports no hit, that is when
    [hitSphere], computed in binary32, rejects every sphere.  This is the
    case for every ray whose closest approach to each sphere exceeds the
    radius, provided no operation of the discriminants rounds.  For every
    such ray and every bounce budget of at least one, [rayColor] returns the
    throughput, still (1,1,1), times the sky colour of the direction,
    whatever the fuel and without drawing a random number. *)
Theorem rayColor_miss_is_sky pow fuel spheres materials rayOrigin rayDir depth rngState :
  let rec := closestHit spheres rayOrigin rayDir tMin_bounce tMax_bounce in
  (misses_every_sphere spheres rayOrigin rayDir <-> reports_hit rec = false) /\
  (Forall (fun s => discriminant_exact s rayOrigin rayDir /\
                    passes_outside s rayOrigin rayDir) spheres ->
   (0 < qdot (exact_vec rayDir) (exact_vec rayDir))%Q ->
   misses_every_sphere spheres rayOrigin rayDir) /\
  (1 <= depth ->
   misses_every_sphere spheres rayOrigin rayDir ->
   rayColor pow fuel spheres materials rayOrigin rayDir depth rngState =
   Some (V3.mul white (skyColor rayDir), rngState)).
Proof.
  intros rec. split; [apply misses_iff_no_hit_reported|].
  split; [apply exact_outside_misses|].
  intros Hdepth Hmiss. unfold rayColor.
  destruct (Z.to_nat depth) as [|n] eqn:Hn; [lia|].
  simpl. unfold bind. rewrite bounce_miss by exact Hmiss. reflexivity.
Qed.

(** The ray from the origin straight up passes the unit sphere at (0,0,5)
    at distance 5, and its discriminant, -24, is computed without
    rounding. *)
Lemma twin_passed_by :
  discriminant_exact ex_twin_first ex_origin ex_up /\
  passes_outside ex_twin_first ex_origin ex_up.
Proof.
  split.
  - unfold discriminant_exact, exact_sub3, exact_dot, exact_op. cbv zeta.
    repeat split; vm_compute; try reflexivity; discriminate.
  - vm_compute. reflexivity.
Qed.

Lemma rayColor_miss_is_sky_witness :
  rayColor pow_identity 0 [ex_twin_first] [ex_grey] ex_origin ex_up 1 7 =
  Some (V3.mul white (skyColor ex_up), 7) /\
  V3.mul white (skyColor ex_up) = sky_blue /\
  V3.mul white (skyColor (vec3_of_Z 0 (-1) 0)) = white.
Proof.
  destruct (rayColor_miss_is_sky pow_identity 0 [ex_twin_first] [ex_grey]
              ex_origin ex_up 1 7) as (_ & Hgeo & Hsky).
  split; [|split; vm_compute; reflexivity].
  apply Hsky; [lia|].
  apply Hgeo; [|reflexivity].
  constructor; [exact twin_passed_by|constructor].
Defined.

(** C1, as stated, fails in two ways.  For the bounce budget 0 the loop body
    never runs and [rayColor] returns black, although the ray misses every
    sphere and the sky colour of its direction is not black.  And the ray
    from (2, 0, -100000) along [z] passes the unit sphere at distance 2,
    yet the scan reports a hit, random numbers are drawn (the state moves
    from 7 to 3767225587) and with the budget 1 the result is black. *)
Lemma rayColor_miss_not_always_sky :
  (misses_every_sphere [] ex_origin ex_up /\
   rayColor pow_identity 0 [] [] ex_origin ex_up 0 7 = Some (V3.zero, 7) /\
   V3.mul white (skyColor ex_up) <> V3.zero) /\
  (passes_outside ex_unit_sphere ex_far_origin ex_forward /\
   reports_hit (closestHit [ex_unit_sphere] ex_far_origin ex_forward
                           tMin_bounce tMax_bounce) = true /\
   rayColor pow_identity 40 [ex_unit_sphere] [ex_grey] ex_far_origin ex_forward 1 7 =
     Some (V3.zero, 3767225587) /\
   V3.mul white (skyColor ex_forward) <> V3.zero).
Proof.
  split.
  - split; [constructor|]. split; [reflexivity|]. vm_compute. discriminate.
  - split; [vm_compute; reflexivity|]. split; [vm_compute; reflexivity|].
    split; [vm_compute; reflexivity|]. vm_compute. discriminate.
Qed.

(** ** [render] and [resetAccumulation] *)







(** ** [hitSphere] *)

Lemma in_interval_not_out r tMin tMax :
  in_interval r tMin tMax = true -> out_of_range r tMin tMax = false.
Proof.
  unfold in_interval, out_of_range. intros H. apply andb_prop in H. destruct H as [H1 H2].
  apply orb_false_intro.
  - destruct (F32.lt r tMin) eqn:E; [|reflexivity].
    pose proof (le_lt_trans _ _ _ H1 E) as F. rewrite lt_irrefl in F. discriminate F.
  - apply le_not_gt. exact H2.
Qed.

(** C3 (amended): [hitSphere] returns -1.0 when the discriminant it
    computes in binary32 is negative; otherwise it tests
    [(-halfB - sqrtd) / a] first and [(-halfB + sqrtd) / a] second, rejects
    a root [r] when [r < tMin] or [r > tMax], and returns the first root it
    does not reject, or -1.0; a positive result is one of the two roots and
    is neither below [tMin] nor above [tMax].  The root tested second is
    never below the root tested first, rounding being monotone, so that the
    smaller root is returned when both lie in [[tMin, tMax]].  When no
    operation of the discriminant rounds, the computed discriminant is the
    exact one and is negative exactly when the closest approach distance
    exceeds the radius; when no operation of the roots rounds either, the
    two roots solve the equation of the sphere along the ray. *)
Theorem hitSphere_first_accepted_root sphere rayOrigin rayDir tMin tMax :
  let disc := discriminant sphere rayOrigin rayDir in
  let r1 := root_minus sphere rayOrigin rayDir in
  let r2 := root_plus sphere rayOrigin rayDir in
  let result := hitSphere sphere rayOrigin rayDir tMin tMax in
  (F32.lt disc F32.zero = true -> result = F32.minus_one) /\
  (F32.lt disc F32.zero = false ->
   (in_interval r1 tMin tMax = true -> result = r1) /\
   (out_of_range r1 tMin tMax = false -> result = r1) /\
   (out_of_range r1 tMin tMax = true -> in_interval r2 tMin tMax = true -> result = r2) /\
   (out_of_range r1 tMin tMax = true -> out_of_range r2 tMin tMax = false -> result = r2) /\
   (out_of_range r1 tMin tMax = true -> out_of_range r2 tMin tMax = true ->
    result = F32.minus_one)) /\
  (is_hit result = true ->
   (result = r1 \/ result = r2) /\
   F32.lt result tMin = false /\ F32.gt result tMax = false) /\
  F32.lt r2 r1 = false /\
  (in_interval r1 tMin tMax = true -> in_interval r2 tMin tMax = true ->
   F32.lt disc F32.zero = false ->
   result = r1 /\ F32.le r1 r2 = true) /\
  (discriminant_exact sphere rayOrigin rayDir ->
   (0 < qdot (exact_vec rayDir) (exact_vec rayDir))%Q ->
   (exact disc == exact_discriminant sphere rayOrigin rayDir)%Q /\
   (F32.lt disc F32.zero = true <-> passes_outside sphere rayOrigin rayDir) /\
   (passes_outside sphere rayOrigin rayDir -> result = F32.minus_one)) /\
  (roots_exact sphere rayOrigin rayDir ->
   (0 < qdot (exact_vec rayDir) (exact_vec rayDir))%Q ->
   (sphere_residual sphere rayOrigin rayDir (exact r1) == 0)%Q /\
   (sphere_residual sphere rayOrigin rayDir (exact r2) == 0)%Q /\
   (exact r1 <= exact r2)%Q).
Proof.
  intros disc r1 r2 result.
  assert (Hflow : F32.lt disc F32.zero = false ->
                  in_interval r1 tMin tMax = true -> result = r1).
  { unfold result, hitSphere. fold disc r1 r2. intros -> H.
    rewrite (in_interval_not_out _ _ _ H). reflexivity. }
  split; [|split; [|split; [|split; [|split; [|split]]]]].
  - unfold result, hitSphere. fold disc. intros ->; reflexivity.
  - unfold result, hitSphere. fold disc r1 r2. intros ->.
    split; [intros H; rewrite (in_interval_not_out _ _ _ H); reflexivity|].
    split; [intros ->; reflexivity|].
    split; [intros -> H; rewrite (in_interval_not_out _ _ _ H); reflexivity|].
    split; [intros -> ->; reflexivity|].
    intros -> ->; reflexivity.
  - intros Hh. split; [apply hitSphere_is_root; exact Hh|].
    split; [apply hitSphere_ge_tMin; exact Hh|apply hitSphere_gt_tMax; exact Hh].
  - apply roots_in_order.
  - intros I1 I2 Hd. split; [apply Hflow; assumption|].
    unfold in_interval in I1, I2. apply andb_prop in I1, I2.
    destruct I1 as [A1 _]. destruct I2 as [A2 _].
    apply not_gt_le.
    + revert A1. clear. float_order.
    + revert A2. clear. float_order.
    + apply roots_in_order.
  - intros He Ha. destruct (exact_discriminant_value _ _ _ He) as [_ Hv].
    split; [exact Hv|]. apply exact_outside_no_hit; assumption.
  - intros Hr Ha. apply exact_roots_solve; assumption.
Qed.

(** The ray from the origin along [z] meets the unit sphere at (0,0,5) at
    4 and 6, and nothing rounds on the way. *)
Lemma twin_roots_exact : roots_exact ex_twin_first ex_origin ex_forward.
Proof.
  unfold roots_exact, discriminant_exact, exact_sub3, exact_dot, exact_op. cbv zeta.
  repeat split; vm_compute; try reflexivity; discriminate.
Qed.

Lemma hitSphere_first_accepted_root_witness :
  hitSphere ex_twin_first ex_origin ex_forward tMin_bounce tMax_bounce = F32.of_Z 4 /\
  root_minus ex_twin_first ex_origin ex_forward = F32.of_Z 4 /\
  root_plus ex_twin_first ex_origin ex_forward = F32.of_Z 6 /\
  (sphere_residual ex_twin_first ex_origin ex_forward 4 == 0)%Q /\
  (sphere_residual ex_twin_first ex_origin ex_forward 6 == 0)%Q.
Proof.
  destruct (hitSphere_first_accepted_root ex_twin_first ex_origin ex_forward
              tMin_bounce tMax_bounce) as (_ & Hflow & _ & _ & _ & _ & Hroots).
  destruct (Hflow eq_refl) as (Hfirst & _).
  destruct (Hroots twin_roots_exact eq_refl) as (H1 & H2 & _).
  split; [rewrite (Hfirst eq_refl); reflexivity|].
  split; [reflexivity|]. split; [reflexivity|].
  split; [exact H1|exact H2].
Defined.

(** C3, as stated, fails in binary32: the ray from (2, 0, -100000) along
    [z] passes the centre of the unit sphere at distance 2, but [|oc|^2]
    rounds to [10^10], the computed discriminant is 0 and a hit at
    [t = 100000] is returned. *)
Lemma hitSphere_far_ray_false_hit :
  passes_outside ex_unit_sphere ex_far_origin ex_forward /\
  (closest_approach_sq ex_unit_sphere ex_far_origin ex_forward == 4)%Q /\
  (exact_discriminant ex_unit_sphere ex_far_origin ex_forward == -3)%Q /\
  discriminant ex_unit_sphere ex_far_origin ex_forward = F32.zero /\
  hitSphere ex_unit_sphere ex_far_origin ex_forward tMin_bounce tMax_bounce =
  F32.of_Z 100000 /\
  is_hit (hitSphere ex_unit_sphere ex_far_origin ex_forward tMin_bounce tMax_bounce) = true.
Proof.
  split; [vm_compute; reflexivity|].
  split; [vm_compute; reflexivity|].
  split; [vm_compute; reflexivity|].
  split; [vm_compute; reflexivity|].
  split; vm_compute; reflexivity.
Qed.

(** ** [closestHit] *)

Lemma closestHit_record spheres o d tMin tMax :
  reports_hit (closestHit spheres o d tMin tMax) = true ->
  exists s, In s spheres /\
            closestHit spheres o d tMin tMax =
            record_hit s o d (hit_t (closestHit spheres o d tMin tMax)).
Proof.
  intros Hr. destruct (closestHit_t_is_closest _ _ _ _ _ Hr) as [Ht Hrec].
  rewrite closestHit_reports in Hr.
  destruct (scan_inv_closestHit spheres o d tMin tMax Hr) as [_ [s [Hin Hs]]].
  exists s. split; [exact Hin|]. rewrite Ht, Hrec. exact Hs.
Qed.

(** C4 (amended): whenever [closestHit] reports a hit, the record is the
    one of a sphere of the list; [frontFace] is true exactly when
    [dot(rayDir, outwardNormal) < 0]; the returned normal is the outward
    normal when [frontFace] is true and its negation otherwise;
    [dot(rayDir, normal) > 0] never holds; and [dot(rayDir, normal) <= 0]
    holds whenever [dot(rayDir, outwardNormal)] is not NaN. *)
Theorem closestHit_normal_against_ray spheres rayOrigin rayDir tMin tMax :
  let rec := closestHit spheres rayOrigin rayDir tMin tMax in
  reports_hit rec = true ->
  exists sphere, In sphere spheres /\
    let n := outward_normal sphere rayOrigin rayDir (hit_t rec) in
    hit_frontFace rec = F32.lt (V3.dot rayDir n) F32.zero /\
    hit_normal rec = (if hit_frontFace rec then n else V3.neg n) /\
    F32.gt (V3.dot rayDir (hit_normal rec)) F32.zero = false /\
    (F32.is_nan (V3.dot rayDir n) = false ->
     F32.le (V3.dot rayDir (hit_normal rec)) F32.zero = true).
Proof.
  intros rec Hr. destruct (closestHit_record _ _ _ _ _ Hr) as [s [Hin Hrec]].
  exists s. split; [exact Hin|]. fold rec in Hrec.
  set (t := hit_t rec) in *. clearbody t. rewrite Hrec.
  apply record_hit_orientation.
Qed.

Lemma closestHit_normal_against_ray_witness :
  exists sphere, In sphere [ex_twin_first] /\
    let rec := closestHit [ex_twin_first] ex_origin ex_forward tMin_bounce tMax_bounce in
    let n := outward_normal sphere ex_origin ex_forward (hit_t rec) in
    hit_frontFace rec = F32.lt (V3.dot ex_forward n) F32.zero /\
    hit_normal rec = (if hit_frontFace rec then n else V3.neg n) /\
    F32.gt (V3.dot ex_forward (hit_normal rec)) F32.zero = false /\
    (F32.is_nan (V3.dot ex_forward n) = false ->
     F32.le (V3.dot ex_forward (hit_normal rec)) F32.zero = true).
Proof.
  apply (closestHit_normal_against_ray [ex_twin_first] ex_origin ex_forward
           tMin_bounce tMax_bounce).
  vm_compute. reflexivity.
Defined.

(** C4, as stated, fails at a sphere of radius zero hit through its centre:
    the outward normal is NaN, a hit is reported, and
    [dot(rayDir, normal) <= 0] is false. *)
Lemma closestHit_point_sphere_nan_normal :
  let rec := closestHit [ex_point_sphere] ex_origin ex_forward tMin_bounce tMax_bounce in
  F32.gt tMin_bounce F32.zero = true /\
  reports_hit rec = true /\
  hit_normal rec = mkVec3 S754_nan S754_nan S754_nan /\
  F32.le (V3.dot ex_forward (hit_normal rec)) F32.zero = false.
Proof. vm_compute. repeat split; reflexivity. Qed.

(** C5 (amended): [closestHit] scans the spheres in list order with a
    shrinking upper bound.  The distance it reports is at most the distance
    of every sphere that the ray hits in [[tMin, tMax]].  When it reports a
    hit, the record is the one written for one sphere of the list, at the
    distance [hitSphere] returns for that sphere, against the bound reached
    before it as well as over the whole range: one of the two roots of that
    sphere, not below [tMin] and at most that bound; no sphere after it in
    the list is hit in [[tMin, t]], so that it is the last sphere that the
    scan accepted.  When it reports none, no sphere is hit in the range.  When
    the sphere tested next yields the same distance as the closest hit so
    far, its record replaces the earlier one: among equal distances the
    sphere tested last is reported. *)
Theorem closestHit_nearest_last_wins spheres rayOrigin rayDir tMin tMax :
  let rec := closestHit spheres rayOrigin rayDir tMin tMax in
  F32.is_nan tMax = false ->
  (forall s, In s spheres ->
     is_hit (hitSphere s rayOrigin rayDir tMin tMax) = true ->
     reports_hit rec = true /\
     F32.le (hit_t rec) (hitSphere s rayOrigin rayDir tMin tMax) = true) /\
  (reports_hit rec = true ->
   exists pre s post,
     spheres = pre ++ s :: post /\
     let bound := closestSoFar (closestHit_scan pre rayOrigin rayDir tMin tMax) in
     rec = record_hit s rayOrigin rayDir (hit_t rec) /\
     hit_t rec = hitSphere s rayOrigin rayDir tMin bound /\
     is_hit (hit_t rec) = true /\
     (hit_t rec = root_minus s rayOrigin rayDir \/
      hit_t rec = root_plus s rayOrigin rayDir) /\
     F32.lt (hit_t rec) tMin = false /\
     F32.le (hit_t rec) bound = true /\ F32.le bound tMax = true /\
     hit_t rec = hitSphere s rayOrigin rayDir tMin tMax /\
     Forall (fun s' => is_hit (hitSphere s' rayOrigin rayDir tMin (hit_t rec)) = false)
            post) /\
  (reports_hit rec = false ->
   Forall (fun s => is_hit (hitSphere s rayOrigin rayDir tMin tMax) = false) spheres) /\
  (forall next,
     reports_hit rec = true ->
     hitSphere next rayOrigin rayDir tMin tMax = hit_t rec ->
     closestHit (spheres ++ [next]) rayOrigin rayDir tMin tMax =
     record_hit next rayOrigin rayDir (hit_t rec)).
Proof.
  intros rec Hn. unfold rec. clear rec. split; [|split; [|split]].
  - intros s Hin Hh. apply nearest; assumption.
  - intros Hr. destruct (closestHit_t_is_closest _ _ _ _ _ Hr) as [Ht Hrec].
    rewrite closestHit_reports in Hr. unfold closestHit_scan in *.
    set (rec := closestHit spheres rayOrigin rayDir tMin tMax) in *.
    destruct (fold_last_accepted rayOrigin rayDir tMin spheres
                (mkScan tMax false zero_HitRecord))
      as [[E _]|[pre [s [post [El [Hhit [Ef Hpost]]]]]]].
    { rewrite E in Hr. discriminate Hr. }
    cbv zeta in Hhit, Ef, Hpost.
    set (bound := closestSoFar (fold_left (closestHit_step rayOrigin rayDir tMin) pre
                                  (mkScan tMax false zero_HitRecord))) in *.
    destruct (fold_monotone rayOrigin rayDir tMin pre (mkScan tMax false zero_HitRecord) Hn)
      as [Hbn Hble]. fold bound in Hbn, Hble. cbn [closestSoFar] in Hble.
    rewrite Ef in Ht, Hrec. cbn [closestSoFar scan_rec] in Ht, Hrec.
    exists pre, s, post. split; [exact El|]. cbv zeta. fold bound.
    rewrite Ht. split; [exact Hrec|]. split; [reflexivity|]. split; [exact Hhit|].
    split; [apply hitSphere_is_root; exact Hhit|].
    split; [apply hitSphere_ge_tMin; exact Hhit|].
    split; [apply hitSphere_le_bound; assumption|]. split; [exact Hble|].
    split; [|exact Hpost].
    symmetry. apply hitSphere_smaller_bound; assumption.
  - intros Hr. apply Forall_forall. intros s Hin.
    destruct (is_hit (hitSphere s rayOrigin rayDir tMin tMax)) eqn:Hh; [|reflexivity].
    destruct (nearest spheres rayOrigin rayDir tMin tMax s Hn Hin Hh) as [Hr' _].
    congruence.
  - intros next Hr Heq. apply tie_last; assumption.
Qed.

Lemma closestHit_nearest_last_wins_witness :
  F32.le (hit_t (closestHit [ex_far_sphere; ex_twin_first] ex_origin ex_forward
                            tMin_bounce tMax_bounce))
         (F32.of_Z 4) = true /\
  hit_materialIndex
    (closestHit [ex_far_sphere; ex_twin_first] ex_origin ex_forward
                tMin_bounce tMax_bounce) = 0 /\
  hit_materialIndex
    (closestHit ([ex_far_sphere; ex_twin_first] ++ [ex_twin_second]) ex_origin ex_forward
                tMin_bounce tMax_bounce) = 1.
Proof.
  destruct (closestHit_nearest_last_wins [ex_far_sphere; ex_twin_first] ex_origin ex_forward
              tMin_bounce tMax_bounce eq_refl) as (Hnear & _ & _ & Htie).
  split; [|split].
  - apply (Hnear ex_twin_first); [right; left; reflexivity|reflexivity].
  - reflexivity.
  - rewrite (Htie ex_twin_second); reflexivity.
Defined.

(** C5, as stated, fails on two coinciding spheres: both yield [t = 4]
    and the record reported is the one of the sphere tested second. *)
Lemma closestHit_tie_reports_second :
  hitSphere ex_twin_first ex_origin ex_forward tMin_bounce tMax_bounce = F32.of_Z 4 /\
  hitSphere ex_twin_second ex_origin ex_forward tMin_bounce tMax_bounce = F32.of_Z 4 /\
  closestHit [ex_twin_first; ex_twin_second] ex_origin ex_forward tMin_bounce tMax_bounce
  = record_hit ex_twin_second ex_origin ex_forward (F32.of_Z 4) /\
  hit_materialIndex
    (closestHit [ex_twin_first; ex_twin_second] ex_origin ex_forward
                tMin_bounce tMax_bounce) = sphere_materialIndex ex_twin_second /\
  sphere_materialIndex ex_twin_second <> sphere_materialIndex ex_twin_first.
Proof. vm_compute. repeat split; try reflexivity. discriminate. Qed.

(** ** The dielectric branch *)

Lemma dielectric_total_reflection pow material rec currentDir st :
  cannotRefract material rec currentDir = true ->
  dielectric_direction pow material rec currentDir st =
  Some (reflect (V3.normalize currentDir) (hit_normal rec), st).
Proof. intros H. unfold dielectric_direction. rewrite H. reflexivity. Qed.

(** When the test fails, one number is drawn and compared with the
    reflectance. *)
Lemma dielectric_draws_once pow material rec currentDir st :
  cannotRefract material rec currentDir = false ->
  dielectric_direction pow material rec currentDir st =
  Some (if F32.gt (reflectance pow (cosTheta rec currentDir) (refractionRatio material rec))
                  (F32.div (F32.of_Z (pcg_hash st)) (F32.of_Z U32.max_value))
        then reflect (V3.normalize currentDir) (hit_normal rec)
        else refract (V3.normalize currentDir) (hit_normal rec)
                     (refractionRatio material rec),
        pcg_hash st).
Proof.
  intros H. unfold dielectric_direction. rewrite H. unfold bind, rand.
  destruct (F32.gt _ _); reflexivity.
Qed.

(** C6 (amended): at a hit on a dielectric (of index 1.5 or any other) the
    kernel tests [refractionRatio * sinTheta > 1.0] on the product rounded
    to binary32: for two numbers of the format the test succeeds exactly
    when their exact product exceeds [1 + 2^-24].  When it succeeds, the
    bounce continues in the reflected direction [reflect(unitDir, normal)],
    the same for every generator state, and leaves the state as it was, no
    random number being drawn; the refracted direction is not taken.  When
    it fails, which includes the exact products in [(1, 1 + 2^-24]], one
    number is drawn and the direction is the reflected one if the
    reflectance exceeds it and the refracted one otherwise. *)
Theorem dielectric_beyond_critical_angle_reflects
        pow fuel spheres materials currentOrigin currentDir throughput rngState :
  let rec := closestHit spheres currentOrigin currentDir tMin_bounce tMax_bounce in
  let material := material_at materials (hit_materialIndex rec) in
  let ratio := refractionRatio material rec in
  let sine := sinTheta rec currentDir in
  let reflected := reflect (V3.normalize currentDir) (hit_normal rec) in
  let refracted := refract (V3.normalize currentDir) (hit_normal rec) ratio in
  let drawn := F32.div (F32.of_Z (pcg_hash rngState)) (F32.of_Z U32.max_value) in
  let chosen :=
    if F32.gt (reflectance pow (cosTheta rec currentDir) ratio) drawn
    then reflected else refracted in
  reports_hit rec = true ->
  materialType material = 2 ->
  (is_f32_number ratio -> is_f32_number sine ->
   (cannotRefract material rec currentDir = true <->
    (1 + Qpower 2 (-24) < exact ratio * exact sine)%Q)) /\
  (cannotRefract material rec currentDir = true ->
   dielectric_direction pow material rec currentDir rngState = Some (reflected, rngState) /\
   bounce pow fuel spheres materials currentOrigin currentDir throughput rngState =
     Some (Continue (hit_p rec) reflected (V3.mul throughput (albedo material)), rngState)) /\
  (cannotRefract material rec currentDir = false ->
   dielectric_direction pow material rec currentDir rngState =
     Some (chosen, pcg_hash rngState) /\
   bounce pow fuel spheres materials currentOrigin currentDir throughput rngState =
     Some (Continue (hit_p rec) chosen (V3.mul throughput (albedo material)),
           pcg_hash rngState)).
Proof.
  intros rec material ratio sine reflected refracted drawn chosen Hr Hm.
  assert (Hb : forall direction st',
             dielectric_direction pow material rec currentDir rngState =
               Some (direction, st') ->
             bounce pow fuel spheres materials currentOrigin currentDir throughput rngState =
               Some (Continue (hit_p rec) direction (V3.mul throughput (albedo material)), st')).
  { intros direction st' Hd. unfold bounce. fold rec. fold material.
    unfold reports_hit in Hr. apply negb_true_iff in Hr.
    rewrite Hr, Hm. simpl. unfold bind. rewrite Hd. reflexivity. }
  split; [|split].
  - intros Nr Ns. unfold cannotRefract. fold ratio. fold sine.
    exact (mul_gt_one_threshold ratio sine Nr Ns).
  - intros Hc.
    pose proof (dielectric_total_reflection pow material rec currentDir rngState Hc) as Hd.
    split; [exact Hd|apply Hb; exact Hd].
  - intros Hc.
    pose proof (dielectric_draws_once pow material rec currentDir rngState Hc) as Hd.
    split; [exact Hd|apply Hb; exact Hd].
Qed.

Lemma dielectric_beyond_critical_angle_reflects_witness :
  refractionIndex (material_at [ex_glass] 0) = F32.of_ratio 3 2 /\
  (1 + Qpower 2 (-24) <
   exact (refractionRatio ex_glass
            (closestHit [ex_unit_sphere] ex_inside_origin ex_up tMin_bounce tMax_bounce)) *
   exact (sinTheta
            (closestHit [ex_unit_sphere] ex_inside_origin ex_up tMin_bounce tMax_bounce)
            ex_up))%Q /\
  bounce pow_fifth 0 [ex_unit_sphere] [ex_glass] ex_inside_origin ex_up white 7 =
  Some (Continue
          (hit_p (closestHit [ex_unit_sphere] ex_inside_origin ex_up tMin_bounce tMax_bounce))
          (reflect (V3.normalize ex_up)
             (hit_normal (closestHit [ex_unit_sphere] ex_inside_origin ex_up
                                     tMin_bounce tMax_bounce)))
          (V3.mul white (albedo ex_glass)),
        7).
Proof.
  split; [reflexivity|].
  destruct (dielectric_beyond_critical_angle_reflects pow_fifth 0 [ex_unit_sphere] [ex_glass]
              ex_inside_origin ex_up white 7) as (Ht & Hyes & _);
    [vm_compute; reflexivity|vm_compute; reflexivity|].
  split.
  - apply Ht; [split; vm_compute; reflexivity|split; vm_compute; reflexivity|].
    vm_compute; reflexivity.
  - apply Hyes. vm_compute; reflexivity.
Defined.

(** C6, as stated, fails just beyond the critical angle: for the ray that
    starts inside the unit glass ball at [x = f32(2/3)] and goes up, the
    exact product of the refraction ratio 1.5 and the sine the kernel
    computed is [1 + 2^-25], above 1, but the binary32 product is 1.0; the
    test fails, a number is drawn and the bounce continues in the refracted
    direction. *)
Lemma dielectric_just_beyond_critical_angle_refracts :
  ex_critical_hit =
    closestHit [ex_unit_sphere] ex_critical_origin ex_up tMin_bounce tMax_bounce /\
  reports_hit ex_critical_hit = true /\
  material_at [ex_glass] (hit_materialIndex ex_critical_hit) = ex_glass /\
  materialType ex_glass = 2 /\
  refractionIndex ex_glass = F32.of_ratio 3 2 /\
  (1 < exact (refractionRatio ex_glass ex_critical_hit) *
       exact (sinTheta ex_critical_hit ex_up))%Q /\
  (exact (refractionRatio ex_glass ex_critical_hit) *
   exact (sinTheta ex_critical_hit ex_up) == 1 + Qpower 2 (-25))%Q /\
  (1 < exact (refractionRatio ex_glass ex_critical_hit) *
       exact (vx ex_critical_origin))%Q /\
  F32.mul (refractionRatio ex_glass ex_critical_hit) (sinTheta ex_critical_hit ex_up) =
    F32.one /\
  cannotRefract ex_glass ex_critical_hit ex_up = false /\
  bounce pow_fifth 0 [ex_unit_sphere] [ex_glass] ex_critical_origin ex_up white 7 =
    Some (Continue (hit_p ex_critical_hit)
            (refract (V3.normalize ex_up) (hit_normal ex_critical_hit)
                     (refractionRatio ex_glass ex_critical_hit))
            (V3.mul white (albedo ex_glass)),
          pcg_hash 7) /\
  refract (V3.normalize ex_up) (hit_normal ex_critical_hit)
          (refractionRatio ex_glass ex_critical_hit) <>
  reflect (V3.normalize ex_up) (hit_normal ex_critical_hit).
Proof.
  repeat split; try (vm_compute; reflexivity).
  vm_compute. discriminate.
Qed.

(** ** The generator *)

Lemma rand_value s :
  rand s = Some (F32.div (F32.of_Z (pcg_hash s)) (F32.of_Z U32.max_value), pcg_hash s).
Proof. unfold rand. reflexivity. Qed.

Lemma draws_in_unit_interval n : forall s, Forall in_unit_interval (draws n s).
Proof.
  induction n as [|n IH]; intros s; [constructor|].
  cbn [draws]. rewrite rand_value.
  constructor; [|apply IH].
  apply unit_interval_u32. apply pcg_hash_range.
Qed.

Lemma draws_length n : forall s, List.length (draws n s) = n.
Proof.
  induction n as [|n IH]; intros s; [reflexivity|].
  cbn [draws]. rewrite rand_value. cbn [List.length]. rewrite IH. reflexivity.
Qed.

(** C7 (amended): for every state, [rand] replaces the state by its
    [pcg_hash], a [u32], and returns [f32(state) / f32(0xffffffff)], a float
    in the closed interval [[0, 1]]; the value 1.0 is returned when the new
    state is [0xffffffff]; the sequence of draws is a function of the
    initial state alone and every draw lies in [[0, 1]]. *)
Theorem rand_in_closed_unit_interval rngState :
  exists v,
    rand rngState = Some (v, pcg_hash rngState) /\
    v = F32.div (F32.of_Z (pcg_hash rngState)) (F32.of_Z U32.max_value) /\
    U32.in_range (pcg_hash rngState) /\
    in_unit_interval v /\
    (pcg_hash rngState = U32.max_value -> v = F32.one) /\
    forall n, List.length (draws n rngState) = n /\
              Forall in_unit_interval (draws n rngState).
Proof.
  eexists. split; [apply rand_value|]. split; [reflexivity|].
  split; [apply pcg_hash_range|].
  split; [apply unit_interval_u32, pcg_hash_range|].
  split; [intros ->; vm_compute; reflexivity|].
  intros n. split; [apply draws_length|apply draws_in_unit_interval].
Qed.

(** C7, as stated, fails at the state 2222045655: its hash is
    [0xffffffff] and [rand] returns exactly 1.0, which is not below 1. *)
Lemma rand_returns_one :
  pcg_hash 2222045655 = U32.max_value /\
  rand 2222045655 = Some (F32.one, U32.max_value) /\
  F32.lt F32.one F32.one = false.
Proof. vm_compute. repeat split; reflexivity. Qed.

(** ** The rejection samplers *)

Section Rejection.

Variable candidate : Rng vec3f.

Lemma rejection_loop_accepts fuel : forall st p st',
  rejection_loop candidate fuel st = Some (p, st') ->
  F32.lt (V3.dot p p) F32.one = true.
Proof.
  induction fuel as [|fuel IH]; intros st p st' H; simpl in H; [discriminate H|].
  unfold bind in H. destruct (candidate st) as [[q s1]|]; [|discriminate H].
  destruct (F32.lt (V3.dot q q) F32.one) eqn:E.
  - inversion H; subst. exact E.
  - apply (IH _ _ _ H).
Qed.

Lemma rejection_loop_more_fuel fuel : forall st r,
  rejection_loop candidate fuel st = Some r ->
  rejection_loop candidate (S fuel) st = Some r.
Proof.
  induction fuel as [|fuel IH]; intros st r H; [discriminate H|].
  simpl in H. unfold bind in H.
  change (rejection_loop candidate (S (S fuel)) st)
    with (bind candidate (fun p => if F32.lt (V3.dot p p) F32.one then ret p
                                   else rejection_loop candidate (S fuel)) st).
  unfold bind. destruct (candidate st) as [[q s1]|]; [|discriminate H].
  destruct (F32.lt (V3.dot q q) F32.one); [exact H|]. apply IH. exact H.
Qed.

Lemma rejection_loop_first_try fuel st p st' :
  candidate st = Some (p, st') ->
  F32.lt (V3.dot p p) F32.one = true ->
  rejection_loop candidate (S fuel) st = Some (p, st').
Proof. intros Hc Hp. simpl. unfold bind. rewrite Hc, Hp. reflexivity. Qed.

Lemma rejection_loop_never fuel :
  (forall st p st', candidate st = Some (p, st') ->
                    F32.lt (V3.dot p p) F32.one = false) ->
  forall st, rejection_loop candidate fuel st = None.
Proof.
  intros Hrej. induction fuel as [|fuel IH]; intros st; simpl; [reflexivity|].
  unfold bind. destruct (candidate st) as [[q s1]|] eqn:E; [|reflexivity].
  rewrite (Hrej _ _ _ E). apply IH.
Qed.

(** The loop returns the first candidate that passes the test, with the
    state that candidate left, and nothing else. *)
Lemma rejection_loop_first_accepted fuel : forall st p st',
  rejection_loop candidate fuel st = Some (p, st') <->
  exists k st_k,
    (k < fuel)%nat /\ rejections candidate k st = Some st_k /\
    candidate st_k = Some (p, st') /\ F32.lt (V3.dot p p) F32.one = true.
Proof.
  induction fuel as [|fuel IH]; intros st p st'.
  - split; [intros H; discriminate H|intros [k [st_k [Hk _]]]; lia].
  - cbn [rejection_loop]. unfold bind, ret. split.
    + intros H. destruct (candidate st) as [[q s1]|] eqn:Ec; [|discriminate H].
      destruct (F32.lt (V3.dot q q) F32.one) eqn:Eq.
      * inversion H; subst. exists O, st. repeat split; try assumption. lia.
      * apply IH in H. destruct H as [k [st_k [Hk [Hr [Hc Hp]]]]].
        exists (S k), st_k. split; [lia|]. split; [|split; assumption].
        cbn [rejections]. rewrite Ec, Eq. exact Hr.
    + intros [k [st_k [Hk [Hr [Hc Hp]]]]]. destruct k as [|k].
      * cbn [rejections] in Hr. inversion Hr; subst. rewrite Hc, Hp. reflexivity.
      * cbn [rejections] in Hr. destruct (candidate st) as [[q s1]|]; [|discriminate Hr].
        destruct (F32.lt (V3.dot q q) F32.one); [discriminate Hr|].
        apply IH. exists k, st_k. split; [lia|]. split; [exact Hr|]. split; assumption.
Qed.

(** After [n] rejected candidates the loop has not returned, whatever [n]. *)
Lemma rejection_loop_no_cap n : forall st st_n,
  rejections candidate n st = Some st_n ->
  rejection_loop candidate n st = None.
Proof.
  induction n as [|n IH]; intros st st_n H; [reflexivity|].
  cbn [rejections] in H. cbn [rejection_loop]. unfold bind.
  destruct (candidate st) as [[q s1]|]; [|reflexivity].
  destruct (F32.lt (V3.dot q q) F32.one); [discriminate H|].
  apply (IH _ _ H).
Qed.

End Rejection.

(** C8 (amended): each sampler is a rejection loop without an iteration cap
    and without a reachable fallback.  Whatever the generator, a call
    returns exactly the first candidate of squared length below 1 that the
    generator produces, with the state that candidate left, provided the
    iterations allowed exceed the number of candidates rejected before it;
    after [n] candidates rejected in a row the loop has not returned, for
    every [n]; a result does not change when more iterations are allowed;
    and on a generator all of whose candidates are rejected the call
    returns after no number of iterations. *)
Theorem rejection_samplers_unbounded (gen : Rng f32) :
  (forall fuel st p st',
     rand_in_unit_sphere_with gen fuel st = Some (p, st') <->
     exists k st_k,
       (k < fuel)%nat /\ rejections (sphere_candidate gen) k st = Some st_k /\
       sphere_candidate gen st_k = Some (p, st') /\
       F32.lt (V3.dot p p) F32.one = true) /\
  (forall fuel st p st',
     rand_in_unit_disk_with gen fuel st = Some (p, st') <->
     exists k st_k,
       (k < fuel)%nat /\ rejections (disk_candidate gen) k st = Some st_k /\
       disk_candidate gen st_k = Some (p, st') /\
       F32.lt (V3.dot p p) F32.one = true) /\
  (forall n st st_n,
     (rejections (sphere_candidate gen) n st = Some st_n ->
      rand_in_unit_sphere_with gen n st = None) /\
     (rejections (disk_candidate gen) n st = Some st_n ->
      rand_in_unit_disk_with gen n st = None)) /\
  (forall fuel st r,
     (rand_in_unit_sphere_with gen fuel st = Some r ->
      rand_in_unit_sphere_with gen (S fuel) st = Some r) /\
     (rand_in_unit_disk_with gen fuel st = Some r ->
      rand_in_unit_disk_with gen (S fuel) st = Some r)) /\
  ((forall st p st', sphere_candidate gen st = Some (p, st') ->
                     F32.lt (V3.dot p p) F32.one = false) ->
   forall fuel st, rand_in_unit_sphere_with gen fuel st = None) /\
  ((forall st p st', disk_candidate gen st = Some (p, st') ->
                     F32.lt (V3.dot p p) F32.one = false) ->
   forall fuel st, rand_in_unit_disk_with gen fuel st = None).
Proof.
  unfold rand_in_unit_sphere_with, rand_in_unit_disk_with.
  split; [|split; [|split; [|split; [|split]]]].
  - intros fuel st p st'. apply rejection_loop_first_accepted.
  - intros fuel st p st'. apply rejection_loop_first_accepted.
  - intros n st st_n. split; apply rejection_loop_no_cap.
  - intros fuel st r. split; apply rejection_loop_more_fuel.
  - intros H fuel st. apply rejection_loop_never. exact H.
  - intros H fuel st. apply rejection_loop_never. exact H.
Qed.

(** C8, as stated, fails.  With the kernel's own [rand], the sphere sampler
    started in state 957305047 rejects 27 candidates in a row and returns
    the 28th, which is not the zero vector; the disk sampler started in
    state 360862550 rejects 14 and returns the 15th: nothing stops the loop
    earlier and nothing but an accepted candidate is returned.  On the
    generator stuck at 0.0 every candidate is (-1, -1, -1), respectively
    (-1, -1, 0), and neither sampler returns, however many iterations it is
    given. *)
Lemma samplers_run_until_accepted :
  (rejections (sphere_candidate rand) 27 957305047 = Some 3074957441 /\
   rand_in_unit_sphere 27 957305047 = None /\
   rand_in_unit_sphere 28 957305047 =
     Some (mkVec3 (S754_finite true 11798336 (-27)) (S754_finite false 13234790 (-24))
                  (S754_finite false 14073312 (-27)),
           2372656589)) /\
  (rejections (disk_candidate rand) 14 360862550 = Some 3887019581 /\
   rand_in_unit_disk 14 360862550 = None /\
   rand_in_unit_disk 15 360862550 =
     Some (mkVec3 (S754_finite false 15041024 (-27)) (S754_finite true 11942436 (-24))
                  (S754_zero false),
           618851820)) /\
  (forall fuel st, rand_in_unit_sphere_with stuck_gen fuel st = None) /\
  (forall fuel st, rand_in_unit_disk_with stuck_gen fuel st = None).
Proof.
  split; [repeat split; vm_compute; reflexivity|].
  split; [repeat split; vm_compute; reflexivity|].
  assert (Hs : forall st, sphere_candidate stuck_gen st =
                          Some (mkVec3 F32.minus_one F32.minus_one F32.minus_one, st))
    by (intros st; vm_compute; reflexivity).
  assert (Hd : forall st, disk_candidate stuck_gen st =
                          Some (mkVec3 F32.minus_one F32.minus_one F32.zero, st))
    by (intros st; vm_compute; reflexivity).
  split; intros fuel st; apply rejection_loop_never; intros s p s' H.
  - rewrite Hs in H. inversion H; subst. vm_compute. reflexivity.
  - rewrite Hd in H. inversion H; subst. vm_compute. reflexivity.
Qed.

Lemma resetAccumulation_returned rt rt' :
  resetAccumulation rt = Returned rt' tt ->
  exists out,
    outputTexture rt = Some out /\
    rt' = mkRaytracer true true (Some out) (Some (createTexture (width rt) (height rt)))
            0 0 (width rt) (height rt).
Proof.
  unfold resetAccumulation, createBindGroup. cbn [pipeline outputTexture accumulationTexture
    frameIndex sampleCount width height bindGroup].
  destruct (pipeline rt) eqn:Ep; [|discriminate].
  destruct (outputTexture rt) as [out|]; [|discriminate].
  intros H. inversion H; subst. exists out. split; reflexivity.
Qed.

(** C9 (amended): for every renderer state in which [resetAccumulation]
    returns, it sets the frame index and the sample count to 0 and replaces
    the accumulation texture by a fresh one, every texel zero; the output
    texture is not touched, so reading it right after the reset gives what
    the last frame displayed; there is no zero-sample case in the kernel: an
    invocation of the next dispatch divides by 1.0 and displays the
    gamma-corrected, clamped colour it has accumulated; and
    [resetAccumulation] returns whenever the renderer has been
    initialised. *)
Theorem resetAccumulation_keeps_output rt :
  (forall rt',
     resetAccumulation rt = Returned rt' tt ->
     frameIndex rt' = 0 /\ sampleCount rt' = 0 /\
     accumulationTexture rt' = Some (createTexture (width rt) (height rt)) /\
     (forall acc x y, accumulationTexture rt' = Some acc -> textureLoad acc x y = vec4_zero) /\
     outputTexture rt' = outputTexture rt /\
     (forall x y, read_output rt' x y = read_output rt x y) /\
     (forall pow fuel scene settings px py prevColor res,
        shade_pixel pow fuel (render_uniforms rt' scene settings) (scene_camera scene)
                    (scene_spheres scene) (scene_materials scene) px py prevColor
        = Some res ->
        divisor res = 1 /\
        displayed res = gamma_correct pow (V3.div (accumulated res) F32.one))) /\
  (pipeline rt = true -> outputTexture rt <> None ->
   exists rt', resetAccumulation rt = Returned rt' tt).
Proof.
  split.
  - intros rt' H. destruct (resetAccumulation_returned _ _ H) as [out [Eo ->]].
    cbn [frameIndex sampleCount accumulationTexture outputTexture].
    split; [reflexivity|]. split; [reflexivity|]. split; [reflexivity|].
    split; [|split; [|split]].
    + intros acc x y E. inversion E; subst. unfold textureLoad, createTexture.
      cbn [texel]. destruct (in_bounds _ x y); reflexivity.
    + symmetry. exact Eo.
    + intros x y. unfold read_output. cbn [outputTexture]. rewrite Eo. reflexivity.
    + intros pow fuel scene settings px py prevColor res Hs.
      destruct (shade_pixel_spec _ _ _ _ _ _ _ _ _ _ Hs)
        as [p [s1 [color [s2 [_ [_ [_ [Hd Hdisp]]]]]]]].
      assert (Hone : divisor res = 1) by (rewrite Hd; reflexivity).
      split; [exact Hone|]. rewrite Hdisp, Hone. reflexivity.
  - intros Hp Ho. unfold resetAccumulation, createBindGroup.
    cbn [pipeline outputTexture accumulationTexture]. rewrite Hp.
    destruct (outputTexture rt) as [out|]; [|contradiction Ho; reflexivity].
    eexists. reflexivity.
Qed.

(** C9, as stated, fails: after one frame of the empty scene the pixel
    (0, 0) of the output texture shows the sky; [resetAccumulation] returns
    and the pixel read right after it is still that colour, not black. *)
Lemma reset_then_read_not_black :
  exists rt',
    resetAccumulation ex_rendered = Returned rt' tt /\
    sampleCount rt' = 0 /\
    read_output rt' 0 0 =
    Some (mkVec4 (S754_finite false 15026612 (-24)) (S754_finite false 15726854 (-24))
                 F32.one F32.one) /\
    read_output rt' 0 0 = read_output ex_rendered 0 0 /\
    read_output rt' 0 0 <> Some (mkVec4 F32.zero F32.zero F32.zero F32.one) /\
    read_output rt' 0 0 <> Some vec4_zero.
Proof.
  eexists. split; [vm_compute; reflexivity|].
  split; [reflexivity|]. split; [vm_compute; reflexivity|].
  split; [vm_compute; reflexivity|].
  split; vm_compute; discriminate.
Qed.

(** ** The divisor of the displayed average *)

(** C10: in every invocation that shades a pixel, the displayed colour is
    the gamma-corrected, clamped quotient of the accumulated colour by
    [f32(sampleCount)], where the local [sampleCount] is the uniform sample
    count plus one, wrapped at 32 bits; it is at least 1 exactly when the
    uniform is not [0xffffffff] (it is 0 then), and for such a uniform the
    divisor is a positive float, not zero; for the uniform 0, which is what
    [render] passes right after [resetAccumulation], the divisor is 1.0. *)
Theorem divisor_is_sample_count_plus_one
        pow fuel uniforms camera spheres materials px py prevColor res :
  U32.in_range (u_sampleCount uniforms) ->
  shade_pixel pow fuel uniforms camera spheres materials px py prevColor = Some res ->
  divisor res = U32.add (u_sampleCount uniforms) 1 /\
  displayed res =
    gamma_correct pow (V3.div (accumulated res) (F32.of_Z (divisor res))) /\
  (1 <= divisor res <-> u_sampleCount uniforms <> U32.max_value) /\
  (u_sampleCount uniforms = U32.max_value -> divisor res = 0) /\
  (u_sampleCount uniforms <> U32.max_value ->
   canonical_u32_float (F32.of_Z (divisor res)) /\
   F32.gt (F32.of_Z (divisor res)) F32.zero = true) /\
  (u_sampleCount uniforms = 0 -> divisor res = 1 /\ F32.of_Z (divisor res) = F32.one) /\
  (forall rt rt' scene settings,
     resetAccumulation rt = Returned rt' tt ->
     u_sampleCount (render_uniforms rt' scene settings) = 0).
Proof.
  intros Hr Hs.
  destruct (shade_pixel_spec _ _ _ _ _ _ _ _ _ _ Hs) as [p [s1 [color [s2 [_ [_ [_ [Hd Hdisp]]]]]]]].
  unfold U32.in_range, U32.modulus, U32.max_value in *.
  assert (Hcases : u_sampleCount uniforms = 4294967295 /\ divisor res = 0 \/
                   u_sampleCount uniforms <> 4294967295 /\
                   divisor res = u_sampleCount uniforms + 1).
  { rewrite Hd. unfold U32.add, U32.wrap, U32.modulus.
    destruct (Z.eq_dec (u_sampleCount uniforms) 4294967295) as [E|NE].
    - left. split; [exact E|]. rewrite E. reflexivity.
    - right. split; [exact NE|]. apply Z.mod_small. lia. }
  split; [exact Hd|]. split; [exact Hdisp|].
  split; [destruct Hcases as [[E D]|[NE D]]; rewrite D; lia|].
  split; [intros E; destruct Hcases as [[_ D]|[NE _]]; [exact D|contradiction]|].
  split; [|split].
  - intros NE. destruct Hcases as [[E _]|[_ D]]; [contradiction|].
    assert (Hc : canonical_u32_float (F32.of_Z (divisor res))).
    { rewrite D. destruct (u_sampleCount uniforms + 1) as [|q|q] eqn:Eq; try lia.
      apply of_Z_u32. lia. }
    split; [exact Hc|]. destruct Hc as [m [e [-> _]]]. reflexivity.
  - intros E. destruct Hcases as [[E' _]|[_ D]]; [lia|].
    rewrite D, E. split; reflexivity.
  - intros rt rt' scene settings H.
    destruct (resetAccumulation_returned _ _ H) as [out [_ ->]]. reflexivity.
Qed.

Lemma divisor_is_sample_count_plus_one_witness :
  divisor ex_pixel_result = U32.add (u_sampleCount ex_uniforms) 1.
Proof.
  refine (proj1 (divisor_is_sample_count_plus_one pow_identity 8 ex_uniforms ex_camera
                   [] [] 0 0 vec4_zero ex_pixel_result _ _)).
  - vm_compute. split; [discriminate|reflexivity].
  - vm_compute. reflexivity.
Defined.
